(** * Lexicon Nexus: the generation-orchestration layer

    A shallow embedding of [services/geminiService.ts], together with the
    two storage services it reads ([services/cacheService.ts] and
    [services/settingsService.ts]), and the properties of the retry wrapper,
    the error classifier, the cache-first operations and the streaming
    generator that the specification states.  A second part embeds the
    callers of the service and proves what the code shows of them: the data
    flow of the page ([App.tsx]), the settings panel
    ([components/SettingsModal.tsx] with [config/models.ts]), the rendering
    of the art ([components/AsciiArtDisplay.tsx]) and the parts of the
    deep-dive summary ([components/DeepDiveDisplay.tsx]).

    Conventions of the embedding.
    - A JavaScript string is a [string] that carries its code units, each
      as the one to three bytes of its UTF-8 form; a character outside the
      basic plane is two code units.  [length], [substring] and indexing
      count code units ([length16], [substring0], [units]).  White space is
      the class of [trim] and of [\s]: the code points of the WhiteSpace
      and LineTerminator productions ([whiteSpaceCodes]).  The case mapping
      is that of the letters A to Z, which is what [toLowerCase] does to a
      text of ASCII characters; what is stated of the letters of a key is
      stated for such a text.
    - A thrown value is an [Error] instance or any other value ([thrown]).
    - An [async] function is a state transformer that ends in a fulfilled or
      a rejected promise ([Outcome]); one call runs without interleaving,
      and a sleep is an event of the run.
    - The state is a [World]: the settings, [sessionStorage], the backend
      as the answers it will give, and the requests issued so far.  The
      [onRetry] observer works on a state of its own and returns normally.
    - The async generator is described by the run a consumer sees when it
      iterates to the end; a consumer that stops early sees a prefix.
    - [JSON.parse] and [JSON.stringify] are the ECMAScript functions over
      [json]; a number keeps its literal, which stands for the double it
      denotes: it is zero when that double is ([denotesZero]), and what is
      stated of a value read back from the cache is stated for numbers that
      [JSON.stringify] writes as they were read ([safeNumbers]).
    - [console.log] and [console.error] output is not part of the state.
    - The state of a React component is a record of its state variables; a
      handler or an effect is a function on it that is run to its end,
      without interleaving and without being cancelled.  What the random
      source and the clock give are arguments. *)

From Stdlib Require Import String Ascii List ZArith Lia Bool.
From stdpp Require Import gmap strings pretty.

Set Default Proof Using "Type".
Set Warnings "-register-all".
Local Open Scope Z_scope.

(* ================================================================== *)
(** ** Strings *)
(* ================================================================== *)

(** [s.startsWith(p)] *)
Fixpoint startsWith (s p : string) {struct p} : bool :=
  match p, s with
  | EmptyString, _ => true
  | String _ _, EmptyString => false
  | String a p', String b s' => if Ascii.eqb a b then startsWith s' p' else false
  end.

(** [s.includes(needle)] *)
Fixpoint includes (s needle : string) : bool :=
  startsWith s needle ||
  match s with
  | EmptyString => false
  | String _ s' => includes s' needle
  end.

(** The UTF-8 bytes of the code unit [n]; the two halves of a surrogate
    pair are encoded one by one. *)
Definition utf8 (n : N) : string :=
  if (n <? 128)%N then String (ascii_of_N n) EmptyString
  else if (n <? 2048)%N then
    String (ascii_of_N (192 + n / 64))
      (String (ascii_of_N (128 + n mod 64)) EmptyString)
  else
    String (ascii_of_N (224 + n / 4096))
      (String (ascii_of_N (128 + (n / 64) mod 64))
        (String (ascii_of_N (128 + n mod 64)) EmptyString)).

(** White space as [String.prototype.trim] and the [\s] class see it: the
    code points of the WhiteSpace and LineTerminator productions of
    ECMAScript.  These are TAB, LF, VT, FF, CR, SPACE, the no-break space,
    the space separators of Unicode, the line and paragraph separators and
    the byte order mark. *)
Definition whiteSpaceCodes : list N :=
  [ 0x0009; 0x000A; 0x000B; 0x000C; 0x000D; 0x0020; 0x00A0; 0x1680;
    0x2000; 0x2001; 0x2002; 0x2003; 0x2004; 0x2005; 0x2006; 0x2007;
    0x2008; 0x2009; 0x200A; 0x2028; 0x2029; 0x202F; 0x205F; 0x3000;
    0xFEFF ]%N.

(** The white-space characters as a string carries them. *)
Definition whiteSpaces : list string := List.map utf8 whiteSpaceCodes.

Definition isEmpty (s : string) : bool :=
  match s with EmptyString => true | String _ _ => false end.

(** The white-space character [s] opens with, if it opens with one. *)
Definition whiteSpaceAt (s : string) : option string :=
  List.find (startsWith s) whiteSpaces.

(** The number of bytes of that character, and 0 when there is none. *)
Definition whiteSpaceWidth (s : string) : nat :=
  match whiteSpaceAt s with
  | Some ws => String.length ws
  | None => O
  end.

(** [s] holds white-space characters only.  A character of several
    bytes is passed byte by byte: [skip] is the number of its bytes still
    to be passed. *)
Fixpoint blankFrom (skip : nat) (s : string) : bool :=
  match s with
  | EmptyString => true
  | String _ r =>
      match skip with
      | S k => blankFrom k r
      | O =>
          match whiteSpaceWidth s with
          | S k => blankFrom k r
          | O => false
          end
      end
  end.

Definition blank (s : string) : bool := blankFrom 0 s.

Fixpoint trimStartFrom (skip : nat) (s : string) : string :=
  match s with
  | EmptyString => EmptyString
  | String _ r =>
      match skip with
      | S k => trimStartFrom k r
      | O =>
          match whiteSpaceWidth s with
          | S k => trimStartFrom k r
          | O => s
          end
      end
  end.

(** [s.trimStart()]: [s] without the white space it opens with. *)
Definition trimStart (s : string) : string := trimStartFrom 0 s.

(** [s.trimEnd()]: [s] up to the first place from which only white space
    follows. *)
Fixpoint trimEnd (s : string) : string :=
  match s with
  | EmptyString => EmptyString
  | String c r => if blank s then EmptyString else String c (trimEnd r)
  end.

(** [s.trim()] *)
Definition trim (s : string) : string := trimEnd (trimStart s).

(** No white-space character opens anywhere in [s]. *)
Fixpoint spaceless (s : string) : bool :=
  match s with
  | EmptyString => true
  | String _ r =>
      match whiteSpaceAt s with
      | Some _ => false
      | None => spaceless r
      end
  end.

(** A byte that continues a character of several bytes. *)
Definition isContinuation (c : ascii) : bool :=
  ((128 <=? N_of_ascii c) && (N_of_ascii c <=? 191))%N.

(** [s] does not open in the middle of a character. *)
Definition atBoundary (s : string) : bool :=
  match s with
  | EmptyString => true
  | String c _ => negb (isContinuation c)
  end.

(** The code units of [s], which are what [s[i]] indexes: each byte that
    opens a code unit, with the continuation bytes that follow it. *)
Fixpoint units (s : string) : list string :=
  match s with
  | EmptyString => []
  | String c r =>
      match units r with
      | u :: rest =>
          if atBoundary u then String c EmptyString :: u :: rest
          else String c u :: rest
      | [] => [String c EmptyString]
      end
  end.

(** [s.length]: the number of code units. *)
Fixpoint length16 (s : string) : nat :=
  match s with
  | EmptyString => O
  | String c r => if isContinuation c then length16 r else S (length16 r)
  end.

(** [s.substring(0, n)]: the first [n] code units. *)
Fixpoint substring0 (n : nat) (s : string) : string :=
  match s with
  | EmptyString => EmptyString
  | String c r =>
      if isContinuation c then String c (substring0 n r)
      else
        match n with
        | O => EmptyString
        | S k => String c (substring0 k r)
        end
  end.

(** Every character of [s] is an ASCII character. *)
Fixpoint isAscii (s : string) : bool :=
  match s with
  | EmptyString => true
  | String c r => (N_of_ascii c <? 128)%N && isAscii r
  end.

Definition lowerChar (c : ascii) : ascii :=
  let n := N_of_ascii c in
  if ((65 <=? n) && (n <=? 90))%N then ascii_of_N (n + 32) else c.

(** [s.toLowerCase()] *)
Fixpoint toLowerCase (s : string) : string :=
  match s with
  | EmptyString => EmptyString
  | String c r => String (lowerChar c) (toLowerCase r)
  end.

(** The string [c c c ...] made of the characters that satisfy [p]. *)
Fixpoint allChars (p : ascii -> bool) (s : string) : bool :=
  match s with
  | EmptyString => true
  | String c r => p c && allChars p r
  end.

(* ================================================================== *)
(** ** Errors and promises *)
(* ================================================================== *)

(** An instance of [Error]; only its [message] is ever read. *)
Record Error : Type := mkError { message : string }.

(** What a [catch (error: unknown)] clause can receive. *)
Inductive thrown : Type :=
| ThrownError (e : Error)        (* [error instanceof Error] *)
| ThrownOther (str : string).    (* anything else; [str] is [String(error)] *)

(** A settled promise. *)
Inductive Outcome (T : Type) : Type :=
| Fulfilled (value : T)
| Rejected (reason : thrown).
Arguments Fulfilled {T} value.
Arguments Rejected {T} reason.

Definition MAX_RETRIES : nat := 3.
Definition INITIAL_BACKOFF_MS : Z := 2000.

Definition RATE_LIMIT_MESSAGE : string :=
  "API rate limit exceeded. Please wait a moment and try again.".

(** The [message] local of [handleGeminiError]. *)
Definition messageOf (error : thrown) : string :=
  match error with
  | ThrownError e => message e
  | ThrownOther _ => "An unknown error occurred."
  end.

(** The one-character string holding a double quote. *)
Definition DQ : string := String "034"%char EmptyString.

(** The three substring tests of [handleGeminiError]. *)
Definition hasRateLimitMarker (msg : string) : bool :=
  includes msg "RESOURCE_EXHAUSTED"
  || includes msg (DQ +:+ "code" +:+ DQ +:+ ":429")
  || includes msg "rate limit".

(** [handleGeminiError(error, context)] *)
Definition handleGeminiError (error : thrown) (context : string) : Error :=
  let message := messageOf error in
  if hasRateLimitMarker message
  then mkError RATE_LIMIT_MESSAGE
  else mkError ("Could not " +:+ context +:+ ". " +:+ message).

(** [error instanceof Error ? error : new Error(String(error))] *)
Definition toError (error : thrown) : Error :=
  match error with
  | ThrownError e => e
  | ThrownOther str => mkError str
  end.

(** [throw lastError!] where [lastError] may still be [null]. *)
Definition throwNullable (lastError : option Error) : thrown :=
  match lastError with
  | Some e => ThrownError e
  | None => ThrownOther "null"
  end.

(** The test both retry loops apply to the normalised error. *)
Definition isRetryable (e : Error) : bool :=
  includes (message e) "API rate limit exceeded".

(** [INITIAL_BACKOFF_MS * Math.pow(2, attempt)] *)
Definition backoffDelay (attempt : nat) : Z :=
  INITIAL_BACKOFF_MS * 2 ^ Z.of_nat attempt.

(* ================================================================== *)
(** ** The retry wrapper *)
(* ================================================================== *)

(** What an observer of one run of the wrapper sees, in order. *)
Inductive RetryEvent : Type :=
| Attempt                                  (* [requestFn()] is called *)
| Notify (attempt : nat) (delay : Z)       (* [onRetry(attempt, delay)] is called *)
| Sleep (delay : Z).                       (* the [setTimeout] promise is awaited *)

(** The result of one run: the settled promise, the state the operation
    left behind, the state the observer left behind, and the events. *)
Record Run (T S U : Type) : Type := mkRun {
  outcome : Outcome T;
  final : S;
  observed : U;
  trace : list RetryEvent
}.
Arguments mkRun {T S U} _ _ _ _.
Arguments outcome {T S U} _.
Arguments final {T S U} _.
Arguments observed {T S U} _.
Arguments trace {T S U} _.

Definition later {T S U} (evs : list RetryEvent) (r : Run T S U) : Run T S U :=
  mkRun (outcome r) (final r) (observed r) (evs ++ trace r).

Section RetryWrapper.
(** [S] is the state [requestFn] works on, [U] the state of the caller's
    observer, which the operation does not touch; the observer returns
    normally. *)
Context {T S U : Type}.
Variable requestFn : S -> Outcome T * S.
Variable onRetry : option (nat -> Z -> U -> U).

Definition notify (attempt : nat) (delay : Z) (u : U) : U * list RetryEvent :=
  match onRetry with
  | Some f => (f attempt delay u, [Notify attempt delay])
  | None => (u, [])
  end.

(** The [for] loop; [remaining] is [MAX_RETRIES - attempt]. *)
Fixpoint retryLoop (remaining : nat) (lastError : option Error) (s : S) (u : U)
  : Run T S U :=
  match remaining with
  | O => mkRun (Rejected (throwNullable lastError)) s u []
  | Datatypes.S remaining' =>
      let attempt := (MAX_RETRIES - remaining)%nat in
      match requestFn s with
      | (Fulfilled v, s') => mkRun (Fulfilled v) s' u [Attempt]
      | (Rejected error, s') =>
          let lastError := toError error in
          if isRetryable lastError && (attempt <? MAX_RETRIES - 1)%nat then
            let delay := backoffDelay attempt in
            let '(u', told) := notify (attempt + 1) delay u in
            later (Attempt :: told ++ [Sleep delay])
                  (retryLoop remaining' (Some lastError) s' u')
          else mkRun (Rejected (ThrownError lastError)) s' u [Attempt]
      end
  end.

(** [geminiRequestWithRetry(requestFn, onRetry)] *)
Definition geminiRequestWithRetry (s : S) (u : U) : Run T S U :=
  retryLoop MAX_RETRIES None s u.
End RetryWrapper.

(** How often the operation was called in a run. *)
Definition attempts (evs : list RetryEvent) : nat :=
  length (List.filter (fun e => match e with Attempt => true | _ => false end) evs).

(** The [onRetry] calls of a run, in order. *)
Definition notifications (evs : list RetryEvent) : list (nat * Z) :=
  flat_map (fun e => match e with Notify a d => [(a, d)] | _ => [] end) evs.

(* ================================================================== *)
(** ** Cache keys *)
(* ================================================================== *)

(** [`${operationKind}_${modelId}_${topic.toLowerCase()}`] *)
Definition cacheKeyOf (operationKind modelId topic : string) : string :=
  operationKind +:+ "_" +:+ modelId +:+ "_" +:+ toLowerCase topic.

Definition ancillaryKey (modelId topic : string) : string :=
  cacheKeyOf "ancillary" modelId topic.

Definition deepDiveKey (modelId topic : string) : string :=
  cacheKeyOf "deepdive" modelId topic.

(* ================================================================== *)
(** ** JSON values, [JSON.parse] and [JSON.stringify] *)
(* ================================================================== *)

(** A value [JSON.parse] can return.  A number keeps the literal it was
    read from: its IEEE-754 value plays no part in the service.  An object
    keeps its members in source order; a later member of the same name
    shadows an earlier one. *)
Inductive json : Type :=
| JNull
| JBool (b : bool)
| JNumber (literal : string)
| JString (s : string)
| JArray (items : list json)
| JObject (members : list (string * json)).

Definition charIn (lo hi : N) (c : ascii) : bool :=
  ((lo <=? N_of_ascii c) && (N_of_ascii c <=? hi))%N.

Definition isDigit (c : ascii) : bool := charIn 48 57 c.

Definition isJsonWs (c : ascii) : bool :=
  match N_of_ascii c with
  | 9%N | 10%N | 13%N | 32%N => true
  | _ => false
  end.

Fixpoint skipWs (s : string) : string :=
  match s with
  | EmptyString => EmptyString
  | String c r => if isJsonWs c then skipWs r else s
  end.

(** [expect c s]: [s] without its first character, when that is [c]. *)
Definition expect (c : ascii) (s : string) : option string :=
  match s with
  | EmptyString => None
  | String x r => if Ascii.eqb x c then Some r else None
  end.

Definition hexValue (c : ascii) : option N :=
  let n := N_of_ascii c in
  if charIn 48 57 c then Some (n - 48)%N
  else if charIn 97 102 c then Some (n - 87)%N
  else if charIn 65 70 c then Some (n - 55)%N
  else None.

Definition hex4 (a b c d : ascii) : option N :=
  match hexValue a, hexValue b, hexValue c, hexValue d with
  | Some x, Some y, Some z, Some w => Some (((x * 16 + y) * 16 + z) * 16 + w)%N
  | _, _, _, _ => None
  end.

(** The character a two-character escape stands for. *)
Definition simpleEscape (e : ascii) : option ascii :=
  match N_of_ascii e with
  | 34%N => Some "034"%char      (* the double quote *)
  | 92%N => Some "092"%char      (* the backslash *)
  | 47%N => Some "/"%char
  | 98%N => Some "008"%char      (* b *)
  | 102%N => Some "012"%char     (* f *)
  | 110%N => Some "010"%char     (* n *)
  | 114%N => Some "013"%char     (* r *)
  | 116%N => Some "009"%char     (* t *)
  | _ => None
  end.

Definition consResult (c : ascii) (r : option (string * string))
  : option (string * string) :=
  match r with
  | Some (str, rest) => Some (String c str, rest)
  | None => None
  end.

Definition appResult (p : string) (r : option (string * string))
  : option (string * string) :=
  match r with
  | Some (str, rest) => Some (p +:+ str, rest)
  | None => None
  end.

(** The characters of a string literal after its opening quote, up to and
    including the closing quote. *)
Fixpoint parseChars (s : string) : option (string * string) :=
  match s with
  | EmptyString => None
  | String c r =>
      if Ascii.eqb c "034" then Some (EmptyString, r)
      else if Ascii.eqb c "092" then
        match r with
        | EmptyString => None
        | String e r' =>
            if Ascii.eqb e "u" then
              match r' with
              | String h1 (String h2 (String h3 (String h4 r''))) =>
                  match hex4 h1 h2 h3 h4 with
                  | Some n => appResult (utf8 n) (parseChars r'')
                  | None => None
                  end
              | _ => None
              end
            else
              match simpleEscape e with
              | Some x => consResult x (parseChars r')
              | None => None
              end
        end
      else if (N_of_ascii c <? 32)%N then None
      else consResult c (parseChars r)
  end.

Definition isNumberChar (c : ascii) : bool :=
  isDigit c ||
  match N_of_ascii c with
  | 43%N | 45%N | 46%N | 69%N | 101%N => true     (* + - . E e *)
  | _ => false
  end.

(** The longest prefix of characters satisfying [p], and what follows. *)
Fixpoint span (p : ascii -> bool) (s : string) : string * string :=
  match s with
  | EmptyString => (EmptyString, EmptyString)
  | String c r =>
      if p c then let '(a, b) := span p r in (String c a, b)
      else (EmptyString, s)
  end.

Fixpoint dropDigits (s : string) : string :=
  match s with
  | EmptyString => EmptyString
  | String c r => if isDigit c then dropDigits r else s
  end.

Definition startsWithDigit (s : string) : bool :=
  match s with
  | EmptyString => false
  | String c _ => isDigit c
  end.

(** [e] or [E], an optional sign, one or more digits; or nothing. *)
Definition validExponent (s : string) : bool :=
  match s with
  | EmptyString => true
  | String c r =>
      if Ascii.eqb c "e" || Ascii.eqb c "E" then
        let r1 := match r with
                  | EmptyString => r
                  | String g r' => if Ascii.eqb g "+" || Ascii.eqb g "-" then r' else r
                  end in
        startsWithDigit r1 && isEmpty (dropDigits r1)
      else false
  end.

(** A dot and one or more digits, or nothing; then the exponent. *)
Definition validFraction (s : string) : bool :=
  match s with
  | EmptyString => true
  | String c r =>
      if Ascii.eqb c "." then startsWithDigit r && validExponent (dropDigits r)
      else validExponent s
  end.

(** The JSON number grammar. *)
Definition validNumber (s : string) : bool :=
  let s1 := match s with
            | EmptyString => s
            | String c r => if Ascii.eqb c "-" then r else s
            end in
  match s1 with
  | EmptyString => false
  | String c r =>
      if Ascii.eqb c "0" then validFraction r
      else if isDigit c then validFraction (dropDigits r)
      else false
  end.

Definition parseLiteral (s : string) : option (json * string) :=
  let '(lit, rest) := span isNumberChar s in
  if validNumber lit then Some (JNumber lit, rest) else None.

Fixpoint dropPrefix (p s : string) {struct p} : option string :=
  match p, s with
  | EmptyString, _ => Some s
  | String _ _, EmptyString => None
  | String a p', String b s' => if Ascii.eqb a b then dropPrefix p' s' else None
  end.

Definition parseKeyword (s : string) : option (json * string) :=
  match dropPrefix "true" s, dropPrefix "false" s, dropPrefix "null" s with
  | Some r, _, _ => Some (JBool true, r)
  | None, Some r, _ => Some (JBool false, r)
  | None, None, Some r => Some (JNull, r)
  | None, None, None => parseLiteral s
  end.

(** The recursive-descent reader.  [fuel] bounds the nesting and the
    number of elements; [JSON_parse] supplies enough of it. *)
Fixpoint parseValue (fuel : nat) (s : string) : option (json * string) :=
  match fuel with
  | O => None
  | S fuel' =>
      match skipWs s with
      | EmptyString => None
      | String c r =>
          if Ascii.eqb c "[" then
            match expect "]" (skipWs r) with
            | Some r' => Some (JArray [], r')
            | None =>
                match parseElements fuel' r with
                | Some (vs, r') => Some (JArray vs, r')
                | None => None
                end
            end
          else if Ascii.eqb c "{" then
            match expect "}" (skipWs r) with
            | Some r' => Some (JObject [], r')
            | None =>
                match parseMembers fuel' r with
                | Some (ms, r') => Some (JObject ms, r')
                | None => None
                end
            end
          else if Ascii.eqb c "034" then
            match parseChars r with
            | Some (str, r') => Some (JString str, r')
            | None => None
            end
          else parseKeyword (String c r)
      end
  end
with parseElements (fuel : nat) (s : string) : option (list json * string) :=
  match fuel with
  | O => None
  | S fuel' =>
      match parseValue fuel' s with
      | None => None
      | Some (v, r) =>
          match expect "," (skipWs r) with
          | Some r' =>
              match parseElements fuel' r' with
              | Some (vs, r'') => Some (v :: vs, r'')
              | None => None
              end
          | None =>
              match expect "]" (skipWs r) with
              | Some r' => Some ([v], r')
              | None => None
              end
          end
      end
  end
with parseMembers (fuel : nat) (s : string)
  : option (list (string * json) * string) :=
  match fuel with
  | O => None
  | S fuel' =>
      match expect "034" (skipWs s) with
      | None => None
      | Some r0 =>
          match parseChars r0 with
          | None => None
          | Some (k, r1) =>
              match expect ":" (skipWs r1) with
              | None => None
              | Some r2 =>
                  match parseValue fuel' r2 with
                  | None => None
                  | Some (v, r3) =>
                      match expect "," (skipWs r3) with
                      | Some r4 =>
                          match parseMembers fuel' r4 with
                          | Some (ms, r5) => Some ((k, v) :: ms, r5)
                          | None => None
                          end
                      | None =>
                          match expect "}" (skipWs r3) with
                          | Some r4 => Some ([(k, v)], r4)
                          | None => None
                          end
                      end
                  end
              end
          end
      end
  end.

(** [JSON.parse(text)]: the value, or [None] for a [SyntaxError]. *)
Definition JSON_parse (text : string) : option json :=
  match parseValue (2 + 2 * String.length text) text with
  | Some (v, rest) => if isEmpty (skipWs rest) then Some v else None
  | None => None
  end.

(** The one-character string holding a backslash. *)
Definition BS : string := String "092"%char EmptyString.

Definition hexDigit (n : N) : ascii :=
  if (n <? 10)%N then ascii_of_N (48 + n) else ascii_of_N (87 + n).

(** How [JSON.stringify] writes one character of a string. *)
Definition escapeChar (c : ascii) : string :=
  let n := N_of_ascii c in
  match n with
  | 34%N => BS +:+ DQ
  | 92%N => BS +:+ BS
  | 8%N => BS +:+ "b"
  | 12%N => BS +:+ "f"
  | 10%N => BS +:+ "n"
  | 13%N => BS +:+ "r"
  | 9%N => BS +:+ "t"
  | _ =>
      if (n <? 32)%N then
        BS +:+ "u00" +:+ String (hexDigit (n / 16)) (String (hexDigit (n mod 16)) EmptyString)
      else String c EmptyString
  end.

Fixpoint quoteChars (s : string) : string :=
  match s with
  | EmptyString => EmptyString
  | String c r => escapeChar c +:+ quoteChars r
  end.

Definition quote (s : string) : string := DQ +:+ quoteChars s +:+ DQ.

(** [JSON.stringify(value)] for a value that came from [JSON.parse]. *)
Fixpoint JSON_stringify (v : json) : string :=
  match v with
  | JNull => "null"
  | JBool true => "true"
  | JBool false => "false"
  | JNumber literal => literal
  | JString s => quote s
  | JArray items =>
      "[" +:+
      (fix elements (l : list json) : string :=
         match l with
         | [] => EmptyString
         | [x] => JSON_stringify x
         | x :: l' => JSON_stringify x +:+ "," +:+ elements l'
         end) items
      +:+ "]"
  | JObject members =>
      "{" +:+
      (fix pairs (l : list (string * json)) : string :=
         match l with
         | [] => EmptyString
         | [(k, x)] => quote k +:+ ":" +:+ JSON_stringify x
         | (k, x) :: l' => quote k +:+ ":" +:+ JSON_stringify x +:+ "," +:+ pairs l'
         end) members
      +:+ "}"
  end.

(** Every number in the value is a literal of the JSON grammar, as in
    every value [JSON.parse] returns. *)
Fixpoint wellFormed (v : json) : bool :=
  match v with
  | JNumber literal => validNumber literal
  | JArray items => forallb wellFormed items
  | JObject members => forallb (fun m => wellFormed (snd m)) members
  | _ => true
  end.

(** The digits of [s] read in base ten, after those read into [acc]. *)
Fixpoint digitsFrom (acc : N) (s : string) : N :=
  match s with
  | EmptyString => acc
  | String c r => digitsFrom (10 * acc + (N_of_ascii c - 48)) r
  end.

(** A literal of the JSON grammar as a whole number and a power of ten:
    the literal denotes plus or minus [mantissa * 10 ^ exponent]. *)
Definition literalParts (literal : string) : N * Z :=
  let unsigned :=
    match literal with
    | EmptyString => literal
    | String c r => if Ascii.eqb c "-" then r else literal
    end in
  let '(whole, rest) := span isDigit unsigned in
  let '(fraction, rest) :=
    match rest with
    | EmptyString => (EmptyString, rest)
    | String c r => if Ascii.eqb c "." then span isDigit r else (EmptyString, rest)
    end in
  let exponent :=
    match rest with
    | EmptyString => 0
    | String _ r =>                                    (* [e] or [E] *)
        match r with
        | EmptyString => 0
        | String g r' =>
            if Ascii.eqb g "-" then - Z.of_N (digitsFrom 0 r')
            else if Ascii.eqb g "+" then Z.of_N (digitsFrom 0 r')
            else Z.of_N (digitsFrom 0 r)
        end
    end in
  (digitsFrom 0 (whole +:+ fraction), exponent - Z.of_nat (String.length fraction)).

(** The double a literal denotes is zero: its digits are all [0], or what
    it denotes is at most [2 ^ -1075], half the least positive double, and
    is rounded to zero. *)
Definition denotesZero (literal : string) : bool :=
  let '(mantissa, exponent) := literalParts literal in
  (mantissa =? 0)%N
  || ((exponent <? 0) && (Z.of_N mantissa * 2 ^ 1075 <=? 10 ^ (- exponent))).

(** [ToBoolean(v)], what [if (v)] tests. *)
Definition truthy (v : json) : bool :=
  match v with
  | JNull => false
  | JBool b => b
  | JNumber literal => negb (denotesZero literal)
  | JString s => negb (isEmpty s)
  | JArray _ => true
  | JObject _ => true
  end.

Fixpoint lookupLast (name : string) (members : list (string * json)) : option json :=
  match members with
  | [] => None
  | (k, v) :: rest =>
      match lookupLast name rest with
      | Some v' => Some v'
      | None => if String.eqb k name then Some v else None
      end
  end.

(** [v[name]] for a name that is no built-in property of arrays, strings,
    numbers or booleans and [v] not [null]; [None] is [undefined]. *)
Definition getProp (v : json) (name : string) : option json :=
  match v with
  | JObject members => lookupLast name members
  | _ => None
  end.

(** The elements of an array and the members of an object as
    [JSON.stringify] writes them between the brackets. *)
Fixpoint stringifyItems (l : list json) : string :=
  match l with
  | [] => EmptyString
  | [x] => JSON_stringify x
  | x :: l' => JSON_stringify x +:+ "," +:+ stringifyItems l'
  end.

Fixpoint stringifyMembers (l : list (string * json)) : string :=
  match l with
  | [] => EmptyString
  | [(k, x)] => quote k +:+ ":" +:+ JSON_stringify x
  | (k, x) :: l' => quote k +:+ ":" +:+ JSON_stringify x +:+ "," +:+ stringifyMembers l'
  end.

(** The number of values in a value, counting each element and member
    once more: a bound on the fuel that reading it back takes. *)
Fixpoint size (v : json) : nat :=
  match v with
  | JArray items =>
      S ((fix total (l : list json) : nat :=
            match l with
            | [] => O
            | x :: l' => S (size x + total l')
            end) items)
  | JObject members =>
      S ((fix total (l : list (string * json)) : nat :=
            match l with
            | [] => O
            | (_, x) :: l' => S (size x + total l')
            end) members)
  | _ => 1%nat
  end.

Fixpoint sizeItems (l : list json) : nat :=
  match l with
  | [] => O
  | x :: l' => S (size x + sizeItems l')
  end.

Fixpoint sizeMembers (l : list (string * json)) : nat :=
  match l with
  | [] => O
  | (_, x) :: l' => S (size x + sizeMembers l')
  end.

(** A character that can open a JSON value. *)
Definition opensValue (c : ascii) : bool :=
  isDigit c ||
  match N_of_ascii c with
  | 34%N | 45%N | 91%N | 102%N | 110%N | 116%N | 123%N => true
  | _ => false
  end.

(** What may follow a number: nothing, or a character no number holds. *)
Definition endsNumber (rest : string) : bool :=
  match rest with
  | EmptyString => true
  | String c _ => negb (isNumberChar c)
  end.

(* ================================================================== *)
(** ** The fence pattern *)
(* ================================================================== *)

(** A backtracking matcher in continuation-passing style: a pattern takes
    the matcher of what follows it and the input still to be read.  Greedy
    quantifiers try the longer alternative first, the lazy one the shorter,
    as [RegExp.prototype.exec] does. *)
Definition Matcher (R : Type) : Type := string -> option R.

Definition reLit {R} (p : string) (k : Matcher R) : Matcher R :=
  fun s => match dropPrefix p s with
           | Some r => k r
           | None => None
           end.

(** [(?:m)?] *)
Definition reOpt {R} (m : Matcher R -> Matcher R) (k : Matcher R) : Matcher R :=
  fun s => match m k s with
           | Some x => Some x
           | None => k s
           end.

(** [\s*]: as many white-space characters as there are, and fewer when
    what follows does not match then.  A character of several bytes is
    passed byte by byte: [skip] is the number of its bytes still to be
    passed. *)
Fixpoint reSpacesFrom {R} (k : Matcher R) (skip : nat) (s : string) {struct s}
  : option R :=
  match skip, s with
  | S n, String _ r => reSpacesFrom k n r
  | S n, EmptyString => None
  | O, String _ r =>
      match whiteSpaceWidth s with
      | S n =>
          match reSpacesFrom k n r with
          | Some x => Some x
          | None => k s
          end
      | O => k s
      end
  | O, EmptyString => k s
  end.

Definition reSpaces {R} (k : Matcher R) : Matcher R := reSpacesFrom k 0.

(** [$] *)
Definition reEnd : Matcher unit :=
  fun s => if isEmpty s then Some tt else None.

(** [(.*?)] under the [s] flag: the shortest prefix after which [k]
    matches; the prefix is the captured group. *)
Fixpoint reLazyAny (k : Matcher unit) (s : string) : option string :=
  match k s with
  | Some _ => Some EmptyString
  | None =>
      match s with
      | EmptyString => None
      | String c r =>
          match reLazyAny k r with
          | Some cap => Some (String c cap)
          | None => None
          end
      end
  end.

Definition LF : string := String "010"%char EmptyString.

(** [\n?\s*```$] *)
Definition fenceClose : Matcher unit :=
  reOpt (reLit LF) (reSpaces (reLit "```" reEnd)).

(** [/^```(?:json)?\s*\n?(.*?)\n?\s*```$/s]; the result is [match[1]]. *)
Definition fenceRegex : Matcher string :=
  reLit "```"
    (reOpt (reLit "json")
      (reSpaces
        (reOpt (reLit LF) (reLazyAny fenceClose)))).

(** The text handed to [JSON.parse]:
    [jsonStr = response.text.trim(); match = jsonStr.match(fenceRegex);
     if (match && match[1]) jsonStr = match[1].trim()]. *)
Definition stripFence (text : string) : string :=
  let jsonStr := trim text in
  match fenceRegex jsonStr with
  | Some group => if isEmpty group then jsonStr else trim group
  | None => jsonStr
  end.

(* ================================================================== *)
(** ** The world the service runs in *)
(* ================================================================== *)

(** The request sent to the backend.  The prompt and the response schema
    are fixed templates around the topic; the request records which
    template it is, the model, and the thinking configuration. *)
Inductive Template : Type :=
| DefinitionPrompt (topic : string)
| DocumentQuestion (mimeType data question : string)
| AncillaryPrompt (topic : string)
| DeepDivePrompt (topic : string).

Inductive ThinkingConfig : Type :=
| ThinkingBudgetZero          (* [{ thinkingBudget: 0 }] *)
| ThoughtTrue                 (* [{ thought: true }] *)
| ThinkingDefault.            (* no [thinkingConfig] *)

Record Request : Type := mkRequest {
  streaming : bool;
  model : string;
  contents : Template;
  thinkingConfig : ThinkingConfig
}.

(** The answer to [generateContent]: a response whose [text] getter gives
    a string or [undefined], or a rejection. *)
Inductive Reply : Type :=
| ReplyText (text : option string)
| ReplyFailure (error : thrown).

(** The answer to [generateContentStream]: the chunks that arrive, each
    with its [text] getter, and the error that ends the stream if one
    does (with no chunk when the call itself rejects). *)
Record StreamReply : Type := mkStreamReply {
  chunks : list (option string);
  failure : option thrown
}.

(** The messages the JavaScript engine puts in its own exceptions. *)
Record Engine : Type := mkEngine {
  syntaxErrorMessage : string -> string;     (* [JSON.parse(text)] *)
  typeErrorMessage : string -> string -> string
    (* reading a property of [undefined] or [null]: base, property *)
}.

(** The entries of [localStorage] that [settingsService] reads, each
    absent or holding a value of its declared type, and
    [process.env.API_KEY]. *)
Record Settings : Type := mkSettings {
  apiModel : option string;
  customApiModel : option string;
  customApiKey : option string;
  highQualityArt : option bool;
  env_API_KEY : option string
}.

Record World : Type := mkWorld {
  settings : Settings;
  sessionStorage : gmap string string;
  (** whether [sessionStorage.setItem(key, value)] succeeds rather than
      throws, given what is stored *)
  storageAccepts : gmap string string -> string -> string -> bool;
  (** the answer to the [n]-th request *)
  backend : nat -> Request -> Reply;
  backendStream : nat -> Request -> StreamReply;
  (** the requests issued so far *)
  sent : list Request;
  engine : Engine
}.

Definition withStorage (w : World) (m : gmap string string) : World :=
  mkWorld (settings w) m (storageAccepts w) (backend w) (backendStream w)
          (sent w) (engine w).

Definition withSent (w : World) (l : list Request) : World :=
  mkWorld (settings w) (sessionStorage w) (storageAccepts w) (backend w)
          (backendStream w) l (engine w).

(** [services/cacheService.ts] *)
Module cache.

Definition PREFIX : string := "lexiconNexus_".

(** [get<T>(key)]; the result [null] is [JNull]. *)
Definition get (key : string) (w : World) : json :=
  match sessionStorage w !! (PREFIX +:+ key) with
  | None => JNull
  | Some item =>
      match JSON_parse item with
      | Some v => v
      | None => JNull
      end
  end.

(** [set<T>(key, value)]; a failing [setItem] is logged and swallowed. *)
Definition set (key : string) (value : json) (w : World) : World :=
  let item := JSON_stringify value in
  if storageAccepts w (sessionStorage w) (PREFIX +:+ key) item
  then withStorage w (<[PREFIX +:+ key := item]> (sessionStorage w))
  else w.

(** [clearAll()]: every entry whose key opens with the prefix goes. *)
Definition clearAll (w : World) : World :=
  withStorage w
    (filter (fun entry => startsWith (fst entry) PREFIX = false) (sessionStorage w)).

End cache.

(** [services/settingsService.ts] *)
Module settingsService.

Definition DEFAULT_MODEL_ID : string := "gemini-flash-latest".

(** [getSetting<T>(key, defaultValue)] over a typed entry. *)
Definition getSetting {T : Type} (entry : option T) (defaultValue : T) : T :=
  match entry with
  | Some v => v
  | None => defaultValue
  end.

(** [getApiKey()]; [None] is [null]. *)
Definition getApiKey (w : World) : option string :=
  let customKey := trim (getSetting (customApiKey (settings w)) EmptyString) in
  if negb (isEmpty customKey) then Some customKey
  else
    match env_API_KEY (settings w) with
    | Some k => if negb (isEmpty k) then Some k else None
    | None => None
    end.

(** [getActiveModelId()] *)
Definition getActiveModelId (w : World) : string :=
  let selectedModel := getSetting (apiModel (settings w)) DEFAULT_MODEL_ID in
  if String.eqb selectedModel "custom-model" then
    let customModelName :=
      trim (getSetting (customApiModel (settings w)) EmptyString) in
    if isEmpty customModelName then DEFAULT_MODEL_ID else customModelName
  else selectedModel.

End settingsService.

Definition MISSING_KEY_MESSAGE : string :=
  "API Key is not configured. Please add it in the settings panel.".

(** [getAiInstance()]: the client, represented by its key, or the error
    thrown. *)
Definition getAiInstance (w : World) : Error + string :=
  match settingsService.getApiKey w with
  | None => inl (mkError MISSING_KEY_MESSAGE)
  | Some apiKey => inr apiKey
  end.

(** [await ai.models.generateContent(request)] *)
Definition generateContent (request : Request) (w : World) : Reply * World :=
  (backend w (length (sent w)) request, withSent w (sent w ++ [request])).

(** [await ai.models.generateContentStream(request)] and the iteration
    over the response. *)
Definition generateContentStream (request : Request) (w : World)
  : StreamReply * World :=
  (backendStream w (length (sent w)) request, withSent w (sent w ++ [request])).

(** [response.text.trim()] followed by the fence repair and
    [JSON.parse]: the parsed value or what is thrown. *)
Definition readJson (w : World) (reply : Reply) : thrown + json :=
  match reply with
  | ReplyFailure error => inl error
  | ReplyText None =>
      inl (ThrownError (mkError (typeErrorMessage (engine w) "undefined" "trim")))
  | ReplyText (Some text) =>
      let jsonStr := stripFence text in
      match JSON_parse jsonStr with
      | None => inl (ThrownError (mkError (syntaxErrorMessage (engine w) jsonStr)))
      | Some parsed => inr parsed
      end
  end.

(* ================================================================== *)
(** ** [generateAncillaryData] *)
(* ================================================================== *)

(** [parsed.artData?.art]; [None] is [undefined], [inl] the [TypeError]
    of reading [artData] of [null]. *)
Definition artOf (w : World) (parsed : json) : thrown + option json :=
  match parsed with
  | JNull => inl (ThrownError (mkError (typeErrorMessage (engine w) "null" "artData")))
  | _ =>
      match getProp parsed "artData" with
      | None => inr None
      | Some JNull => inr None
      | Some artData => inr (getProp artData "art")
      end
  end.

(** [typeof art !== 'string' || art.trim().length === 0] *)
Definition invalidArt (art : option json) : bool :=
  match art with
  | Some (JString a) => isEmpty (trim a)
  | _ => true
  end.

Definition INVALID_ART_MESSAGE : string := "Invalid or empty ASCII art in response".

Definition ancillaryContext (topic : string) : string :=
  "generate ancillary data for " +:+ DQ +:+ topic +:+ DQ.

Definition ancillaryRequest (topic modelId : string) (w : World) : Request :=
  let enableThinking :=
    settingsService.getSetting (highQualityArt (settings w)) true in
  mkRequest false modelId (AncillaryPrompt topic)
            (if enableThinking then ThoughtTrue else ThinkingBudgetZero).

(** The body of the [try] block of [apiCall]. *)
Definition ancillaryTry (topic modelId cacheKey : string) (w : World)
  : (thrown + json) * World :=
  let '(reply, w1) := generateContent (ancillaryRequest topic modelId w) w in
  match readJson w1 reply with
  | inl error => (inl error, w1)
  | inr parsed =>
      match artOf w1 parsed with
      | inl error => (inl error, w1)
      | inr art =>
          if invalidArt art
          then (inl (ThrownError (mkError INVALID_ART_MESSAGE)), w1)
          else (inr parsed, cache.set cacheKey parsed w1)
      end
  end.

(** The closure [apiCall] of [generateAncillaryData]. *)
Definition ancillaryApiCall (topic modelId cacheKey : string) (w : World)
  : Outcome json * World :=
  match getAiInstance w with
  | inl e => (Rejected (ThrownError e), w)
  | inr _ =>
      match ancillaryTry topic modelId cacheKey w with
      | (inr parsed, w') => (Fulfilled parsed, w')
      | (inl error, w') =>
          (Rejected (ThrownError (handleGeminiError error (ancillaryContext topic))), w')
      end
  end.

(** [generateAncillaryData(topic, onRetry)] *)
Definition generateAncillaryData {U : Type} (topic : string)
  (onRetry : option (nat -> Z -> U -> U)) (w : World) (u : U)
  : Run json World U :=
  let modelId := settingsService.getActiveModelId w in
  let cacheKey := ancillaryKey modelId topic in
  let cachedData := cache.get cacheKey w in
  if truthy cachedData then mkRun (Fulfilled cachedData) w u []
  else geminiRequestWithRetry (ancillaryApiCall topic modelId cacheKey) onRetry w u.

(* ================================================================== *)
(** ** [generateDeepDive] *)
(* ================================================================== *)

Definition deepDiveContext (topic : string) : string :=
  "generate deep dive for " +:+ DQ +:+ topic +:+ DQ.

Definition deepDiveRequest (topic modelId : string) : Request :=
  mkRequest false modelId (DeepDivePrompt topic) ThinkingDefault.

(** The body of the [try] block of [apiCall]. *)
Definition deepDiveTry (topic modelId cacheKey : string) (w : World)
  : (thrown + json) * World :=
  let '(reply, w1) := generateContent (deepDiveRequest topic modelId) w in
  match readJson w1 reply with
  | inl error => (inl error, w1)
  | inr parsed => (inr parsed, cache.set cacheKey parsed w1)
  end.

(** The closure [apiCall] of [generateDeepDive]. *)
Definition deepDiveApiCall (topic modelId cacheKey : string) (w : World)
  : Outcome json * World :=
  match getAiInstance w with
  | inl e => (Rejected (ThrownError e), w)
  | inr _ =>
      match deepDiveTry topic modelId cacheKey w with
      | (inr parsed, w') => (Fulfilled parsed, w')
      | (inl error, w') =>
          (Rejected (ThrownError (handleGeminiError error (deepDiveContext topic))), w')
      end
  end.

(** [generateDeepDive(topic, onRetry)] *)
Definition generateDeepDive {U : Type} (topic : string)
  (onRetry : option (nat -> Z -> U -> U)) (w : World) (u : U)
  : Run json World U :=
  let modelId := settingsService.getActiveModelId w in
  let cacheKey := deepDiveKey modelId topic in
  let cachedData := cache.get cacheKey w in
  if truthy cachedData then mkRun (Fulfilled cachedData) w u []
  else geminiRequestWithRetry (deepDiveApiCall topic modelId cacheKey) onRetry w u.

(* ================================================================== *)
(** ** [streamDefinition] *)
(* ================================================================== *)

(** What the consumer of the generator sees when it iterates to the end:
    the chunks it is handed and, between them, the pauses of the
    generator.  A consumer that stops early sees a prefix. *)
Inductive StreamEvent : Type :=
| Yield (chunk : string)
| Pause (delay : Z).

(** The end of the iteration: [None] when the generator returns, the
    value it throws otherwise. *)
Record Stream : Type := mkStream {
  events : list StreamEvent;
  ending : option thrown;
  after : World
}.

Definition streamContext (topicOrQuery : string) : string :=
  "generate content for " +:+ DQ +:+ topicOrQuery +:+ DQ.

Definition RETRY_SENTINEL : string := "[SYSTEM:RETRY]".

(** [Math.round(delay / 1000)] for a delay that is not negative. *)
Definition roundSeconds (delay : Z) : Z := (delay + 500) / 1000.

Definition retryChunk (delay : Z) : string :=
  RETRY_SENTINEL +:+ "Rate limit exceeded. Retrying in "
    +:+ pretty (roundSeconds delay) +:+ "s...".

(** [if (chunk.text) yield chunk.text] over the chunks of one response. *)
Fixpoint forward (cs : list (option string)) : list StreamEvent :=
  match cs with
  | [] => []
  | Some text :: rest =>
      if isEmpty text then forward rest else Yield text :: forward rest
  | None :: rest => forward rest
  end.

Definition streamRequest (topicOrQuery : string)
  (file : option (string * string)) (modelId : string) : Request :=
  mkRequest true modelId
    (match file with
     | Some (data, mimeType) => DocumentQuestion mimeType data topicOrQuery
     | None => DefinitionPrompt topicOrQuery
     end)
    ThinkingBudgetZero.

(** The [for] loop of the generator; [remaining] is
    [MAX_RETRIES - attempt]. *)
Fixpoint streamLoop (remaining : nat) (topicOrQuery : string)
  (request : Request) (w : World) : Stream :=
  match remaining with
  | O => mkStream [] None w
  | S remaining' =>
      let attempt := (MAX_RETRIES - remaining)%nat in
      let '(response, w1) := generateContentStream request w in
      match failure response with
      | None => mkStream (forward (chunks response)) None w1
      | Some error =>
          let lastError := handleGeminiError error (streamContext topicOrQuery) in
          if isRetryable lastError && (attempt <? MAX_RETRIES - 1)%nat then
            let delay := backoffDelay attempt in
            let rest := streamLoop remaining' topicOrQuery request w1 in
            mkStream
              (forward (chunks response)
                 ++ Yield (retryChunk delay) :: Pause delay :: events rest)
              (ending rest) (after rest)
          else
            mkStream (forward (chunks response)) (Some (ThrownError lastError)) w1
      end
  end.

(** [streamDefinition(topicOrQuery, file)], iterated to its end. *)
Definition streamDefinition (topicOrQuery : string)
  (file : option (string * string)) (w : World) : Stream :=
  match getAiInstance w with
  | inl e => mkStream [] (Some (ThrownError e)) w
  | inr _ =>
      let modelId := settingsService.getActiveModelId w in
      streamLoop MAX_RETRIES topicOrQuery
                 (streamRequest topicOrQuery file modelId) w
  end.

(** The chunks a consumer is handed. *)
Definition yielded (evs : list StreamEvent) : list string :=
  flat_map (fun e => match e with Yield c => [c] | Pause _ => [] end) evs.

(** The text a consumer accumulates. *)
Definition accumulated (cs : list string) : string :=
  fold_right String.append EmptyString cs.

(* ================================================================== *)
(** ** Vocabulary of the statements *)
(* ================================================================== *)

(** [needle] occurs in [s]. *)
Definition Contains (s needle : string) : Prop :=
  exists before behind, s = before +:+ needle +:+ behind.

(** The capital letters, each with its small letter. *)
Definition letterPairs : list (ascii * ascii) :=
  combine (list_ascii_of_string "ABCDEFGHIJKLMNOPQRSTUVWXYZ")
          (list_ascii_of_string "abcdefghijklmnopqrstuvwxyz").

(** [folded] is the lowercased [s], as the specification words the topic
    of a cache key, for a text of ASCII characters: each capital letter
    gives way to its small letter and every other character stays. *)
Inductive LowerCased : string -> string -> Prop :=
| LowerCased_empty : LowerCased EmptyString EmptyString
| LowerCased_letter (c c' : ascii) (s s' : string) :
    In (c, c') letterPairs ->
    LowerCased s s' ->
    LowerCased (String c s) (String c' s')
| LowerCased_other (c : ascii) (s s' : string) :
    ~ In c (List.map fst letterPairs) ->
    LowerCased s s' ->
    LowerCased (String c s) (String c s').

(** Two texts are equal up to the case of their letters. *)
Definition SameUpToCase (a b : string) : Prop :=
  exists folded, LowerCased a folded /\ LowerCased b folded.

(** The non-empty text fragments of the chunks of a response, in the
    order of arrival. *)
Definition fragments (cs : list (option string)) : list string :=
  List.filter (fun t => negb (isEmpty t))
    (flat_map (fun c => match c with Some t => [t] | None => [] end) cs).

(** [parsed.artData.art] is a string that is not empty after trimming. *)
Definition HasArt (parsed : json) : Prop :=
  exists artData art,
    getProp parsed "artData" = Some artData
    /\ getProp artData "art" = Some (JString art)
    /\ isEmpty (trim art) = false.

(** The character [c] does not occur in [s]. *)
Definition lacksChar (c : ascii) (s : string) : bool :=
  allChars (fun x => negb (Ascii.eqb x c)) s.

(* ================================================================== *)
(** ** Sample inputs *)
(* ================================================================== *)

(** An operation over a call counter that fails with the same error at
    every call. *)
Definition alwaysFails (msg : string) (calls : nat) : Outcome unit * nat :=
  (Rejected (ThrownError (mkError msg)), S calls).

(** An observer that records its calls. *)
Definition recordRetry (attempt : nat) (delay : Z) (seen : list (nat * Z))
  : list (nat * Z) :=
  seen ++ [(attempt, delay)].

(** The engine of the sample runs.  ECMAScript leaves the text of these
    messages to the implementation; the statements below hold for every
    engine. *)
Definition sampleEngine : Engine :=
  mkEngine
    (fun _ => "Unexpected token in JSON")
    (fun base property =>
       "Cannot read properties of " +:+ base +:+ " (reading '" +:+ property +:+ "')").

Definition keyed : Settings := mkSettings None None (Some "k3y") None None.
Definition keyless : Settings := mkSettings None None None None None.

(** A world with an empty cache, a storage that accepts every write and
    the given backend. *)
Definition freshWorld (st : Settings) (answers : nat -> Reply)
  (streams : nat -> StreamReply) : World :=
  mkWorld st ∅ (fun _ _ _ => true) (fun n _ => answers n) (fun n _ => streams n)
          [] sampleEngine.

Definition noAnswer : nat -> Reply :=
  fun _ => ReplyFailure (ThrownError (mkError "Failed to fetch")).

Definition noStream : nat -> StreamReply :=
  fun _ => mkStreamReply [] (Some (ThrownError (mkError "Failed to fetch"))).

(** The stream of the specification's scenario. *)
Definition hypertextWorld : World :=
  freshWorld keyed noAnswer
    (fun _ => mkStreamReply [Some "Hyper"; Some "text is "; Some "a medium."] None).

(** A backend whose first stream fails for a reason that is no rate limit
    and whose second stream delivers one chunk. *)
Definition flakyWorld : World :=
  freshWorld keyed noAnswer
    (fun n => match n with
              | O => mkStreamReply [] (Some (ThrownError (mkError "Failed to fetch")))
              | _ => mkStreamReply [Some "A quota."] None
              end).

(** The payload of the specification's deep-dive scenario. *)
Definition entropyPayload : string :=
  "{" +:+ quote "summary" +:+ ":" +:+ quote "[[Entropy]] is disorder." +:+ ","
  +:+ quote "resources" +:+ ":[{"
  +:+ quote "title" +:+ ":" +:+ quote "X" +:+ ","
  +:+ quote "url" +:+ ":" +:+ quote "http://x" +:+ ","
  +:+ quote "description" +:+ ":" +:+ quote "y" +:+ "}]}".

Definition entropyWorld : World :=
  freshWorld keyed (fun _ => ReplyText (Some entropyPayload)) noStream.

(** A well-formed ancillary payload. *)
Definition hypertextPayload : string :=
  "{" +:+ quote "concepts" +:+ ":[" +:+ quote "HTML" +:+ "," +:+ quote "Hyperlink" +:+ "],"
  +:+ quote "artData" +:+ ":{" +:+ quote "art" +:+ ":" +:+ quote "o--o" +:+ "}}".


Definition emptyKeylessWorld : World := freshWorld keyless noAnswer noStream.

(** A backend that wraps the ancillary payload in a tagged fence. *)
Definition fencedWorld : World :=
  freshWorld keyed
    (fun _ => ReplyText (Some ("```json" +:+ LF +:+ hypertextPayload +:+ LF +:+ "```")))
    noStream.

(** Well-formed JSON whose art is blank: a space, a no-break space and
    an em space. *)
Definition blankArtPayload : string :=
  "{" +:+ quote "concepts" +:+ ":[" +:+ quote "HTML" +:+ "],"
  +:+ quote "artData" +:+ ":{" +:+ quote "art" +:+ ":"
  +:+ DQ +:+ " \u00a0\u2003" +:+ DQ +:+ "}}".

Definition blankArtWorld : World :=
  freshWorld keyed (fun _ => ReplyText (Some blankArtPayload)) noStream.

(** A backend that is out of quota at the first request and answers the
    second. *)
Definition throttledWorld : World :=
  freshWorld keyed
    (fun n => match n with
              | O => ReplyFailure (ThrownError (mkError "429 RESOURCE_EXHAUSTED"))
              | _ => ReplyText (Some hypertextPayload)
              end)
    noStream.

(* ================================================================== *)
(** * The callers of the service *)
(* ================================================================== *)

(* ================================================================== *)
(** ** [config/models.ts] *)
(* ================================================================== *)

Module models.

Record AiModel : Type := mkAiModel {
  id : string;
  name : string;
  description : string
}.

Definition MODELS : list AiModel :=
  [ mkAiModel "gemini-flash-latest" "Fast & Efficient"
      "Uses Gemini Flash for the quickest responses.";
    mkAiModel "gemini-2.5-pro" "Powerful & Advanced"
      "Uses Gemini 2.5 Pro for higher quality, but slower, results.";
    mkAiModel "custom-model" "Custom Model"
      "Enter the name of a custom Gemini model." ].

(** [MODELS[0].id] *)
Definition DEFAULT_MODEL_ID : string :=
  match MODELS with
  | m :: _ => id m
  | [] => "undefined"
  end.

End models.

(* ================================================================== *)
(** ** Writing the settings *)
(* ================================================================== *)

Definition withSettings (w : World) (s : Settings) : World :=
  mkWorld s (sessionStorage w) (storageAccepts w) (backend w) (backendStream w)
          (sent w) (engine w).

(** The four settings the application writes, each with a value of its
    type. *)
Inductive Entry : Type :=
| HighQualityArtEntry (value : bool)
| ApiModelEntry (value : string)
| CustomApiModelEntry (value : string)
| CustomApiKeyEntry (value : string).

Definition writeEntry (entry : Entry) (s : Settings) : Settings :=
  match entry with
  | HighQualityArtEntry v =>
      mkSettings (apiModel s) (customApiModel s) (customApiKey s) (Some v)
                 (env_API_KEY s)
  | ApiModelEntry v =>
      mkSettings (Some v) (customApiModel s) (customApiKey s) (highQualityArt s)
                 (env_API_KEY s)
  | CustomApiModelEntry v =>
      mkSettings (apiModel s) (Some v) (customApiKey s) (highQualityArt s)
                 (env_API_KEY s)
  | CustomApiKeyEntry v =>
      mkSettings (apiModel s) (customApiModel s) (Some v) (highQualityArt s)
                 (env_API_KEY s)
  end.

(** [settingsService.setSetting(key, value)]; [accepted] tells whether
    [localStorage.setItem] succeeds: a failure is logged and swallowed. *)
Definition setSetting (accepted : bool) (entry : Entry) (w : World) : World :=
  if accepted then withSettings w (writeEntry entry (settings w)) else w.

(* ================================================================== *)
(** ** [SettingsModal.tsx]: the settings panel *)
(* ================================================================== *)

(** [settingsService.getSetting<string>('customApiKey', '')] *)
Definition storedCustomApiKey (w : World) : string :=
  settingsService.getSetting (customApiKey (settings w)) EmptyString.

Module SettingsModal.

(** The state of the component. *)
Record State : Type := mkState {
  isHighQualityArt : bool;
  selectedModel : string;
  customModelName : string;
  customApiKey : string;
  clearCacheText : string
}.

(** The initial values of the [useState] calls. *)
Definition mount (w : World) : State :=
  mkState
    (settingsService.getSetting (highQualityArt (settings w)) true)
    (settingsService.getSetting (apiModel (settings w)) models.DEFAULT_MODEL_ID)
    (settingsService.getSetting (customApiModel (settings w)) EmptyString)
    (storedCustomApiKey w)
    "Clear Session Cache".

Definition handleToggleChange (accepted isChecked : bool) (st : State) (w : World)
  : State * World :=
  (mkState isChecked (selectedModel st) (customModelName st) (customApiKey st)
     (clearCacheText st),
   setSetting accepted (HighQualityArtEntry isChecked) w).

Definition handleModelChange (accepted : bool) (newModelId : string) (st : State)
  (w : World) : State * World :=
  (mkState (isHighQualityArt st) newModelId (customModelName st) (customApiKey st)
     (clearCacheText st),
   cache.clearAll (setSetting accepted (ApiModelEntry newModelId) w)).

Definition handleCustomModelNameChange (accepted : bool) (newName : string)
  (st : State) (w : World) : State * World :=
  let w1 := setSetting accepted (CustomApiModelEntry newName) w in
  (mkState (isHighQualityArt st) (selectedModel st) newName (customApiKey st)
     (clearCacheText st),
   if negb (isEmpty (trim newName)) then cache.clearAll w1 else w1).

Definition handleApiKeyChange (accepted : bool) (newKey : string) (st : State)
  (w : World) : State * World :=
  (mkState (isHighQualityArt st) (selectedModel st) (customModelName st) newKey
     (clearCacheText st),
   cache.clearAll (setSetting accepted (CustomApiKeyEntry newKey) w)).

(** [handleClearCache()] up to the start of its timer, whose callback
    restores the label 2000 milliseconds later. *)
Definition handleClearCache (st : State) (w : World) : State * World :=
  (mkState (isHighQualityArt st) (selectedModel st) (customModelName st)
     (customApiKey st) "Cache Cleared!",
   cache.clearAll w).

End SettingsModal.

(* ================================================================== *)
(** ** [App.tsx]: the page *)
(* ================================================================== *)

(** [s.repeat(n)] *)
Fixpoint repeatString (s : string) (n : nat) : string :=
  match n with
  | O => EmptyString
  | S n' => s +:+ repeatString s n'
  end.

(** [s.replace(pattern, replacement)] for a pattern that is a string: the
    first occurrence is replaced. *)
Fixpoint replaceFirst (s pattern replacement : string) : string :=
  match dropPrefix pattern s with
  | Some rest => replacement +:+ rest
  | None =>
      match s with
      | EmptyString => EmptyString
      | String c r => String c (replaceFirst r pattern replacement)
      end
  end.

Definition PREDEFINED_WORDS : list string :=
  [ "Balance"; "Harmony"; "Discord"; "Unity"; "Fragmentation"; "Clarity";
    "Ambiguity"; "Presence"; "Absence"; "Creation"; "Destruction"; "Light";
    "Shadow"; "Beginning"; "Ending"; "Rising"; "Falling"; "Connection";
    "Isolation"; "Hope"; "Despair";
    "Order and chaos"; "Light and shadow"; "Sound and silence";
    "Form and formlessness"; "Being and nonbeing"; "Presence and absence";
    "Motion and stillness"; "Unity and multiplicity"; "Finite and infinite";
    "Sacred and profane"; "Memory and forgetting"; "Question and answer";
    "Search and discovery"; "Journey and destination"; "Dream and reality";
    "Time and eternity"; "Self and other"; "Known and unknown";
    "Spoken and unspoken"; "Visible and invisible";
    "Zigzag"; "Waves"; "Spiral"; "Bounce"; "Slant"; "Drip"; "Stretch";
    "Squeeze"; "Float"; "Fall"; "Spin"; "Melt"; "Rise"; "Twist"; "Explode";
    "Stack"; "Mirror"; "Echo"; "Vibrate";
    "Gravity"; "Friction"; "Momentum"; "Inertia"; "Turbulence"; "Pressure";
    "Tension"; "Oscillate"; "Fractal"; "Quantum"; "Entropy"; "Vortex";
    "Resonance"; "Equilibrium"; "Centrifuge"; "Elastic"; "Viscous"; "Refract";
    "Diffuse"; "Cascade"; "Levitate"; "Magnetize"; "Polarize"; "Accelerate";
    "Compress"; "Undulate";
    "Liminal"; "Ephemeral"; "Paradox"; "Zeitgeist"; "Metamorphosis";
    "Synesthesia"; "Recursion"; "Emergence"; "Dialectic"; "Apophenia"; "Limbo";
    "Flux"; "Sublime"; "Uncanny"; "Palimpsest"; "Chimera"; "Void"; "Transcend";
    "Ineffable"; "Qualia"; "Gestalt"; "Simulacra"; "Abyssal";
    "Existential"; "Nihilism"; "Solipsism"; "Phenomenology"; "Hermeneutics";
    "Deconstruction"; "Postmodern"; "Absurdism"; "Catharsis"; "Epiphany";
    "Melancholy"; "Nostalgia"; "Longing"; "Reverie"; "Pathos"; "Ethos"; "Logos";
    "Mythos"; "Anamnesis"; "Intertextuality"; "Metafiction"; "Stream"; "Lacuna";
    "Caesura"; "Enjambment" ].

(** The elements of [new Set(l)] in insertion order, given the ones already
    in the set. *)
Fixpoint uniqueFrom (seen l : list string) : list string :=
  match l with
  | [] => []
  | x :: r =>
      if existsb (String.eqb x) seen then uniqueFrom seen r
      else x :: uniqueFrom (x :: seen) r
  end.

(** [[...new Set(PREDEFINED_WORDS)]] *)
Definition UNIQUE_WORDS : list string := uniqueFrom [] PREDEFINED_WORDS.

(** The text of the box [createFallbackArt] draws. *)
Definition fallbackBox (topic : string) : string :=
  let displayableTopic :=
    if (20 <? length16 topic)%nat
    then substring0 17 topic +:+ "..."
    else topic in
  let paddedTopic := " " +:+ displayableTopic +:+ " " in
  let topBorder := "+" +:+ repeatString "-" (length16 paddedTopic) +:+ "+" in
  let middle := "|" +:+ paddedTopic +:+ "|" in
  let bottomBorder := "+" +:+ repeatString "-" (length16 paddedTopic) +:+ "+" in
  topBorder +:+ LF +:+ middle +:+ LF +:+ bottomBorder.

(** [createFallbackArt(topic)]: the object [{ art }]. *)
Definition createFallbackArt (topic : string) : json :=
  JObject [("art", JString (fallbackBox topic))].

Record UploadedFile : Type := mkUploadedFile {
  file_name : string;
  file_data : string;
  file_mimeType : string
}.

(** The state of the [App] component that its data flow reads and writes;
    [None] stands for [null] and for [undefined]. *)
Record AppState : Type := mkAppState {
  currentTopic : string;
  content : json;
  isLoading : bool;
  error : option string;
  asciiArt : option json;
  generationTime : option Z;
  file : option UploadedFile;
  isApiConfigured : bool;
  relatedConcepts : option json;
  isAncillaryLoading : bool;
  ancillaryError : option string;
  deepDiveContent : option json;
  isDeepDiveLoading : bool;
  deepDiveError : option string
}.

Definition setCurrentTopic (v : string) (st : AppState) : AppState :=
  mkAppState v (content st) (isLoading st) (error st) (asciiArt st)
    (generationTime st) (file st) (isApiConfigured st) (relatedConcepts st)
    (isAncillaryLoading st) (ancillaryError st) (deepDiveContent st)
    (isDeepDiveLoading st) (deepDiveError st).

Definition setContent (v : json) (st : AppState) : AppState :=
  mkAppState (currentTopic st) v (isLoading st) (error st) (asciiArt st)
    (generationTime st) (file st) (isApiConfigured st) (relatedConcepts st)
    (isAncillaryLoading st) (ancillaryError st) (deepDiveContent st)
    (isDeepDiveLoading st) (deepDiveError st).

Definition setIsLoading (v : bool) (st : AppState) : AppState :=
  mkAppState (currentTopic st) (content st) v (error st) (asciiArt st)
    (generationTime st) (file st) (isApiConfigured st) (relatedConcepts st)
    (isAncillaryLoading st) (ancillaryError st) (deepDiveContent st)
    (isDeepDiveLoading st) (deepDiveError st).

Definition setError (v : option string) (st : AppState) : AppState :=
  mkAppState (currentTopic st) (content st) (isLoading st) v (asciiArt st)
    (generationTime st) (file st) (isApiConfigured st) (relatedConcepts st)
    (isAncillaryLoading st) (ancillaryError st) (deepDiveContent st)
    (isDeepDiveLoading st) (deepDiveError st).

Definition setAsciiArt (v : option json) (st : AppState) : AppState :=
  mkAppState (currentTopic st) (content st) (isLoading st) (error st) v
    (generationTime st) (file st) (isApiConfigured st) (relatedConcepts st)
    (isAncillaryLoading st) (ancillaryError st) (deepDiveContent st)
    (isDeepDiveLoading st) (deepDiveError st).

Definition setGenerationTime (v : option Z) (st : AppState) : AppState :=
  mkAppState (currentTopic st) (content st) (isLoading st) (error st)
    (asciiArt st) v (file st) (isApiConfigured st) (relatedConcepts st)
    (isAncillaryLoading st) (ancillaryError st) (deepDiveContent st)
    (isDeepDiveLoading st) (deepDiveError st).

Definition setFile (v : option UploadedFile) (st : AppState) : AppState :=
  mkAppState (currentTopic st) (content st) (isLoading st) (error st)
    (asciiArt st) (generationTime st) v (isApiConfigured st)
    (relatedConcepts st) (isAncillaryLoading st) (ancillaryError st)
    (deepDiveContent st) (isDeepDiveLoading st) (deepDiveError st).

Definition setIsApiConfigured (v : bool) (st : AppState) : AppState :=
  mkAppState (currentTopic st) (content st) (isLoading st) (error st)
    (asciiArt st) (generationTime st) (file st) v (relatedConcepts st)
    (isAncillaryLoading st) (ancillaryError st) (deepDiveContent st)
    (isDeepDiveLoading st) (deepDiveError st).

Definition setRelatedConcepts (v : option json) (st : AppState) : AppState :=
  mkAppState (currentTopic st) (content st) (isLoading st) (error st)
    (asciiArt st) (generationTime st) (file st) (isApiConfigured st) v
    (isAncillaryLoading st) (ancillaryError st) (deepDiveContent st)
    (isDeepDiveLoading st) (deepDiveError st).

Definition setIsAncillaryLoading (v : bool) (st : AppState) : AppState :=
  mkAppState (currentTopic st) (content st) (isLoading st) (error st)
    (asciiArt st) (generationTime st) (file st) (isApiConfigured st)
    (relatedConcepts st) v (ancillaryError st) (deepDiveContent st)
    (isDeepDiveLoading st) (deepDiveError st).

Definition setAncillaryError (v : option string) (st : AppState) : AppState :=
  mkAppState (currentTopic st) (content st) (isLoading st) (error st)
    (asciiArt st) (generationTime st) (file st) (isApiConfigured st)
    (relatedConcepts st) (isAncillaryLoading st) v (deepDiveContent st)
    (isDeepDiveLoading st) (deepDiveError st).

Definition setDeepDiveContent (v : option json) (st : AppState) : AppState :=
  mkAppState (currentTopic st) (content st) (isLoading st) (error st)
    (asciiArt st) (generationTime st) (file st) (isApiConfigured st)
    (relatedConcepts st) (isAncillaryLoading st) (ancillaryError st) v
    (isDeepDiveLoading st) (deepDiveError st).

Definition setIsDeepDiveLoading (v : bool) (st : AppState) : AppState :=
  mkAppState (currentTopic st) (content st) (isLoading st) (error st)
    (asciiArt st) (generationTime st) (file st) (isApiConfigured st)
    (relatedConcepts st) (isAncillaryLoading st) (ancillaryError st)
    (deepDiveContent st) v (deepDiveError st).

Definition setDeepDiveError (v : option string) (st : AppState) : AppState :=
  mkAppState (currentTopic st) (content st) (isLoading st) (error st)
    (asciiArt st) (generationTime st) (file st) (isApiConfigured st)
    (relatedConcepts st) (isAncillaryLoading st) (ancillaryError st)
    (deepDiveContent st) (isDeepDiveLoading st) v.

(** The state [App] mounts with. *)
Definition initialState : AppState :=
  mkAppState "Hypertext" (JString EmptyString) true None None None None true
    (Some (JArray [])) false None None false None.

(** [`definition_${modelId}_${currentTopic.toLowerCase()}`] *)
Definition definitionKey (modelId topic : string) : string :=
  cacheKeyOf "definition" modelId topic.

(** [e instanceof Error ? e.message : fallback] *)
Definition errorMessageOf (fallback : string) (e : thrown) : string :=
  match e with
  | ThrownError err => message err
  | ThrownOther _ => fallback
  end.

(** [if (text)] for a string that may be [null]. *)
Definition nonEmpty (text : option string) : bool :=
  match text with
  | Some t => negb (isEmpty t)
  | None => false
  end.

(** The body of the [for await] loop over the chunks of
    [streamDefinition], shared by [fetchTopicData] and [handleSearch]:
    a status chunk is shown as the error, any other chunk is appended to the
    text.  [staleError] is the [error] the enclosing render saw. *)
Definition showChunk (staleError : option string)
  (acc : string * AppState) (chunk : string) : string * AppState :=
  let '(accumulatedContent, st) := acc in
  if startsWith chunk "[SYSTEM:RETRY]" then
    (accumulatedContent,
     setError (Some (replaceFirst chunk "[SYSTEM:RETRY]" EmptyString)) st)
  else
    let st1 :=
      match staleError with
      | Some e => if startsWith e "Rate limit" then setError None st else st
      | None => st
      end in
    let accumulatedContent := accumulatedContent +:+ chunk in
    (accumulatedContent, setContent (JString accumulatedContent) st1).

Definition showChunks (staleError : option string) (chunks : list string)
  (st : AppState) : string * AppState :=
  fold_left (showChunk staleError) chunks (EmptyString, st).

(** Step 1 of [fetchTopicData]: the definition, from the cache or from
    the stream.  The result is [definitionError], the state and the
    world. *)
Definition fetchDefinition (staleError : option string) (st : AppState) (w : World)
  : option string * AppState * World :=
  let modelId := settingsService.getActiveModelId w in
  let definitionCacheKey := definitionKey modelId (currentTopic st) in
  let cachedDefinition := cache.get definitionCacheKey w in
  if truthy cachedDefinition then (None, setContent cachedDefinition st, w)
  else
    let stream := streamDefinition (currentTopic st) None w in
    let '(accumulatedContent, st1) :=
      showChunks staleError (yielded (events stream)) st in
    match ending stream with
    | None =>
        (None, st1,
         if isEmpty accumulatedContent then after stream
         else cache.set definitionCacheKey (JString accumulatedContent) (after stream))
    | Some e =>
        let errorMessage := errorMessageOf "An unknown error occurred" e in
        (Some errorMessage, setError (Some errorMessage) st1, after stream)
    end.

(** [`Rate limit reached. Retrying in ${delay / 1000}s...`] for a delay
    that is a whole number of seconds, as the delays of the wrapper are. *)
Definition retryNotice (delay : Z) : string :=
  "Rate limit reached. Retrying in " +:+ pretty (delay / 1000) +:+ "s...".

Definition onAncillaryRetry (attempt : nat) (delay : Z) (st : AppState) : AppState :=
  setAncillaryError (Some (retryNotice delay)) st.

(** [fetchTopicData()], run to its end without being cancelled.  [st0] is
    the state of the render that started the effect; [elapsed] is what
    [performance.now() - startTime] evaluates to. *)
Definition fetchTopicData (elapsed : Z) (st0 : AppState) (w : World)
  : AppState * World :=
  let st :=
    setAncillaryError None
      (setIsAncillaryLoading true
        (setIsDeepDiveLoading false
          (setDeepDiveError None
            (setDeepDiveContent None
              (setRelatedConcepts (Some (JArray []))
                (setGenerationTime None
                  (setAsciiArt None
                    (setContent (JString EmptyString)
                      (setError None (setIsLoading true st0)))))))))) in
  let '(definitionError, st1, w1) := fetchDefinition (error st0) st w in
  let st2 := setIsLoading false st1 in
  if nonEmpty definitionError then (setIsAncillaryLoading false st2, w1)
  else
    let st3 := setAncillaryError None (setGenerationTime (Some elapsed) st2) in
    let run :=
      generateAncillaryData (currentTopic st0) (Some onAncillaryRetry) w1 st3 in
    let st4 :=
      match outcome run with
      | Fulfilled data =>
          setRelatedConcepts (getProp data "concepts")
            (setAsciiArt (getProp data "artData")
              (setAncillaryError None (observed run)))
      | Rejected err =>
          setAsciiArt (Some (createFallbackArt (currentTopic st0)))
            (setAncillaryError
               (Some (errorMessageOf "Could not load art and concepts." err))
               (observed run))
      end in
    (setIsAncillaryLoading false st4, final run).

(** [handleRandom()]; [randomIndex] is what
    [Math.floor(Math.random() * UNIQUE_WORDS.length)] evaluates to, and
    [None] stands for the [TypeError] of reading [toLowerCase] of
    [undefined]. *)
Definition handleRandom (randomIndex : nat) (st : AppState) : option AppState :=
  if isLoading st || (match file st with Some _ => true | None => false end)
     || negb (isApiConfigured st)
  then Some st
  else
    let st1 :=
      setAsciiArt None
        (setContent (JString EmptyString) (setError None (setIsLoading true st))) in
    match nth_error UNIQUE_WORDS randomIndex with
    | None => None
    | Some randomWord =>
        if String.eqb (toLowerCase randomWord) (toLowerCase (currentTopic st)) then
          let nextIndex := ((randomIndex + 1) mod length UNIQUE_WORDS)%nat in
          match nth_error UNIQUE_WORDS nextIndex with
          | Some nextWord => Some (setCurrentTopic nextWord st1)
          | None => None
          end
        else Some (setCurrentTopic randomWord st1)
    end.

(* ================================================================== *)
(** ** [AsciiArtDisplay.tsx]: the art and its hotspots *)
(* ================================================================== *)

(** [s.split('\n')] *)
Fixpoint splitLines (s : string) : list string :=
  match s with
  | EmptyString => [EmptyString]
  | String c r =>
      if Ascii.eqb c "010" then EmptyString :: splitLines r
      else
        match splitLines r with
        | line :: lines => String c line :: lines
        | [] => [String c EmptyString]
        end
  end.

Module AsciiArtDisplay.

(** The coordinates are whole numbers, as the response schema declares. *)
Record Hotspot : Type := mkHotspot {
  char : string;
  x : Z;
  y : Z;
  concept : string
}.

Record AsciiArtData : Type := mkAsciiArtData {
  art : string;
  hotspots : option (list Hotspot)
}.

(** [`${y}-${x}`] *)
Definition spotKey (row column : Z) : string :=
  pretty row +:+ "-" +:+ pretty column.

(** The [hotspotMap] memo: a later hotspot replaces an earlier one of the
    same key. *)
Definition hotspotMap (artData : option AsciiArtData) : gmap string string :=
  match artData with
  | None => ∅
  | Some data =>
      match hotspots data with
      | None => ∅
      | Some spots =>
          fold_left (fun map spot => <[spotKey (y spot) (x spot) := concept spot]> map)
                    spots ∅
      end
  end.

(** What a line is rendered to: runs of plain text and interactive
    characters, each with its React key. *)
Inductive Node : Type :=
| TextNode (key : string) (text : string)
| HotspotNode (key : string) (character : string) (concept : string).

Definition flushText (key : string) (currentText : string) : list Node :=
  if isEmpty currentText then [] else [TextNode key currentText].

(** The [for] loop over the code units [line[x]] of a line, from column
    [column] on, with the text collected so far. *)
Fixpoint renderFrom (map : gmap string string) (row column : nat)
  (currentText : string) (rest : list string) : list Node :=
  match rest with
  | [] => flushText ("text-end-" +:+ pretty (Z.of_nat row)) currentText
  | c :: r =>
      let key := spotKey (Z.of_nat row) (Z.of_nat column) in
      match map !! key with
      | Some concept =>
          flushText
            ("text-" +:+ pretty (Z.of_nat row) +:+ "-"
             +:+ pretty (Z.of_nat column - Z.of_nat (length16 currentText)))
            currentText
          ++ HotspotNode ("hotspot-" +:+ key) c concept
             :: renderFrom map row (S column) EmptyString r
      | None => renderFrom map row (S column) (currentText +:+ c) r
      end
  end.

Fixpoint renderLines (map : gmap string string) (row : nat) (lines : list string)
  : list (list Node) :=
  match lines with
  | [] => []
  | line :: rest =>
      renderFrom map row 0 EmptyString (units line) :: renderLines map (S row) rest
  end.

(** [renderInteractiveArt()]: one list of nodes per line, each followed by
    a line feed on the page; [None] is [null]. *)
Definition renderInteractiveArt (artData : option AsciiArtData)
  : option (list (list Node)) :=
  match artData with
  | None => None
  | Some data => Some (renderLines (hotspotMap artData) 0 (splitLines (art data)))
  end.

(** The text of the nodes of a line. *)
Fixpoint lineText (nodes : list Node) : string :=
  match nodes with
  | [] => EmptyString
  | TextNode _ text :: rest => text +:+ lineText rest
  | HotspotNode _ c _ :: rest => c +:+ lineText rest
  end.

(** The text of the page: every line and its line feed. *)
Fixpoint pageText (lines : list (list Node)) : string :=
  match lines with
  | [] => EmptyString
  | nodes :: rest => lineText nodes +:+ LF +:+ pageText rest
  end.

(** The characters of a line, each with the concept it shows on hover. *)
Fixpoint marks (nodes : list Node) : list (string * option string) :=
  match nodes with
  | [] => []
  | TextNode _ text :: rest =>
      List.map (fun c => (c, None)) (units text) ++ marks rest
  | HotspotNode _ c concept :: rest => (c, Some concept) :: marks rest
  end.

(** The concept of the last hotspot at the given coordinates. *)
Fixpoint lastConceptAt (row column : Z) (spots : list Hotspot) : option string :=
  match spots with
  | [] => None
  | spot :: rest =>
      match lastConceptAt row column rest with
      | Some c => Some c
      | None =>
          if (y spot =? row) && (x spot =? column) then Some (concept spot) else None
      end
  end.

(** The art of the prompt's example with two hotspots on one character. *)
Definition sampleArt : AsciiArtData :=
  mkAsciiArtData ("o--o" +:+ LF +:+ "|  |")
    (Some [mkHotspot "o" 3 0 "HTML"; mkHotspot "|" 0 1 "Link";
           mkHotspot "o" 3 0 "Hyperlink"; mkHotspot "x" (-1) 0 "Nowhere"]).

(** A corner, a bar and a corner of the prompt's palette of box
    characters, with a hotspot on the second corner. *)
Definition cornerArt : AsciiArtData :=
  mkAsciiArtData (utf8 0x250C +:+ utf8 0x2500 +:+ utf8 0x2510)
    (Some [mkHotspot (utf8 0x2510) 2 0 "Corner"]).

End AsciiArtDisplay.

(* ================================================================== *)
(** ** [DeepDiveDisplay.tsx]: the parts of the summary *)
(* ================================================================== *)

(** The characters [.] does not match: LF, CR, the line separator and
    the paragraph separator. *)
Definition lineTerminators : list string :=
  List.map utf8 [0x000A; 0x000D; 0x2028; 0x2029]%N.

(** [s] opens with a line terminator. *)
Definition opensLine (s : string) : bool :=
  existsb (startsWith s) lineTerminators.

(** [.*?\]\]]: the shortest text without a line terminator that is
    followed by two closing brackets; the text and what follows the
    brackets. *)
Fixpoint closeMarker (s : string) : option (string * string) :=
  match dropPrefix "]]" s with
  | Some rest => Some (EmptyString, rest)
  | None =>
      match s with
      | EmptyString => None
      | String c r =>
          if opensLine s then None
          else
            match closeMarker r with
            | Some (inner, rest) => Some (String c inner, rest)
            | None => None
            end
      end
  end.

(** One match of [/(\[\[.*?\]\]|\s+|\n+)/] at the start of [s]: the text
    matched, which is also the captured group, and the rest.  The second
    alternative takes all the white space [s] opens with; the third is
    never reached, a line feed being white space. *)
Definition separatorAt (s : string) : option (string * string) :=
  match
    match dropPrefix "[[" s with
    | Some r => closeMarker r
    | None => None
    end
  with
  | Some (inner, rest) => Some ("[[" +:+ inner +:+ "]]", rest)
  | None =>
      let rest := trimStart s in
      let space := String.substring 0 (String.length s - String.length rest) s in
      if isEmpty space then None else Some (space, rest)
  end.

(** [s.split(separator)] for this separator: the pieces between the
    matches and the matches themselves, in order.  [piece] is the text
    since the last match; [fuel] bounds the number of steps. *)
Fixpoint splitFrom (fuel : nat) (piece s : string) : list string :=
  match fuel with
  | O => [piece +:+ s]
  | S fuel' =>
      match s with
      | EmptyString => [piece]
      | String c r =>
          match separatorAt s with
          | Some (separator, rest) =>
              piece :: separator :: splitFrom fuel' EmptyString rest
          | None => splitFrom fuel' (piece +:+ String c EmptyString) r
          end
      end
  end.

(** The [summaryParts] memo; [None] is a [data] that is [null] or has no
    [summary]. *)
Definition summaryParts (summary : option string) : list string :=
  match summary with
  | None => []
  | Some s =>
      if isEmpty s then []
      else List.filter (fun part => negb (isEmpty part))
             (splitFrom (S (String.length s)) EmptyString s)
  end.

(** [s.endsWith(suffix)] *)
Fixpoint endsWith (s suffix : string) : bool :=
  String.eqb s suffix
  || match s with
     | EmptyString => false
     | String _ r => endsWith r suffix
     end.

(** What a part is revealed as. *)
Inductive PartNode : Type :=
| KeywordButton (keyword : string)     (* calls [onWordClick(keyword)] *)
| Paragraph                            (* an empty [<p>] *)
| TextSpan (text : string).

(** The node the interval callback builds for a part; [part.slice(2, -2)]
    is the part without its first two and last two characters. *)
Definition partNode (part : string) : PartNode :=
  if startsWith part "[[" && endsWith part "]]" then
    KeywordButton (String.substring 2 (String.length part - 4) part)
  else if includes part LF then Paragraph
  else TextSpan part.

(* ================================================================== *)
(** ** Vocabulary of the further statements *)
(* ================================================================== *)

(** The events of a run of the wrapper that retried [k] times: each failed
    attempt is followed by the call of the observer, when there is one,
    and by the sleep. *)
Definition retrySchedule (told : bool) (k : nat) : list RetryEvent :=
  flat_map
    (fun i => Attempt
              :: (if told then [Notify (i + 1) (backoffDelay i)] else [])
              ++ [Sleep (backoffDelay i)])
    (seq 0 k)
  ++ [Attempt].

(** The time a run spends asleep, in milliseconds. *)
Definition slept (evs : list RetryEvent) : Z :=
  fold_right (fun e acc => match e with Sleep d => d + acc | _ => acc end) 0 evs.

(** The pauses of the generator, in order. *)
Definition pauses (evs : list StreamEvent) : list Z :=
  flat_map (fun e => match e with Pause d => [d] | Yield _ => [] end) evs.

(** The three kinds of message an error of the service carries: the
    missing key, the rate limit, or a failure of the named action with its
    detail. *)
Definition ServiceMessage (context m : string) : Prop :=
  m = MISSING_KEY_MESSAGE
  \/ m = RATE_LIMIT_MESSAGE
  \/ exists detail, m = "Could not " +:+ context +:+ ". " +:+ detail.

(** [typeof v === 'object' && v !== null] *)
Definition isObject (v : json) : bool :=
  match v with
  | JArray _ | JObject _ => true
  | _ => false
  end.

(** A whole number written the way [JSON.stringify] writes it, short
    enough to be exact as a double: at most fifteen digits, no leading
    zero, no fraction, no exponent, and not [-0]. *)
Definition safeInteger (literal : string) : bool :=
  let digits := match literal with
                | EmptyString => literal
                | String c r => if Ascii.eqb c "-" then r else literal
                end in
  allChars isDigit digits
  && negb (isEmpty digits)
  && (String.length digits <=? 15)%nat
  && (negb (startsWith digits "0") || String.eqb digits "0")
  && negb (String.eqb literal "-0").

(** Every number in the value is such a whole number. *)
Fixpoint safeNumbers (v : json) : bool :=
  match v with
  | JNumber literal => safeInteger literal
  | JArray items => forallb safeNumbers items
  | JObject members => forallb (fun m => safeNumbers (snd m)) members
  | _ => true
  end.

(** The text the page accumulates from the chunks it is handed: the
    status chunks are left out. *)
Definition shownText (chunks : list string) : string :=
  accumulated
    (List.filter (fun c => negb (startsWith c "[SYSTEM:RETRY]")) chunks).


(** One operation of the application on the world, [cacheService.clearAll]
    apart: a call of [generateAncillaryData] or of [generateDeepDive] for
    any topic, a run of [streamDefinition], the write of a definition to
    the cache, or the write of a setting. *)
Inductive Step : World -> World -> Prop :=
| StepAncillary {U : Type} (topic : string) (onRetry : option (nat -> Z -> U -> U))
    (u : U) (w : World) :
    Step w (final (generateAncillaryData topic onRetry w u))
| StepDeepDive {U : Type} (topic : string) (onRetry : option (nat -> Z -> U -> U))
    (u : U) (w : World) :
    Step w (final (generateDeepDive topic onRetry w u))
| StepStream (topicOrQuery : string) (file : option (string * string)) (w : World) :
    Step w (after (streamDefinition topicOrQuery file w))
| StepDefinition (modelId topic text : string) (w : World) :
    Step w (cache.set (definitionKey modelId topic) (JString text) w)
| StepSetting (accepted : bool) (entry : Entry) (w : World) :
    Step w (setSetting accepted entry w).

(** No line terminator opens anywhere in [s]. *)
Fixpoint oneLine (s : string) : bool :=
  match s with
  | EmptyString => true
  | String _ r => negb (opensLine s) && oneLine r
  end.

(** The three kinds of part: a marker around a keyword, a run of white
    space, a run of text without white space; each with the node it is
    revealed as. *)
Inductive PartShape (part : string) : Prop :=
| MarkerPart (keyword : string) :
    part = "[[" +:+ keyword +:+ "]]" ->
    oneLine keyword = true ->
    partNode part = KeywordButton keyword ->
    PartShape part
| SpacePart :
    isEmpty part = false ->
    blank part = true ->
    partNode part = (if includes part LF then Paragraph else TextSpan part) ->
    PartShape part
| TextPart :
    isEmpty part = false ->
    spaceless part = true ->
    partNode part = TextSpan part ->
    PartShape part.

(* ================================================================== *)
(** ** Further sample inputs *)
(* ================================================================== *)


(** A backend whose first stream breaks off with a quota error after one
    chunk and whose second stream is complete. *)
Definition stutterWorld : World :=
  freshWorld keyed noAnswer
    (fun n => match n with
              | O => mkStreamReply [Some "Hyper"]
                       (Some (ThrownError (mkError "429 RESOURCE_EXHAUSTED")))
              | _ => mkStreamReply [Some "Hypertext is "; Some "a medium."] None
              end).

(** A backend that is out of quota for good. *)
Definition exhaustedWorld : World :=
  freshWorld keyed
    (fun _ => ReplyFailure (ThrownError (mkError "429 RESOURCE_EXHAUSTED")))
    (fun _ => mkStreamReply []
                (Some (ThrownError (mkError "429 RESOURCE_EXHAUSTED")))).

(** A backend that cannot be reached. *)
Definition offlineWorld : World := freshWorld keyed noAnswer noStream.

(** A backend whose answer to every request is the JSON text [null]. *)
Definition nullWorld : World :=
  freshWorld keyed (fun _ => ReplyText (Some "null")) noStream.

(** A backend that answers with a fence around nothing. *)
Definition emptyFenceWorld : World :=
  freshWorld keyed (fun _ => ReplyText (Some ("```json" +:+ LF +:+ "```"))) noStream.



(** A backend that fails in a way that is no rate limit. *)
Definition brokenWorld : World :=
  freshWorld keyed (fun _ => ReplyFailure (ThrownOther "[object Object]")) noStream.

(** An ancillary result with one hotspot. *)
Definition hotspotValue : json :=
  JObject [("concepts", JArray [JString "HTML"]);
           ("artData",
            JObject [("art", JString "o--o");
                     ("hotspots",
                      JArray [JObject [("char", JString "o"); ("x", JNumber "3");
                                       ("y", JNumber "0"); ("concept", JString "HTML")]])])].

(** A storage that is full. *)
Definition fullWorld : World :=
  mkWorld keyed ∅ (fun _ _ _ => false) (fun n _ => noAnswer n) (fun n _ => noStream n)
          [] sampleEngine.

(** A session storage that another application shares. *)
Definition sharedWorld : World :=
  mkWorld keyed
    (<[cache.PREFIX +:+ "definition_gemini-flash-latest_hypertext" := quote "A medium."]>
       (<["theme" := "dark"]> ∅))
    (fun _ _ _ => true) (fun n _ => noAnswer n) (fun n _ => noStream n) []
    sampleEngine.

(** Settings with a custom key that is padded, and a key in the
    environment. *)
Definition paddedKeySettings : Settings :=
  mkSettings None None (Some "  k3y ") None (Some "env-key").

(** Settings that select the custom model and name it, with padding. *)
Definition customModelSettings : Settings :=
  mkSettings (Some "custom-model") (Some " gemini-exp ") (Some "k3y") None None.

(** A state in which the page is idle on a topic. *)
Definition idleOn (topic : string) : AppState :=
  setIsLoading false (setCurrentTopic topic initialState).

(** A backend that streams a definition and then refuses the ancillary
    request for a reason that is no rate limit. *)
Definition artlessWorld : World :=
  freshWorld keyed noAnswer
    (fun _ => mkStreamReply [Some "Hypertext is "; Some "a medium."] None).

(* ================================================================== *)
(** * Properties *)
(* ================================================================== *)


(** ** Strings *)

Lemma append_cons (x : ascii) (a b : string) :
  String x a +:+ b = String x (a +:+ b).
Proof. reflexivity. Qed.

Lemma append_empty_l (a : string) : EmptyString +:+ a = a.
Proof. reflexivity. Qed.

Lemma append_assoc (a b c : string) : (a +:+ b) +:+ c = a +:+ b +:+ c.
Proof.
  induction a as [|x a IH]; [reflexivity |].
  now rewrite !append_cons, IH.
Qed.

Lemma append_empty_r (a : string) : a +:+ EmptyString = a.
Proof.
  induction a as [|x a IH]; [reflexivity |].
  now rewrite append_cons, IH.
Qed.

Lemma startsWith_spec (s p : string) :
  startsWith s p = true <-> exists behind, s = p +:+ behind.
Proof.
  revert s; induction p as [|a p IH]; intros s; simpl.
  - split; [intros _; now exists s | reflexivity].
  - destruct s as [|b s].
    + split; [discriminate | intros [r Hr]; discriminate].
    + destruct (Ascii.eqb_spec a b) as [->|Hne].
      * rewrite IH. split; intros [r Hr]; exists r.
        -- now rewrite append_cons, Hr.
        -- rewrite append_cons in Hr. congruence.
      * split; [discriminate | intros [r Hr]].
        rewrite append_cons in Hr. congruence.
Qed.

Lemma includes_spec (s needle : string) :
  includes s needle = true <-> Contains s needle.
Proof.
  unfold Contains. induction s as [|c s IH].
  - simpl. rewrite orb_false_r, startsWith_spec. split.
    + intros [r Hr]. now exists EmptyString, r.
    + intros [[|x a] [b Hb]]; [now exists b | discriminate].
  - cbn [includes]. rewrite orb_true_iff, startsWith_spec, IH. split.
    + intros [[r Hr] | (a & b & Hab)].
      * now exists EmptyString, r.
      * exists (String c a), b. now rewrite append_cons, Hab.
    + intros ([|x a] & b & Hab).
      * left. now exists b.
      * right. exists a, b. rewrite append_cons in Hab. congruence.
Qed.

Lemma Contains_trans (s m n : string) :
  Contains s m -> Contains m n -> Contains s n.
Proof.
  intros (a & b & ->) (c & d & ->). exists (a +:+ c), (d +:+ b).
  now rewrite !append_assoc.
Qed.

Lemma includes_false_spec (s needle : string) :
  includes s needle = false <-> ~ Contains s needle.
Proof.
  rewrite <- includes_spec. destruct (includes s needle); split; congruence.
Qed.

(** A message without the phrase "rate limit" is not retryable. *)
Lemma isRetryable_needs_marker (e : Error) :
  isRetryable e = true -> Contains (message e) "rate limit".
Proof.
  unfold isRetryable. rewrite includes_spec. intros H.
  apply (Contains_trans _ _ _ H). now exists "API ", " exceeded".
Qed.

Lemma hasRateLimitMarker_spec (msg : string) :
  hasRateLimitMarker msg = true <->
  Contains msg "RESOURCE_EXHAUSTED"
  \/ Contains msg (DQ +:+ "code" +:+ DQ +:+ ":429")
  \/ Contains msg "rate limit".
Proof.
  unfold hasRateLimitMarker. rewrite !orb_true_iff, !includes_spec. tauto.
Qed.

(** The normalised rate-limit error is what both retry loops look for. *)
Lemma rate_limit_error_retryable (error : thrown) (context : string) :
  hasRateLimitMarker (messageOf error) = true ->
  isRetryable (handleGeminiError error context) = true.
Proof. intros H. unfold handleGeminiError. now rewrite H. Qed.

(** ** The classifier *)

(** C3.  For every thrown value and context, with [messageOf error] the
    message the classifier reads (the [message] of an [Error] instance, the
    text "An unknown error occurred." for any other thrown value),
    [handleGeminiError] returns the fixed rate-limit message if and only if
    that message contains "RESOURCE_EXHAUSTED", the text ["code":429] or
    "rate limit"; in every other case the message of the result is exactly
    "Could not {context}. {message}".  The classifier is a total function:
    it returns an [Error] for every input and throws nothing. *)
Theorem handleGeminiError_classifies (error : thrown) (context : string) :
  (message (handleGeminiError error context) = RATE_LIMIT_MESSAGE <->
     Contains (messageOf error) "RESOURCE_EXHAUSTED"
     \/ Contains (messageOf error) (DQ +:+ "code" +:+ DQ +:+ ":429")
     \/ Contains (messageOf error) "rate limit")
  /\ (message (handleGeminiError error context) <> RATE_LIMIT_MESSAGE ->
      message (handleGeminiError error context)
      = "Could not " +:+ context +:+ ". " +:+ messageOf error).
Proof.
  rewrite <- hasRateLimitMarker_spec. unfold handleGeminiError.
  destruct (hasRateLimitMarker (messageOf error)); simpl; split.
  - tauto.
  - intros H. now contradiction H.
  - split; discriminate.
  - reflexivity.
Qed.

Lemma handleGeminiError_classifies_witness :
  let e := handleGeminiError (ThrownError (mkError "fetch failed")) "generate content" in
  message e <> RATE_LIMIT_MESSAGE /\
  message e = "Could not generate content. fetch failed".
Proof.
  assert (H : message (handleGeminiError (ThrownError (mkError "fetch failed"))
                         "generate content") <> RATE_LIMIT_MESSAGE)
    by (vm_compute; discriminate).
  split; [exact H |].
  exact (proj2 (handleGeminiError_classifies
                  (ThrownError (mkError "fetch failed")) "generate content") H).
Defined.

(** ** The retry wrapper *)

Section RetryProperties.
Context {T S U : Type}.
Variable requestFn : S -> Outcome T * S.
Variable onRetry : option (nat -> Z -> U -> U).

(** C1.  When every call of the operation throws an error that the wrapper
    takes for a rate limit (its message contains "API rate limit
    exceeded"), the wrapper calls the operation three times, each on the
    state the previous call left, calls [onRetry], when there is one, twice,
    with (1, 2000) and then (2, 4000), each time before the sleep of that
    length, and rejects with the error of the third call. *)
Theorem retry_exhausts_on_rate_limit (s : S) (u : U) :
  (forall s0, exists e s1,
      requestFn s0 = (Rejected e, s1) /\ isRetryable (toError e) = true) ->
  exists e1 s1 e2 s2 e3 s3,
    requestFn s = (Rejected e1, s1) /\
    requestFn s1 = (Rejected e2, s2) /\
    requestFn s2 = (Rejected e3, s3) /\
    let run := geminiRequestWithRetry requestFn onRetry s u in
    outcome run = Rejected (ThrownError (toError e3)) /\
    final run = s3 /\
    attempts (trace run) = 3%nat /\
    notifications (trace run) =
      match onRetry with
      | Some _ => [(1%nat, 2000); (2%nat, 4000)]
      | None => []
      end /\
    trace run =
      match onRetry with
      | Some _ => [Attempt; Notify 1 2000; Sleep 2000;
                   Attempt; Notify 2 4000; Sleep 4000; Attempt]
      | None => [Attempt; Sleep 2000; Attempt; Sleep 4000; Attempt]
      end /\
    observed run =
      match onRetry with
      | Some f => f 2%nat 4000 (f 1%nat 2000 u)
      | None => u
      end.
Proof.
  intros Hfail.
  destruct (Hfail s) as (e1 & s1 & H1 & R1).
  destruct (Hfail s1) as (e2 & s2 & H2 & R2).
  destruct (Hfail s2) as (e3 & s3 & H3 & R3).
  exists e1, s1, e2, s2, e3, s3. do 3 (split; [assumption |]).
  assert (Hrun : geminiRequestWithRetry requestFn onRetry s u
                 = mkRun (Rejected (ThrownError (toError e3))) s3
                     (match onRetry with
                      | Some f => f 2%nat 4000 (f 1%nat 2000 u)
                      | None => u
                      end)
                     (match onRetry with
                      | Some _ => [Attempt; Notify 1 2000; Sleep 2000;
                                   Attempt; Notify 2 4000; Sleep 4000; Attempt]
                      | None => [Attempt; Sleep 2000; Attempt; Sleep 4000; Attempt]
                      end)).
  { unfold geminiRequestWithRetry, MAX_RETRIES; simpl.
    rewrite H1, R1; simpl. rewrite H2, R2; simpl. rewrite H3, R3; simpl.
    unfold notify; destruct onRetry; reflexivity. }
  intros run. subst run. rewrite Hrun. simpl.
  repeat split; destruct onRetry; reflexivity.
Qed.

(** One failed call that is not retryable ends the run. *)
Lemma retry_fatal_first_call (s s1 : S) (u : U) (e : thrown) :
  requestFn s = (Rejected e, s1) ->
  isRetryable (toError e) = false ->
  geminiRequestWithRetry requestFn onRetry s u
  = mkRun (Rejected (ThrownError (toError e))) s1 u [Attempt].
Proof.
  intros Hcall Hfatal. unfold geminiRequestWithRetry, MAX_RETRIES.
  cbn [retryLoop]. rewrite Hcall, Hfatal. reflexivity.
Qed.

(** C2.  When the first call of the operation throws an error the wrapper
    does not take for a rate limit, the wrapper has called the operation
    once, has called [onRetry] and slept not at all, and rejects with that
    error (wrapped in an [Error] when it is not one); no value is
    returned. *)
Theorem retry_rethrows_fatal (s s1 : S) (u : U) (e : thrown) :
  requestFn s = (Rejected e, s1) ->
  isRetryable (toError e) = false ->
  geminiRequestWithRetry requestFn onRetry s u
  = mkRun (Rejected (ThrownError (toError e))) s1 u [Attempt].
Proof.
  intros H1 R1. unfold geminiRequestWithRetry, MAX_RETRIES; simpl.
  rewrite H1, R1. reflexivity.
Qed.

(** An error without the phrase "rate limit" is never retried. *)
Lemma retry_rethrows_unmarked (s s1 : S) (u : U) (e : thrown) :
  requestFn s = (Rejected e, s1) ->
  includes (message (toError e)) "rate limit" = false ->
  geminiRequestWithRetry requestFn onRetry s u
  = mkRun (Rejected (ThrownError (toError e))) s1 u [Attempt].
Proof.
  intros Hcall Hplain. apply retry_fatal_first_call; [exact Hcall |].
  destruct (isRetryable (toError e)) eqn:Hretry; [| reflexivity].
  apply isRetryable_needs_marker, includes_spec in Hretry. congruence.
Qed.

(** Three retryable failures in a row use up the attempts. *)
Lemma retry_three_failures (s s1 s2 s3 : S) (u : U) (e1 e2 e3 : thrown) :
  requestFn s = (Rejected e1, s1) -> isRetryable (toError e1) = true ->
  requestFn s1 = (Rejected e2, s2) -> isRetryable (toError e2) = true ->
  requestFn s2 = (Rejected e3, s3) ->
  geminiRequestWithRetry requestFn onRetry s u
  = mkRun (Rejected (ThrownError (toError e3))) s3
      (fst (notify onRetry 2 4000 (fst (notify onRetry 1 2000 u))))
      (Attempt :: snd (notify onRetry 1 2000 u) ++ Sleep 2000
         :: Attempt :: snd (notify onRetry 2 4000 (fst (notify onRetry 1 2000 u)))
         ++ [Sleep 4000; Attempt]).
Proof.
  intros H1 R1 H2 R2 H3. unfold geminiRequestWithRetry, MAX_RETRIES.
  cbn [retryLoop]. rewrite H1, R1. cbn. rewrite H2, R2. cbn. rewrite H3.
  rewrite andb_false_r. unfold notify. destruct onRetry; reflexivity.
Qed.


End RetryProperties.

(** The wrapper leaves the classification to the operation: an error that
    carries a backend marker but was not normalised is not retried. *)
Lemma retry_ignores_raw_marker :
  geminiRequestWithRetry (alwaysFails "429 RESOURCE_EXHAUSTED")
    (Some recordRetry) 0%nat []
  = mkRun (Rejected (ThrownError (mkError "429 RESOURCE_EXHAUSTED"))) 1%nat []
      [Attempt].
Proof. reflexivity. Qed.

Lemma retry_exhausts_on_rate_limit_witness :
  (forall s0, exists e s1,
      alwaysFails RATE_LIMIT_MESSAGE s0 = (Rejected e, s1)
      /\ isRetryable (toError e) = true) /\
  exists e1 s1 e2 s2 e3 s3,
    alwaysFails RATE_LIMIT_MESSAGE 0%nat = (Rejected e1, s1) /\
    alwaysFails RATE_LIMIT_MESSAGE s1 = (Rejected e2, s2) /\
    alwaysFails RATE_LIMIT_MESSAGE s2 = (Rejected e3, s3) /\
    let run := geminiRequestWithRetry (alwaysFails RATE_LIMIT_MESSAGE)
                 (Some recordRetry) 0%nat [] in
    outcome run = Rejected (ThrownError (toError e3)) /\
    final run = s3 /\
    attempts (trace run) = 3%nat /\
    notifications (trace run) = [(1%nat, 2000); (2%nat, 4000)] /\
    trace run = [Attempt; Notify 1 2000; Sleep 2000;
                 Attempt; Notify 2 4000; Sleep 4000; Attempt] /\
    observed run = recordRetry 2%nat 4000 (recordRetry 1%nat 2000 []).
Proof.
  assert (H : forall s0, exists e s1,
             alwaysFails RATE_LIMIT_MESSAGE s0 = (Rejected e, s1)
             /\ isRetryable (toError e) = true).
  { intros s0. eexists _, _. split; reflexivity. }
  split; [exact H |].
  exact (retry_exhausts_on_rate_limit (alwaysFails RATE_LIMIT_MESSAGE)
           (Some recordRetry) 0%nat [] H).
Defined.

Lemma retry_rethrows_fatal_witness :
  alwaysFails "Could not generate deep dive. Failed to fetch" 0%nat
  = (Rejected (ThrownError (mkError "Could not generate deep dive. Failed to fetch")),
     1%nat) /\
  geminiRequestWithRetry (alwaysFails "Could not generate deep dive. Failed to fetch")
    (Some recordRetry) 0%nat []
  = mkRun (Rejected (ThrownError (mkError "Could not generate deep dive. Failed to fetch")))
      1%nat [] [Attempt].
Proof.
  split; [reflexivity |].
  exact (retry_rethrows_fatal
           (alwaysFails "Could not generate deep dive. Failed to fetch")
           (Some recordRetry) 0%nat 1%nat []
           (ThrownError (mkError "Could not generate deep dive. Failed to fetch"))
           eq_refl eq_refl).
Defined.

(** ** Cache keys *)

Lemma toLowerCase_idempotent (s : string) :
  toLowerCase (toLowerCase s) = toLowerCase s.
Proof.
  induction s as [|c s IH]; [reflexivity |]. simpl. rewrite IH. f_equal.
  destruct c as [[] [] [] [] [] [] [] []]; reflexivity.
Qed.

Lemma lowerChar_spec (c : ascii) :
  In (c, lowerChar c) letterPairs
  \/ (lowerChar c = c /\ ~ In c (List.map fst letterPairs)).
Proof.
  destruct c as [[] [] [] [] [] [] [] []];
    first
      [ solve [left; vm_compute; repeat (first [left; reflexivity | right])]
      | right; split; [reflexivity |];
        vm_compute; intros H;
        repeat (destruct H as [H | H]; [discriminate H |]); exact H ].
Qed.

(** [toLowerCase] lowercases as the specification words it. *)
Lemma toLowerCase_LowerCased (s : string) : LowerCased s (toLowerCase s).
Proof.
  induction s as [|c s IH]; [constructor |]. cbn [toLowerCase].
  destruct (lowerChar_spec c) as [Hin | [Heq Hnot]].
  - now apply LowerCased_letter.
  - rewrite Heq. now apply LowerCased_other.
Qed.

Lemma LowerCased_fun (s folded : string) :
  LowerCased s folded -> folded = toLowerCase s.
Proof.
  induction 1 as [| c c' s s' Hin _ IH | c s s' Hnot _ IH]; cbn [toLowerCase].
  - reflexivity.
  - rewrite IH. f_equal. vm_compute in Hin.
    repeat (destruct Hin as [Hin | Hin]; [injection Hin as <- <-; reflexivity |]).
    contradiction.
  - rewrite IH. f_equal.
    destruct (lowerChar_spec c) as [Hin | [Heq _]]; [| now rewrite Heq].
    exfalso. apply Hnot. exact (in_map fst _ _ Hin).
Qed.

Lemma SameUpToCase_spec (a b : string) :
  SameUpToCase a b <-> toLowerCase a = toLowerCase b.
Proof.
  split.
  - intros (folded & Ha & Hb).
    now rewrite <- (LowerCased_fun _ _ Ha), <- (LowerCased_fun _ _ Hb).
  - intros H. exists (toLowerCase a). split; [apply toLowerCase_LowerCased |].
    rewrite H. apply toLowerCase_LowerCased.
Qed.



(** ** The streaming generator *)

Lemma forward_fragments (cs : list (option string)) :
  forward cs = map Yield (fragments cs).
Proof.
  unfold fragments. induction cs as [|[t|] cs IH]; simpl; [reflexivity | | exact IH].
  destruct (isEmpty t); simpl; [exact IH | now rewrite IH].
Qed.

Lemma yielded_map_Yield (l : list string) : yielded (map Yield l) = l.
Proof. induction l as [|x l IH]; simpl; [reflexivity | now rewrite IH]. Qed.

Lemma getAiInstance_keyed (w : World) (apiKey : string) :
  settingsService.getApiKey w = Some apiKey -> getAiInstance w = inr apiKey.
Proof. intros H. unfold getAiInstance. now rewrite H. Qed.


(** C7.  When a key is configured and the stream the backend answers the
    request with ends without an error, the generator yields exactly the
    non-empty text fragments of that stream, in the order of arrival and
    unchanged, with no pause or status chunk between them, and returns;
    one request has been issued.  For the chunks "Hyper", "text is ",
    "a medium." these are the three chunks themselves, and they accumulate
    to "Hypertext is a medium.". *)
Theorem stream_forwards_fragments (topicOrQuery : string)
  (file : option (string * string)) (w : World) (apiKey : string)
  (cs : list (option string)) :
  settingsService.getApiKey w = Some apiKey ->
  backendStream w (length (sent w))
    (streamRequest topicOrQuery file (settingsService.getActiveModelId w))
  = mkStreamReply cs None ->
  let st := streamDefinition topicOrQuery file w in
  (events st = map Yield (fragments cs)
   /\ yielded (events st) = fragments cs
   /\ ending st = None
   /\ sent (after st)
      = sent w ++ [streamRequest topicOrQuery file (settingsService.getActiveModelId w)])
  /\ (fragments [Some "Hyper"; Some "text is "; Some "a medium."]
      = ["Hyper"; "text is "; "a medium."]
      /\ accumulated ["Hyper"; "text is "; "a medium."] = "Hypertext is a medium.").
Proof.
  intros Hkey Hreply st. subst st. unfold streamDefinition.
  rewrite (getAiInstance_keyed _ _ Hkey).
  unfold MAX_RETRIES; simpl. rewrite Hreply; simpl.
  rewrite forward_fragments, yielded_map_Yield. repeat split; reflexivity.
Qed.

Lemma stream_forwards_fragments_witness :
  let st := streamDefinition "Hypertext" None hypertextWorld in
  settingsService.getApiKey hypertextWorld = Some "k3y"
  /\ events st = [Yield "Hyper"; Yield "text is "; Yield "a medium."]
  /\ ending st = None
  /\ accumulated (yielded (events st)) = "Hypertext is a medium."
  /\ length (sent (after st)) = 1%nat.
Proof.
  pose proof (stream_forwards_fragments "Hypertext" None hypertextWorld "k3y"
                [Some "Hyper"; Some "text is "; Some "a medium."]
                eq_refl eq_refl) as [(Hev & Hy & Hend & Hsent) _].
  intros st. subst st.
  rewrite Hev, Hend, Hsent. repeat split; reflexivity.
Defined.

(** ** The cache-first operations *)

Section CacheFirst.
Context {U : Type}.
Variable onRetry : option (nat -> Z -> U -> U).

Lemma ancillary_hit (topic : string) (w : World) (u : U) :
  truthy (cache.get (ancillaryKey (settingsService.getActiveModelId w) topic) w) = true ->
  generateAncillaryData topic onRetry w u
  = mkRun (Fulfilled (cache.get (ancillaryKey (settingsService.getActiveModelId w) topic) w))
      w u [].
Proof. intros H. unfold generateAncillaryData. now rewrite H. Qed.

Lemma deepDive_hit (topic : string) (w : World) (u : U) :
  truthy (cache.get (deepDiveKey (settingsService.getActiveModelId w) topic) w) = true ->
  generateDeepDive topic onRetry w u
  = mkRun (Fulfilled (cache.get (deepDiveKey (settingsService.getActiveModelId w) topic) w))
      w u [].
Proof. intros H. unfold generateDeepDive. now rewrite H. Qed.

Lemma ancillary_miss (topic : string) (w : World) (u : U) :
  truthy (cache.get (ancillaryKey (settingsService.getActiveModelId w) topic) w) = false ->
  generateAncillaryData topic onRetry w u
  = geminiRequestWithRetry
      (ancillaryApiCall topic (settingsService.getActiveModelId w)
         (ancillaryKey (settingsService.getActiveModelId w) topic))
      onRetry w u.
Proof. intros H. unfold generateAncillaryData. now rewrite H. Qed.

Lemma deepDive_miss (topic : string) (w : World) (u : U) :
  truthy (cache.get (deepDiveKey (settingsService.getActiveModelId w) topic) w) = false ->
  generateDeepDive topic onRetry w u
  = geminiRequestWithRetry
      (deepDiveApiCall topic (settingsService.getActiveModelId w)
         (deepDiveKey (settingsService.getActiveModelId w) topic))
      onRetry w u.
Proof. intros H. unfold generateDeepDive. now rewrite H. Qed.

Lemma missing_key_not_retryable :
  isRetryable (toError (ThrownError (mkError MISSING_KEY_MESSAGE))) = false.
Proof. reflexivity. Qed.


End CacheFirst.



Section DeepDive.
Context {U : Type}.
Variable onRetry : option (nat -> Z -> U -> U).


Lemma deepDiveApiCall_unparsable (topic modelId cacheKey : string) (w : World)
  (apiKey text : string) :
  settingsService.getApiKey w = Some apiKey ->
  backend w (length (sent w)) (deepDiveRequest topic modelId) = ReplyText (Some text) ->
  JSON_parse (stripFence text) = None ->
  deepDiveApiCall topic modelId cacheKey w
  = (Rejected
       (ThrownError
          (handleGeminiError
             (ThrownError (mkError (syntaxErrorMessage (engine w) (stripFence text))))
             (deepDiveContext topic))),
     withSent w (sent w ++ [deepDiveRequest topic modelId])).
Proof.
  intros Hkey Hreply Hparse. unfold deepDiveApiCall, deepDiveTry, generateContent.
  rewrite (getAiInstance_keyed _ _ Hkey), Hreply. simpl. now rewrite Hparse.
Qed.

End DeepDive.

(** ** White space and the fence pattern *)

Lemma length_append (a b : string) :
  String.length (a +:+ b) = (String.length a + String.length b)%nat.
Proof.
  induction a as [|x a IH]; [reflexivity |].
  rewrite append_cons. simpl. now rewrite IH.
Qed.

Lemma allChars_append (p : ascii -> bool) (a b : string) :
  allChars p (a +:+ b) = allChars p a && allChars p b.
Proof.
  induction a as [|x a IH]; [reflexivity |].
  rewrite append_cons. simpl. now rewrite IH, andb_assoc.
Qed.

(** A property of every white-space character is checked on the table. *)
Lemma whiteSpaces_all (P : string -> Prop) :
  List.Forall P whiteSpaces -> forall ws, In ws whiteSpaces -> P ws.
Proof. intros H ws Hin. exact (proj1 (List.Forall_forall P whiteSpaces) H ws Hin). Qed.

Ltac on_table :=
  let l := eval vm_compute in whiteSpaces in
  change whiteSpaces with l; repeat constructor.

Ltac each_space ws Hin :=
  pattern ws; revert ws Hin; apply whiteSpaces_all; on_table.

Lemma whiteSpaceAt_spec (s ws : string) :
  whiteSpaceAt s = Some ws ->
  In ws whiteSpaces /\ exists rest, s = ws +:+ rest.
Proof.
  unfold whiteSpaceAt. intros H. apply find_some in H as [Hin Hs].
  split; [exact Hin | now apply startsWith_spec].
Qed.

Lemma whiteSpaceAt_space (ws rest : string) :
  In ws whiteSpaces -> whiteSpaceAt (ws +:+ rest) = Some ws.
Proof.
  intros Hin. revert rest. each_space ws Hin; intros rest; vm_compute; reflexivity.
Qed.

Lemma space_nonempty (ws : string) : In ws whiteSpaces -> isEmpty ws = false.
Proof. intros Hin. each_space ws Hin; reflexivity. Qed.

Lemma space_boundary (ws rest : string) :
  In ws whiteSpaces -> atBoundary (ws +:+ rest) = true.
Proof. intros Hin. revert rest. each_space ws Hin; intros rest; reflexivity. Qed.

Lemma LF_space : In LF whiteSpaces.
Proof. right; left; reflexivity. Qed.

Lemma blank_space (ws rest : string) :
  In ws whiteSpaces -> blank (ws +:+ rest) = blank rest.
Proof.
  intros Hin. revert rest. each_space ws Hin; intros rest; vm_compute; reflexivity.
Qed.

Lemma blank_other (c : ascii) (r : string) :
  whiteSpaceAt (String c r) = None -> blank (String c r) = false.
Proof.
  intros H. unfold blank. cbn [blankFrom]. unfold whiteSpaceWidth. now rewrite H.
Qed.

Lemma trimStart_space (ws rest : string) :
  In ws whiteSpaces -> trimStart (ws +:+ rest) = trimStart rest.
Proof.
  intros Hin. revert rest. each_space ws Hin; intros rest; vm_compute; reflexivity.
Qed.

Lemma trimStart_other (s : string) : whiteSpaceAt s = None -> trimStart s = s.
Proof.
  intros H. destruct s as [|c r]; [reflexivity |].
  unfold trimStart. cbn [trimStartFrom]. unfold whiteSpaceWidth. now rewrite H.
Qed.

(** Induction over a string, one white-space character or one other byte
    at a time. *)
Lemma space_ind (P : string -> Prop) :
  P EmptyString ->
  (forall ws s, In ws whiteSpaces -> P s -> P (ws +:+ s)) ->
  (forall c s, whiteSpaceAt (String c s) = None -> P s -> P (String c s)) ->
  forall s, P s.
Proof.
  intros H0 Hws Hc s. remember (String.length s) as n eqn:Hn. revert s Hn.
  induction n as [n IH] using lt_wf_ind. intros s ->.
  destruct s as [|c r]; [exact H0 |].
  destruct (whiteSpaceAt (String c r)) as [ws|] eqn:Hat.
  - destruct (whiteSpaceAt_spec _ _ Hat) as (Hin & rest & Heq). rewrite Heq.
    apply Hws; [exact Hin |]. apply (IH (String.length rest)); [| reflexivity].
    rewrite Heq, length_append. pose proof (space_nonempty ws Hin) as Hne.
    destruct ws; [discriminate Hne | simpl; lia].
  - apply Hc; [exact Hat |]. apply (IH (String.length r)); [simpl; lia | reflexivity].
Qed.

(** A character that is cut short is not completed by what follows a
    character boundary. *)
Lemma whiteSpaceAt_aligned (c : ascii) (x t : string) :
  whiteSpaceAt (String c x) = None -> atBoundary t = true ->
  whiteSpaceAt (String c (x +:+ t)) = None.
Proof.
  intros Hnone Ht.
  destruct (whiteSpaceAt (String c (x +:+ t))) as [ws|] eqn:Hat; [| reflexivity].
  exfalso. apply whiteSpaceAt_spec in Hat as (Hin & rest & Heq).
  revert c x t rest Hnone Ht Heq. each_space ws Hin; intros c x t rest Hnone Ht Heq;
    rewrite ?append_cons, ?append_empty_l in Heq;
    injection Heq as -> Heq;
    try (vm_compute in Hnone; discriminate Hnone);
    (destruct x as [|x1 x];
     [rewrite append_empty_l in Heq; subst t; discriminate Ht
     | rewrite append_cons in Heq; injection Heq as -> Heq]);
    try (vm_compute in Hnone; discriminate Hnone);
    (destruct x as [|x2 x];
     [rewrite append_empty_l in Heq; subst t; discriminate Ht
     | rewrite append_cons in Heq; injection Heq as -> Heq]);
    vm_compute in Hnone; discriminate Hnone.
Qed.

Lemma whiteSpaceAt_prefix (s t ws : string) :
  whiteSpaceAt s = Some ws -> whiteSpaceAt (s +:+ t) = Some ws.
Proof.
  intros H. apply whiteSpaceAt_spec in H as (Hin & rest & ->).
  rewrite append_assoc. now apply whiteSpaceAt_space.
Qed.

Lemma blank_boundary (s : string) : blank s = true -> atBoundary s = true.
Proof.
  destruct s as [|c r]; [reflexivity |]. intros H.
  destruct (whiteSpaceAt (String c r)) as [ws|] eqn:Hat.
  - apply whiteSpaceAt_spec in Hat as (Hin & rest & ->). now apply space_boundary.
  - rewrite (blank_other _ _ Hat) in H. discriminate H.
Qed.

Lemma boundary_append (a t : string) :
  blank a = true -> atBoundary t = true -> atBoundary (a +:+ t) = true.
Proof.
  intros Ha Ht. destruct a as [|c r]; [exact Ht |]. exact (blank_boundary _ Ha).
Qed.

(** White space followed by [b] is blank exactly when [b] is. *)
Lemma blank_skip (a b : string) : blank a = true -> blank (a +:+ b) = blank b.
Proof.
  induction a as [| ws a Hin IH | c a Hc IH] using space_ind.
  - reflexivity.
  - rewrite blank_space by exact Hin. intros Ha.
    rewrite append_assoc, blank_space by exact Hin. now apply IH.
  - rewrite (blank_other _ _ Hc). discriminate.
Qed.

Lemma blank_append (a b : string) :
  atBoundary b = true -> blank (a +:+ b) = blank a && blank b.
Proof.
  intros Hb. induction a as [| ws a Hin IH | c a Hc IH] using space_ind.
  - reflexivity.
  - rewrite append_assoc, (blank_space ws (a +:+ b)), (blank_space ws a) by exact Hin.
    exact IH.
  - rewrite (blank_other _ _ Hc), append_cons.
    now rewrite (blank_other _ _ (whiteSpaceAt_aligned _ _ _ Hc Hb)).
Qed.

Lemma trimStart_skips (a s : string) :
  blank a = true -> trimStart (a +:+ s) = trimStart s.
Proof.
  induction a as [| ws a Hin IH | c a Hc IH] using space_ind.
  - reflexivity.
  - rewrite blank_space by exact Hin. intros Ha.
    rewrite append_assoc, trimStart_space by exact Hin. now apply IH.
  - rewrite (blank_other _ _ Hc). discriminate.
Qed.

Lemma trimStart_blank (s : string) : blank s = true -> trimStart s = EmptyString.
Proof.
  intros H. rewrite <- (append_empty_r s). now rewrite trimStart_skips.
Qed.

Lemma trimStart_decompose (s : string) :
  exists a, s = a +:+ trimStart s /\ blank a = true.
Proof.
  induction s as [| ws s Hin (a & Hs & Ha) | c s Hc _] using space_ind.
  - now exists EmptyString.
  - exists (ws +:+ a). rewrite trimStart_space by exact Hin.
    rewrite append_assoc, <- Hs. split; [reflexivity |].
    now rewrite blank_space.
  - exists EmptyString. now rewrite (trimStart_other _ Hc).
Qed.

(** What [trimStart] leaves opens with no white space. *)
Lemma trimStart_opens (s : string) : whiteSpaceAt (trimStart s) = None.
Proof.
  induction s as [| ws s Hin IH | c s Hc _] using space_ind.
  - reflexivity.
  - now rewrite trimStart_space.
  - now rewrite (trimStart_other _ Hc).
Qed.

(** A string that [trimStart] leaves as it is opens with no white space. *)
Lemma trimStart_fixed (key : string) :
  trimStart key = key -> whiteSpaceAt key = None.
Proof. intros H. rewrite <- H. apply trimStart_opens. Qed.

Lemma trimEnd_decompose (s : string) :
  exists b, s = trimEnd s +:+ b /\ blank b = true.
Proof.
  induction s as [|c s (b & Hs & Hb)]; [now exists EmptyString |].
  cbn [trimEnd]. destruct (blank (String c s)) eqn:Hc.
  - now exists (String c s).
  - exists b. now rewrite append_cons, <- Hs.
Qed.

Lemma trimStart_length (s : string) :
  (String.length (trimStart s) <= String.length s)%nat.
Proof.
  destruct (trimStart_decompose s) as (a & Hs & _).
  rewrite Hs at 2. rewrite length_append. lia.
Qed.

Lemma trimEnd_allws (s : string) : blank s = true -> trimEnd s = EmptyString.
Proof. destruct s as [|c r]; [reflexivity |]. cbn [trimEnd]. now intros ->. Qed.

(** [trimEnd] leaves nothing exactly of a blank string. *)
Lemma trimEnd_empty (s : string) : isEmpty (trimEnd s) = blank s.
Proof. destruct s as [|c r]; [reflexivity |]. cbn [trimEnd]. now destruct (blank _). Qed.

Lemma trimEnd_idempotent (s : string) : trimEnd (trimEnd s) = trimEnd s.
Proof.
  induction s as [|c s IH]; [reflexivity |]. cbn [trimEnd].
  destruct (blank (String c s)) eqn:Hc; [reflexivity |].
  cbn [trimEnd]. rewrite IH.
  destruct (trimEnd_decompose s) as (b & Hs & Hb).
  rewrite Hs, <- append_cons, blank_append in Hc by now apply blank_boundary.
  rewrite Hb, andb_true_r in Hc. now rewrite Hc.
Qed.

(** A trimmed string starts with no white space. *)
Lemma trimStart_trim (s : string) : trimStart (trim s) = trim s.
Proof.
  unfold trim. apply trimStart_other.
  destruct (whiteSpaceAt (trimEnd (trimStart s))) as [ws|] eqn:Hat; [| reflexivity].
  destruct (trimEnd_decompose (trimStart s)) as (b & Hs & _).
  pose proof (trimStart_opens s) as Hopen. rewrite Hs in Hopen.
  now rewrite (whiteSpaceAt_prefix _ b _ Hat) in Hopen.
Qed.

Lemma trim_idempotent (s : string) : trim (trim s) = trim s.
Proof.
  unfold trim at 1. rewrite trimStart_trim. unfold trim.
  apply trimEnd_idempotent.
Qed.

Lemma trimEnd_trim (s : string) : trimEnd (trim s) = trim s.
Proof. unfold trim. apply trimEnd_idempotent. Qed.


Lemma trimEnd_append (a b : string) :
  atBoundary b = true -> isEmpty (trimEnd b) = false ->
  trimEnd (a +:+ b) = a +:+ trimEnd b.
Proof.
  intros Hbound Hb. rewrite trimEnd_empty in Hb.
  induction a as [|x a IH]; [reflexivity |].
  rewrite !append_cons. cbn [trimEnd]. rewrite IH.
  now rewrite <- append_cons, blank_append, Hb, andb_false_r.
Qed.

Lemma dropPrefix_spec (p s r : string) :
  dropPrefix p s = Some r <-> s = p +:+ r.
Proof.
  revert s; induction p as [|a p IH]; intros s; simpl.
  - rewrite append_empty_l. split; congruence.
  - rewrite append_cons. destruct s as [|b s]; [split; discriminate |].
    destruct (Ascii.eqb_spec a b) as [->|Hne].
    + rewrite IH. split; congruence.
    + split; [discriminate | congruence].
Qed.

Lemma dropPrefix_append (p r : string) : dropPrefix p (p +:+ r) = Some r.
Proof. now apply dropPrefix_spec. Qed.

Lemma fenceTail_spec (s : string) :
  reLit "```" reEnd s = Some tt <-> s = "```".
Proof.
  unfold reLit, reEnd. split.
  - destruct (dropPrefix "```" s) as [r|] eqn:Hd; [| discriminate].
    apply dropPrefix_spec in Hd. destruct r; [| discriminate].
    now rewrite append_empty_r in Hd.
  - intros ->. reflexivity.
Qed.

Lemma reSpaces_space {R} (k : Matcher R) (ws rest : string) :
  In ws whiteSpaces ->
  reSpaces k (ws +:+ rest)
  = match reSpaces k rest with
    | Some x => Some x
    | None => k (ws +:+ rest)
    end.
Proof.
  intros Hin. revert rest. each_space ws Hin; intros rest; vm_compute; reflexivity.
Qed.

Lemma reSpaces_other {R} (k : Matcher R) (s : string) :
  whiteSpaceAt s = None -> reSpaces k s = k s.
Proof.
  intros H. destruct s as [|c r]; [reflexivity |].
  unfold reSpaces. cbn [reSpacesFrom]. unfold whiteSpaceWidth. now rewrite H.
Qed.

Lemma reSpaces_fenceTail (s : string) :
  reSpaces (reLit "```" reEnd) s = Some tt <-> trimStart s = "```".
Proof.
  induction s as [| ws s Hin IH | c s Hc _] using space_ind.
  - rewrite reSpaces_other, fenceTail_spec by reflexivity. split; discriminate.
  - rewrite reSpaces_space, trimStart_space by exact Hin.
    destruct (reSpaces (reLit "```" reEnd) s) as [[]|] eqn:Hr; [tauto |].
    rewrite fenceTail_spec. split.
    + intros H. pose proof (whiteSpaceAt_space ws s Hin) as Hat.
      rewrite H in Hat. discriminate Hat.
    + intros H. apply IH in H. discriminate H.
  - rewrite reSpaces_other, trimStart_other by exact Hc. apply fenceTail_spec.
Qed.

(** [\n?\s*```$] matches exactly the strings that are white space
    followed by the three backticks. *)
Lemma fenceClose_spec (s : string) :
  fenceClose s = Some tt <-> trimStart s = "```".
Proof.
  unfold fenceClose, reOpt. rewrite <- reSpaces_fenceTail.
  destruct (reLit LF _ s) as [[]|] eqn:Hlf; [| tauto].
  split; [| reflexivity]. intros _.
  unfold reLit in Hlf. destruct (dropPrefix LF s) as [r|] eqn:Hd; [| discriminate].
  apply dropPrefix_spec in Hd. subst s.
  apply reSpaces_fenceTail. apply reSpaces_fenceTail in Hlf.
  now rewrite trimStart_space by exact LF_space.
Qed.

Lemma trimEnd_fixed_not_blank (m : string) :
  trimEnd m = m -> isEmpty m = false -> blank m = false.
Proof. intros Hfix Hne. now rewrite <- trimEnd_empty, Hfix. Qed.

Lemma trimStart_append_nonblank (m t : string) :
  blank m = false -> atBoundary t = true ->
  exists c r, trimStart (m +:+ t) = String c (r +:+ t).
Proof.
  intros Hm Ht. induction m as [| ws m Hin IH | c m Hc _] using space_ind.
  - discriminate Hm.
  - rewrite blank_space in Hm by exact Hin.
    rewrite append_assoc, trimStart_space by exact Hin. now apply IH.
  - exists c, m. rewrite append_cons.
    apply trimStart_other. now apply whiteSpaceAt_aligned.
Qed.

Lemma fence_boundary (t : string) : trimStart t = "```" -> atBoundary t = true.
Proof.
  intros Ht. destruct (trimStart_decompose t) as (a & Heq & Ha).
  rewrite Ht in Heq. subst t. now apply boundary_append.
Qed.

(** The lazy group stops at the first place from which only white space
    and the closing fence remain: it captures [m] when [m] ends with no
    white space. *)
Lemma reLazyAny_capture (m t : string) :
  trimEnd m = m -> trimStart t = "```" ->
  reLazyAny fenceClose (m +:+ t) = Some m.
Proof.
  intros Hfix Ht. induction m as [|c m IH].
  - rewrite append_empty_l. apply fenceClose_spec in Ht.
    destruct t as [|x t]; cbn [reLazyAny]; now rewrite Ht.
  - assert (Hm : trimEnd m = m).
    { cbn [trimEnd] in Hfix. destruct (blank (String c m));
        [discriminate | congruence]. }
    assert (Hnone : fenceClose (String c m +:+ t) = None).
    { destruct (fenceClose (String c m +:+ t)) as [[]|] eqn:Hf; [| reflexivity].
      exfalso. apply fenceClose_spec in Hf.
      destruct (trimStart_append_nonblank (String c m) t) as (x & r & Hx).
      { now apply trimEnd_fixed_not_blank. }
      { now apply fence_boundary. }
      rewrite Hx in Hf. apply (f_equal String.length) in Hf.
      simpl in Hf. rewrite length_append in Hf.
      pose proof (trimStart_length t) as Hlen. rewrite Ht in Hlen.
      simpl in Hlen. lia. }
    rewrite append_cons in *. cbn [reLazyAny]. rewrite Hnone, (IH Hm). reflexivity.
Qed.

Lemma reSpaces_skips {R} (k : Matcher R) (a s : string) (x : R) :
  blank a = true ->
  reSpaces k s = Some x ->
  reSpaces k (a +:+ s) = Some x.
Proof.
  intros Ha Hs. induction a as [| ws a Hin IH | c a Hc _] using space_ind.
  - exact Hs.
  - rewrite blank_space in Ha by exact Hin.
    now rewrite append_assoc, reSpaces_space, (IH Ha) by exact Hin.
  - rewrite (blank_other _ _ Hc) in Ha. discriminate Ha.
Qed.

(** [match[1]] for a fenced text: the body without the white space
    around it.  The fence is tagged [json], or it is bare and what follows
    does not spell the tag. *)
Lemma fenceRegex_fenced (tag before body behind : string) :
  blank before = true ->
  blank behind = true ->
  tag = "json"
  \/ (tag = EmptyString
      /\ dropPrefix "json" (before +:+ body +:+ behind +:+ "```") = None) ->
  isEmpty (trim body) = false ->
  fenceRegex ("```" +:+ tag +:+ before +:+ body +:+ behind +:+ "```")
  = Some (trim body).
Proof.
  intros Hbefore Hbehind Htag Hne.
  destruct (trimStart_decompose body) as (a & Ha & Haws).
  destruct (trimEnd_decompose (trimStart body)) as (b & Hb & Hbws).
  fold (trim body) in Hb. set (m := trim body) in *.
  assert (Hbody : before +:+ body +:+ behind +:+ "```"
                  = (before +:+ a) +:+ m +:+ (b +:+ behind +:+ "```")).
  { rewrite Ha at 1. rewrite Hb at 1. now rewrite !append_assoc. }
  assert (Hafter :
            reSpaces (reOpt (reLit LF) (reLazyAny fenceClose))
              (before +:+ body +:+ behind +:+ "```") = Some m).
  { rewrite Hbody. apply reSpaces_skips.
    - now rewrite blank_skip.
    - assert (Hcap : reLazyAny fenceClose (m +:+ b +:+ behind +:+ "```") = Some m).
      { apply reLazyAny_capture; [apply trimEnd_trim |].
        rewrite trimStart_skips by exact Hbws.
        rewrite trimStart_skips by exact Hbehind. reflexivity. }
      pose proof (trimStart_fixed m (trimStart_trim body)) as Hhead.
      destruct m as [|c m']; [discriminate Hne |].
      assert (Hopen : whiteSpaceAt (String c (m' +:+ b +:+ behind +:+ "```")) = None).
      { apply whiteSpaceAt_aligned; [exact Hhead |].
        apply boundary_append; [exact Hbws |]. now apply boundary_append. }
      rewrite append_cons in *. rewrite reSpaces_other by exact Hopen.
      assert (Hlf : dropPrefix LF (String c (m' +:+ b +:+ behind +:+ "```")) = None).
      { destruct (dropPrefix LF _) as [r|] eqn:Hd; [| reflexivity].
        apply dropPrefix_spec in Hd. rewrite Hd in Hopen.
        now rewrite (whiteSpaceAt_space LF r LF_space) in Hopen. }
      unfold reOpt, reLit at 1. rewrite Hlf. exact Hcap. }
  unfold fenceRegex, reLit at 1. rewrite dropPrefix_append.
  destruct Htag as [-> | [-> Hbare]].
  - unfold reOpt at 1, reLit at 1. rewrite dropPrefix_append. now rewrite Hafter.
  - rewrite append_empty_l. unfold reOpt at 1, reLit at 1. rewrite Hbare.
    exact Hafter.
Qed.

Lemma trim_fenced (tag body : string) :
  trim ("```" +:+ tag +:+ body +:+ "```") = "```" +:+ tag +:+ body +:+ "```".
Proof.
  unfold trim. rewrite trimStart_other by reflexivity.
  rewrite <- !append_assoc. now rewrite trimEnd_append.
Qed.

(** One fence, tagged [json] or bare, is stripped, whatever white space
    separates it from the body. *)
Lemma stripFence_fenced (tag before body behind : string) :
  blank before = true ->
  blank behind = true ->
  tag = "json"
  \/ (tag = EmptyString
      /\ dropPrefix "json" (before +:+ body +:+ behind +:+ "```") = None) ->
  isEmpty (trim body) = false ->
  stripFence ("```" +:+ tag +:+ before +:+ body +:+ behind +:+ "```") = trim body.
Proof.
  intros Hbefore Hbehind Htag Hne. unfold stripFence.
  pose proof (trim_fenced tag (before +:+ body +:+ behind)) as Htrim.
  rewrite !append_assoc in Htrim. rewrite Htrim.
  rewrite (fenceRegex_fenced tag before body behind Hbefore Hbehind Htag Hne), Hne.
  apply trim_idempotent.
Qed.

Lemma stripFence_tagged (before body behind : string) :
  blank before = true ->
  blank behind = true ->
  isEmpty (trim body) = false ->
  stripFence ("```json" +:+ before +:+ body +:+ behind +:+ "```") = trim body.
Proof.
  intros Hbefore Hbehind H.
  exact (stripFence_fenced "json" before body behind Hbefore Hbehind
           (or_introl eq_refl) H).
Qed.

Lemma stripFence_bare (before body behind : string) :
  blank before = true ->
  blank behind = true ->
  dropPrefix "json" (before +:+ body +:+ behind +:+ "```") = None ->
  isEmpty (trim body) = false ->
  stripFence ("```" +:+ before +:+ body +:+ behind +:+ "```") = trim body.
Proof.
  intros Hbefore Hbehind Hbare H.
  exact (stripFence_fenced EmptyString before body behind Hbefore Hbehind
           (or_intror (conj eq_refl Hbare)) H).
Qed.

(** A text that does not open with a fence is only trimmed. *)
Lemma stripFence_plain (text : string) :
  dropPrefix "```" (trim text) = None -> stripFence text = trim text.
Proof.
  intros H. unfold stripFence, fenceRegex, reLit at 1. now rewrite H.
Qed.

(** No JSON text opens with a backtick, and none is empty. *)
Lemma JSON_parse_not_fence (s : string) (v : json) :
  JSON_parse s = Some v -> dropPrefix "```" s = None /\ isEmpty s = false.
Proof.
  destruct s as [|c r]; [discriminate |]. intros H. split; [| reflexivity].
  cbn [dropPrefix]. destruct (Ascii.eqb_spec "`"%char c) as [<-|_]; [| reflexivity].
  exfalso. revert H. unfold JSON_parse. simpl. discriminate.
Qed.

(** No JSON text opens with the letter of the tag. *)
Lemma JSON_parse_not_tag (c : ascii) (r : string) (v : json) :
  JSON_parse (String c r) = Some v -> Ascii.eqb "j" c = false.
Proof.
  intros H. destruct (Ascii.eqb_spec "j"%char c) as [<-|_]; [| reflexivity].
  exfalso. revert H. unfold JSON_parse. simpl. discriminate.
Qed.

(** White space does not spell the tag. *)
Lemma blank_not_tag (x : ascii) (pad rest : string) :
  blank (String x pad) = true -> dropPrefix "json" (String x pad +:+ rest) = None.
Proof.
  intros H. rewrite append_cons. cbn [dropPrefix].
  destruct (Ascii.eqb_spec "j"%char x) as [<-|_]; [| reflexivity].
  rewrite blank_other in H by reflexivity. discriminate H.
Qed.

Lemma dropPrefix_json_padded (before body rest : string) (v : json) :
  blank before = true ->
  JSON_parse (trim body) = Some v ->
  dropPrefix "json" (before +:+ body +:+ rest) = None.
Proof.
  intros Hbefore Hparse.
  destruct (trimStart_decompose body) as (a & Ha & Haws).
  destruct (trimEnd_decompose (trimStart body)) as (b & Hb & _).
  fold (trim body) in Hb.
  destruct (JSON_parse_not_fence _ _ Hparse) as [_ Hne].
  assert (Heq : before +:+ body +:+ rest
                = (before +:+ a) +:+ trim body +:+ (b +:+ rest)).
  { rewrite Ha at 1. rewrite Hb at 1. now rewrite !append_assoc. }
  rewrite Heq.
  assert (Hws : blank (before +:+ a) = true) by now rewrite blank_skip.
  destruct (before +:+ a) as [|x pad].
  - rewrite append_empty_l. destruct (trim body) as [|c r]; [discriminate Hne |].
    rewrite append_cons. cbn [dropPrefix].
    now rewrite (JSON_parse_not_tag _ _ _ Hparse).
  - now apply blank_not_tag.
Qed.

Lemma readJson_text (w : World) (text : string) (v : json) :
  JSON_parse (stripFence text) = Some v -> readJson w (ReplyText (Some text)) = inr v.
Proof. intros H. simpl. now rewrite H. Qed.

(** ** Validation of the ancillary response *)

Lemma artOf_valid (w : World) (parsed : json) :
  HasArt parsed ->
  exists art, artOf w parsed = inr art /\ invalidArt art = false.
Proof.
  intros (artData & art & Hd & Ha & Hne).
  exists (Some (JString art)). split; [| exact Hne].
  destruct parsed; try discriminate Hd. unfold artOf. rewrite Hd.
  destruct artData; try discriminate Ha; now rewrite Ha.
Qed.

Lemma artOf_invalid (w : World) (parsed : json) :
  ~ HasArt parsed -> parsed <> JNull ->
  exists art, artOf w parsed = inr art /\ invalidArt art = true.
Proof.
  intros Hno Hnull. unfold artOf.
  destruct parsed as [| b | n | s | l | ms]; try contradiction;
    try (exists None; split; reflexivity).
  destruct (getProp (JObject ms) "artData") as [artData|] eqn:Hd;
    [| exists None; split; reflexivity].
  destruct artData as [| b | n | s | l | ms'];
    try (exists None; split; reflexivity).
  destruct (getProp (JObject ms') "art") as [art|] eqn:Ha;
    [| exists None; split; reflexivity].
  exists (Some art). split; [reflexivity |].
  destruct art as [| b | n | a | l | ms'']; try reflexivity.
  simpl. destruct (isEmpty (trim a)) eqn:He; [reflexivity |].
  exfalso. apply Hno. now exists (JObject ms'), a.
Qed.

Lemma invalid_art_error (context : string) :
  message (handleGeminiError (ThrownError (mkError INVALID_ART_MESSAGE)) context)
  = "Could not " +:+ context +:+ ". " +:+ INVALID_ART_MESSAGE.
Proof. reflexivity. Qed.

(** C5.  [generateAncillaryData] parses the response text after trimming
    it and stripping one fence: a text that parses to a value parses to the
    same value when it arrives between [```json] and [```] (or between
    [```] and [```]), set off by any white space, such as a line break, or
    by none.  After parsing, the attempt fails exactly when [artData.art]
    is not a string or is empty after trimming, with an error that says so
    when the parsed value is not [null]; a value with such an [art] is
    returned and cached whatever else it holds. *)
Theorem ancillary_repair_and_validation (topic modelId cacheKey : string)
  (w : World) (apiKey text : string) (parsed : json) :
  let request := ancillaryRequest topic modelId w in
  let w1 := withSent w (sent w ++ [request]) in
  settingsService.getApiKey w = Some apiKey ->
  backend w (length (sent w)) request = ReplyText (Some text) ->
  JSON_parse (stripFence text) = Some parsed ->
  (forall inner value before behind,
     JSON_parse (trim inner) = Some value ->
     blank before = true ->
     blank behind = true ->
     readJson w (ReplyText (Some inner)) = inr value
     /\ readJson w
          (ReplyText (Some ("```json" +:+ before +:+ inner +:+ behind +:+ "```")))
        = inr value
     /\ readJson w
          (ReplyText (Some ("```" +:+ before +:+ inner +:+ behind +:+ "```")))
        = inr value)
  /\ (HasArt parsed ->
      ancillaryApiCall topic modelId cacheKey w
      = (Fulfilled parsed, cache.set cacheKey parsed w1))
  /\ (~ HasArt parsed ->
      exists e,
        ancillaryApiCall topic modelId cacheKey w = (Rejected (ThrownError e), w1)
        /\ (parsed <> JNull ->
            message e
            = "Could not generate ancillary data for " +:+ DQ +:+ topic +:+ DQ
              +:+ ". Invalid or empty ASCII art in response")).
Proof.
  intros request w1 Hkey Hreply Hparse. split; [| split].
  - intros inner value before behind Hinner Hbefore Hbehind.
    destruct (JSON_parse_not_fence _ _ Hinner) as [Hplain Hne].
    split; [| split]; apply readJson_text.
    + now rewrite (stripFence_plain _ Hplain).
    + now rewrite (stripFence_tagged before inner behind Hbefore Hbehind Hne).
    + rewrite (stripFence_bare before inner behind Hbefore Hbehind); try assumption.
      exact (dropPrefix_json_padded before inner _ value Hbefore Hinner).
  - intros Hart. destruct (artOf_valid w1 parsed Hart) as (art & Hof & Hvalid).
    unfold ancillaryApiCall, ancillaryTry, generateContent.
    rewrite (getAiInstance_keyed _ _ Hkey). fold request. rewrite Hreply.
    fold w1. rewrite (readJson_text _ _ _ Hparse), Hof, Hvalid. reflexivity.
  - intros Hno. unfold ancillaryApiCall, ancillaryTry, generateContent.
    rewrite (getAiInstance_keyed _ _ Hkey). fold request. rewrite Hreply.
    fold w1. rewrite (readJson_text _ _ _ Hparse).
    destruct parsed as [| b | n | s | l | ms] eqn:Hp.
    1: { eexists. split; [reflexivity | intros H; now contradiction H]. }
    all: rewrite <- Hp in *;
      destruct (artOf_invalid w1 parsed Hno) as (art & Hof & Hbad);
      [rewrite Hp; discriminate |];
      rewrite Hof, Hbad; eexists; split; [reflexivity |];
      intros _; rewrite invalid_art_error; unfold ancillaryContext;
      rewrite !append_assoc; reflexivity.
Qed.

Lemma ancillary_repair_and_validation_witness :
  let modelId := settingsService.getActiveModelId fencedWorld in
  let cacheKey := ancillaryKey modelId "Hypertext" in
  settingsService.getApiKey fencedWorld = Some "k3y"
  /\ (exists parsed world,
        JSON_parse hypertextPayload = Some parsed
        /\ ancillaryApiCall "Hypertext" modelId cacheKey fencedWorld
           = (Fulfilled parsed, world))
  /\ (exists e world,
        ancillaryApiCall "Hypertext" modelId cacheKey blankArtWorld
        = (Rejected (ThrownError e), world)
        /\ message e
           = "Could not generate ancillary data for " +:+ DQ +:+ "Hypertext" +:+ DQ
             +:+ ". Invalid or empty ASCII art in response").
Proof.
  intros modelId cacheKey.
  set (parsed :=
         JObject [("concepts", JArray [JString "HTML"; JString "Hyperlink"]);
                  ("artData", JObject [("art", JString "o--o")])]).
  set (blankArt :=
         JObject [("concepts", JArray [JString "HTML"]);
                  ("artData",
                   JObject [("art", JString (" " +:+ utf8 0xA0 +:+ utf8 0x2003))])]).
  assert (Hpayload : JSON_parse hypertextPayload = Some parsed)
    by (vm_compute; reflexivity).
  split; [reflexivity |]. split.
  - destruct (ancillary_repair_and_validation "Hypertext" modelId cacheKey fencedWorld
                "k3y" ("```json" +:+ LF +:+ hypertextPayload +:+ LF +:+ "```") parsed
                eq_refl eq_refl) as (_ & Hok & _); [vm_compute; reflexivity |].
    eexists parsed, _. split; [exact Hpayload |]. apply Hok.
    exists (JObject [("art", JString "o--o")]), "o--o". repeat split; reflexivity.
  - destruct (ancillary_repair_and_validation "Hypertext" modelId cacheKey blankArtWorld
                "k3y" blankArtPayload blankArt eq_refl eq_refl)
      as (_ & _ & Hbad); [vm_compute; reflexivity |].
    destruct Hbad as (e & Hcall & Hmsg).
    + intros (artData & art & Hd & Ha & Hne).
      vm_compute in Hd. injection Hd as <-. vm_compute in Ha. injection Ha as <-.
      vm_compute in Hne. discriminate Hne.
    + exists e. eexists. split; [exact Hcall |]. apply Hmsg. discriminate.
Defined.

(** ** The deep dive accepts what parses *)

Section DeepDiveParsed.
Context {U : Type}.
Variable onRetry : option (nat -> Z -> U -> U).


End DeepDiveParsed.


(** ** [JSON.parse] reads back what [JSON.stringify] writes *)

Lemma stringify_array (items : list json) :
  JSON_stringify (JArray items) = "[" +:+ stringifyItems items +:+ "]".
Proof.
  reflexivity.
Qed.

Lemma stringify_object (members : list (string * json)) :
  JSON_stringify (JObject members) = "{" +:+ stringifyMembers members +:+ "}".
Proof.
  reflexivity.
Qed.

Lemma size_array (items : list json) : size (JArray items) = S (sizeItems items).
Proof.
  reflexivity.
Qed.

Lemma size_object (members : list (string * json)) :
  size (JObject members) = S (sizeMembers members).
Proof.
  reflexivity.
Qed.

Lemma opensValue_facts (c : ascii) :
  opensValue c = true ->
  isJsonWs c = false /\ Ascii.eqb c "]" = false /\ Ascii.eqb c "}" = false.
Proof.
  destruct c as [[] [] [] [] [] [] [] []]; intros H;
    try discriminate H; repeat split; reflexivity.
Qed.

Lemma parseChars_escape (c : ascii) (t : string) :
  parseChars (escapeChar c +:+ t) = consResult c (parseChars t).
Proof. destruct c as [[] [] [] [] [] [] [] []]; reflexivity. Qed.

Lemma parseChars_quoteChars (s rest : string) :
  parseChars (quoteChars s +:+ DQ +:+ rest) = Some (s, rest).
Proof.
  induction s as [|c s IH]; [reflexivity |].
  simpl quoteChars. rewrite append_assoc, parseChars_escape, IH. reflexivity.
Qed.

Lemma isEmpty_true (s : string) : isEmpty s = true -> s = EmptyString.
Proof. destruct s; [reflexivity | discriminate]. Qed.

Lemma isDigit_numberChar (c : ascii) : isDigit c = true -> isNumberChar c = true.
Proof. intros H. unfold isNumberChar. now rewrite H. Qed.

Lemma dropDigits_numberChars (r : string) :
  allChars isNumberChar (dropDigits r) = true -> allChars isNumberChar r = true.
Proof.
  induction r as [|c r IH]; [reflexivity |]. simpl.
  destruct (isDigit c) eqn:Hc; [| exact (fun H => H)].
  intros H. now rewrite (isDigit_numberChar _ Hc), (IH H).
Qed.

Lemma validExponent_numberChars (s : string) :
  validExponent s = true -> allChars isNumberChar s = true.
Proof.
  destruct s as [|c r]; [reflexivity |]. simpl.
  destruct (Ascii.eqb c "e" || Ascii.eqb c "E") eqn:He; [| discriminate].
  intros [_ Hd]%andb_true_iff. apply isEmpty_true in Hd.
  assert (Hc : isNumberChar c = true).
  { apply orb_true_iff in He as [->%Ascii.eqb_eq | ->%Ascii.eqb_eq]; reflexivity. }
  rewrite Hc. simpl. destruct r as [|g r']; [reflexivity |].
  destruct (Ascii.eqb g "+" || Ascii.eqb g "-") eqn:Hg.
  - assert (Hr : allChars isNumberChar r' = true)
      by (apply dropDigits_numberChars; now rewrite Hd).
    simpl. rewrite Hr.
    apply orb_true_iff in Hg as [->%Ascii.eqb_eq | ->%Ascii.eqb_eq]; reflexivity.
  - apply dropDigits_numberChars. now rewrite Hd.
Qed.

Lemma validFraction_numberChars (s : string) :
  validFraction s = true -> allChars isNumberChar s = true.
Proof.
  destruct s as [|c r]; [reflexivity |]. unfold validFraction.
  destruct (Ascii.eqb_spec c ".") as [->|_].
  - intros [_ He]%andb_true_iff. simpl.
    apply dropDigits_numberChars. now apply validExponent_numberChars.
  - apply validExponent_numberChars.
Qed.

Lemma validNumber_body (c : ascii) (r : string) :
  (if Ascii.eqb c "0" then validFraction r
   else if isDigit c then validFraction (dropDigits r) else false) = true ->
  isDigit c = true /\ allChars isNumberChar r = true.
Proof.
  destruct (Ascii.eqb_spec c "0") as [->|_].
  - intros H. split; [reflexivity | now apply validFraction_numberChars].
  - destruct (isDigit c); [| discriminate]. intros H. split; [reflexivity |].
    apply dropDigits_numberChars. now apply validFraction_numberChars.
Qed.

(** A number literal opens with a minus sign or a digit and holds number
    characters only. *)
Lemma validNumber_shape (lit : string) :
  validNumber lit = true ->
  allChars isNumberChar lit = true
  /\ exists c r, lit = String c r /\ (isDigit c || Ascii.eqb c "-") = true.
Proof.
  destruct lit as [|c r]; [discriminate |]. unfold validNumber.
  destruct (Ascii.eqb_spec c "-") as [->|_].
  - destruct r as [|d r']; [discriminate |]. intros H.
    apply validNumber_body in H as [Hd Hr]. split.
    + simpl. now rewrite (isDigit_numberChar _ Hd), Hr.
    + now exists "-"%char, (String d r').
  - intros H. apply validNumber_body in H as [Hd Hr]. split.
    + simpl. now rewrite (isDigit_numberChar _ Hd), Hr.
    + exists c, r. now rewrite Hd.
Qed.

Lemma span_numberChars (lit rest : string) :
  allChars isNumberChar lit = true -> endsNumber rest = true ->
  span isNumberChar (lit +:+ rest) = (lit, rest).
Proof.
  intros Hlit Hrest. induction lit as [|c lit IH].
  - rewrite append_empty_l. destruct rest as [|x rest]; [reflexivity |].
    simpl in *. apply negb_true_iff in Hrest. now rewrite Hrest.
  - simpl in Hlit. apply andb_true_iff in Hlit as [Hc Hlit].
    rewrite append_cons. simpl. now rewrite Hc, (IH Hlit).
Qed.

Lemma numberStart_facts (c : ascii) :
  (isDigit c || Ascii.eqb c "-") = true ->
  opensValue c = true
  /\ Ascii.eqb c "[" = false /\ Ascii.eqb c "{" = false /\ Ascii.eqb c "034" = false
  /\ Ascii.eqb "t" c = false /\ Ascii.eqb "f" c = false /\ Ascii.eqb "n" c = false.
Proof.
  destruct c as [[] [] [] [] [] [] [] []]; intros H;
    try discriminate H; repeat split; reflexivity.
Qed.

Lemma parseValue_number (fuel : nat) (lit rest : string) :
  validNumber lit = true -> endsNumber rest = true ->
  parseValue (S fuel) (lit +:+ rest) = Some (JNumber lit, rest).
Proof.
  intros Hvalid Hrest.
  destruct (validNumber_shape _ Hvalid) as (Hchars & c & r & -> & Hc).
  destruct (numberStart_facts _ Hc) as (Ho & H1 & H2 & H3 & H4 & H5 & H6).
  destruct (opensValue_facts _ Ho) as (Hws & _ & _).
  rewrite append_cons. cbn [parseValue skipWs]. rewrite Hws, H1, H2, H3.
  unfold parseKeyword. cbn [dropPrefix]. rewrite H4, H5, H6.
  unfold parseLiteral. rewrite <- append_cons.
  now rewrite (span_numberChars _ _ Hchars Hrest), Hvalid.
Qed.

Lemma size_positive (v : json) : (1 <= size v)%nat.
Proof. destruct v; simpl; lia. Qed.

(** What [JSON.stringify] writes opens with a character that opens a
    value. *)
Lemma stringify_opens (v : json) :
  wellFormed v = true ->
  exists c r, JSON_stringify v = String c r /\ opensValue c = true.
Proof.
  destruct v as [| [] | lit | s | items | members]; intros Hwf.
  - now exists "n"%char, "ull".
  - now exists "t"%char, "rue".
  - now exists "f"%char, "alse".
  - destruct (validNumber_shape _ Hwf) as (_ & c & r & -> & Hc).
    exists c, r. split; [reflexivity |]. now apply numberStart_facts.
  - now exists "034"%char, (quoteChars s +:+ DQ).
  - rewrite stringify_array. now eexists "["%char, _.
  - rewrite stringify_object. now eexists "{"%char, _.
Qed.

Lemma stringifyItems_opens (x : json) (l : list json) :
  wellFormed x = true ->
  exists c r, stringifyItems (x :: l) = String c r /\ opensValue c = true.
Proof.
  intros Hwf. destruct (stringify_opens x Hwf) as (c & r & Hx & Hc).
  cbn [stringifyItems]. rewrite Hx.
  destruct l; [now exists c, r | now eexists c, _].
Qed.

Lemma parseElements_step (fuel : nat) (s : string) :
  parseElements (S fuel) s =
  match parseValue fuel s with
  | None => None
  | Some (v, r) =>
      match expect "," (skipWs r) with
      | Some r' =>
          match parseElements fuel r' with
          | Some (vs, r'') => Some (v :: vs, r'')
          | None => None
          end
      | None =>
          match expect "]" (skipWs r) with
          | Some r' => Some ([v], r')
          | None => None
          end
      end
  end.
Proof. reflexivity. Qed.

Lemma parseMembers_step (fuel : nat) (k : string) (s : string) :
  parseMembers (S fuel) (quote k +:+ ":" +:+ s) =
  match parseValue fuel s with
  | None => None
  | Some (v, r3) =>
      match expect "," (skipWs r3) with
      | Some r4 =>
          match parseMembers fuel r4 with
          | Some (ms, r5) => Some ((k, v) :: ms, r5)
          | None => None
          end
      | None =>
          match expect "}" (skipWs r3) with
          | Some r4 => Some ([(k, v)], r4)
          | None => None
          end
      end
  end.
Proof.
  unfold quote. rewrite !append_assoc.
  change (parseMembers (S fuel) (DQ +:+ quoteChars k +:+ DQ +:+ ":" +:+ s))
    with (match parseChars (quoteChars k +:+ DQ +:+ ":" +:+ s) with
          | None => None
          | Some (k', r1) =>
              match expect ":" (skipWs r1) with
              | None => None
              | Some r2 =>
                  match parseValue fuel r2 with
                  | None => None
                  | Some (v, r3) =>
                      match expect "," (skipWs r3) with
                      | Some r4 =>
                          match parseMembers fuel r4 with
                          | Some (ms, r5) => Some ((k', v) :: ms, r5)
                          | None => None
                          end
                      | None =>
                          match expect "}" (skipWs r3) with
                          | Some r4 => Some ([(k', v)], r4)
                          | None => None
                          end
                      end
                  end
              end
          end).
  rewrite parseChars_quoteChars. reflexivity.
Qed.

Lemma parseValue_array (fuel : nat) (c : ascii) (s : string) :
  opensValue c = true ->
  parseValue (S fuel) (String "[" (String c s)) =
  match parseElements fuel (String c s) with
  | Some (vs, r') => Some (JArray vs, r')
  | None => None
  end.
Proof.
  intros Hc. destruct (opensValue_facts _ Hc) as (Hws & Hb & _).
  cbn [parseValue skipWs]. change (isJsonWs "[") with false. cbv iota.
  change (Ascii.eqb "[" "[") with true. cbv iota.
  cbn [skipWs]. rewrite Hws. unfold expect. now rewrite Hb.
Qed.

Lemma parseValue_object (fuel : nat) (c : ascii) (s : string) :
  opensValue c = true ->
  parseValue (S fuel) (String "{" (String c s)) =
  match parseMembers fuel (String c s) with
  | Some (ms, r') => Some (JObject ms, r')
  | None => None
  end.
Proof.
  intros Hc. destruct (opensValue_facts _ Hc) as (Hws & _ & Hb).
  cbn [parseValue skipWs]. change (isJsonWs "{") with false. cbv iota.
  change (Ascii.eqb "{" "[") with false. change (Ascii.eqb "{" "{") with true.
  cbv iota. cbn [skipWs]. rewrite Hws. unfold expect. now rewrite Hb.
Qed.

Lemma parse_stringify_fuel (fuel : nat) :
  (forall v rest,
      wellFormed v = true -> (size v <= fuel)%nat -> endsNumber rest = true ->
      parseValue fuel (JSON_stringify v +:+ rest) = Some (v, rest))
  /\ (forall x l rest,
        forallb wellFormed (x :: l) = true -> (sizeItems (x :: l) <= fuel)%nat ->
        parseElements fuel (stringifyItems (x :: l) +:+ "]" +:+ rest)
        = Some (x :: l, rest))
  /\ (forall k x l rest,
        forallb (fun m => wellFormed (snd m)) ((k, x) :: l) = true ->
        (sizeMembers ((k, x) :: l) <= fuel)%nat ->
        parseMembers fuel (stringifyMembers ((k, x) :: l) +:+ "}" +:+ rest)
        = Some ((k, x) :: l, rest)).
Proof.
  induction fuel as [|fuel (IHv & IHe & IHm)].
  { split; [| split]; intros.
    - pose proof (size_positive v). lia.
    - simpl in *. lia.
    - simpl in *. lia. }
  split; [| split].
  - intros v rest Hwf Hsize Hrest.
    destruct v as [| [] | lit | s | items | members].
    + reflexivity.
    + reflexivity.
    + reflexivity.
    + now apply parseValue_number.
    + cbn [JSON_stringify]. unfold quote. rewrite !append_assoc.
      change (DQ +:+ quoteChars s +:+ DQ +:+ rest)
        with (String "034" (quoteChars s +:+ DQ +:+ rest)).
      cbn [parseValue skipWs]. change (isJsonWs "034") with false. cbv iota.
      change (Ascii.eqb "034" "[") with false.
      change (Ascii.eqb "034" "{") with false.
      change (Ascii.eqb "034" "034") with true. cbv iota.
      now rewrite parseChars_quoteChars.
    + rewrite stringify_array. destruct items as [|x l]; [reflexivity |].
      rewrite size_array in Hsize. cbn [wellFormed] in Hwf.
      assert (Hx : wellFormed x = true) by (now apply andb_true_iff in Hwf as [? _]).
      destruct (stringifyItems_opens x l Hx) as (c & r & Hs & Hc).
      rewrite !append_assoc, append_cons, append_empty_l.
      pose proof (IHe x l rest Hwf ltac:(lia)) as Hparse.
      rewrite Hs in *. rewrite append_cons in *.
      now rewrite (parseValue_array _ _ _ Hc), Hparse.
    + rewrite stringify_object. destruct members as [|[k x] l]; [reflexivity |].
      rewrite size_object in Hsize. cbn [wellFormed] in Hwf.
      pose proof (IHm k x l rest Hwf ltac:(lia)) as Hparse.
      rewrite !append_assoc, append_cons, append_empty_l.
      assert (Hs : exists r, stringifyMembers ((k, x) :: l) = String "034" r).
      { cbn [stringifyMembers]. unfold quote. destruct l; eexists; reflexivity. }
      destruct Hs as (r & Hs). rewrite Hs in *. rewrite append_cons in *.
      now rewrite (parseValue_object _ "034" _ eq_refl), Hparse.
  - intros x l rest Hwf Hsize.
    cbn [forallb] in Hwf. apply andb_true_iff in Hwf as [Hx Hl].
    cbn [sizeItems] in Hsize. rewrite parseElements_step.
    destruct l as [|y l'].
    + cbn [stringifyItems].
      rewrite (IHv x ("]" +:+ rest) Hx ltac:(lia) eq_refl). reflexivity.
    + change (stringifyItems (x :: y :: l'))
        with (JSON_stringify x +:+ "," +:+ stringifyItems (y :: l')).
      rewrite !append_assoc.
      rewrite (IHv x ("," +:+ stringifyItems (y :: l') +:+ "]" +:+ rest) Hx
                 ltac:(lia) eq_refl).
      change (expect "," (skipWs ("," +:+ stringifyItems (y :: l') +:+ "]" +:+ rest)))
        with (Some (stringifyItems (y :: l') +:+ "]" +:+ rest)).
      cbv iota. now rewrite (IHe y l' rest Hl ltac:(lia)).
  - intros k x l rest Hwf Hsize.
    cbn [forallb snd] in Hwf. apply andb_true_iff in Hwf as [Hx Hl].
    cbn [sizeMembers] in Hsize.
    destruct l as [|[k' y] l'].
    + cbn [stringifyMembers]. rewrite !append_assoc, parseMembers_step.
      rewrite (IHv x ("}" +:+ rest) Hx ltac:(lia) eq_refl). reflexivity.
    + change (stringifyMembers ((k, x) :: (k', y) :: l'))
        with (quote k +:+ ":" +:+ JSON_stringify x +:+ ","
              +:+ stringifyMembers ((k', y) :: l')).
      rewrite !append_assoc, parseMembers_step.
      rewrite (IHv x ("," +:+ stringifyMembers ((k', y) :: l') +:+ "}" +:+ rest) Hx
                 ltac:(lia) eq_refl).
      change (expect ","
                (skipWs ("," +:+ stringifyMembers ((k', y) :: l') +:+ "}" +:+ rest)))
        with (Some (stringifyMembers ((k', y) :: l') +:+ "}" +:+ rest)).
      cbv iota. now rewrite (IHm k' y l' rest Hl ltac:(lia)).
Qed.

Lemma size_bound (n : nat) :
  (forall v, (size v <= n)%nat ->
             (size v <= 1 + 2 * String.length (JSON_stringify v))%nat)
  /\ (forall items, (sizeItems items <= n)%nat ->
                    (sizeItems items <= 2 + 2 * String.length (stringifyItems items))%nat)
  /\ (forall members, (sizeMembers members <= n)%nat ->
                      (sizeMembers members
                       <= 2 + 2 * String.length (stringifyMembers members))%nat).
Proof.
  induction n as [|n (IHv & IHe & IHm)].
  { split; [| split].
    - intros v H. pose proof (size_positive v). lia.
    - intros [|x l] H; simpl in *; lia.
    - intros [|[k x] l] H; simpl in *; lia. }
  split; [| split].
  - intros v Hsize. destruct v as [| b | lit | s | items | members];
      try (simpl; lia).
    + rewrite size_array in *. rewrite stringify_array, !length_append.
      pose proof (IHe items ltac:(lia)). simpl String.length. lia.
    + rewrite size_object in *. rewrite stringify_object, !length_append.
      pose proof (IHm members ltac:(lia)). simpl String.length. lia.
  - intros [|x l] Hsize; [simpl; lia |]. cbn [sizeItems] in *.
    pose proof (IHv x ltac:(lia)) as Hx. pose proof (IHe l ltac:(lia)) as Hl.
    destruct l as [|y l'].
    + cbn [stringifyItems sizeItems] in *. lia.
    + change (stringifyItems (x :: y :: l'))
        with (JSON_stringify x +:+ "," +:+ stringifyItems (y :: l')).
      rewrite !length_append. change (String.length ",") with 1%nat. lia.
  - intros [|[k x] l] Hsize; [simpl; lia |]. cbn [sizeMembers] in *.
    pose proof (IHv x ltac:(lia)) as Hx. pose proof (IHm l ltac:(lia)) as Hl.
    destruct l as [|[k' y] l'].
    + cbn [stringifyMembers sizeMembers] in *. rewrite !length_append. lia.
    + change (stringifyMembers ((k, x) :: (k', y) :: l'))
        with (quote k +:+ ":" +:+ JSON_stringify x +:+ ","
              +:+ stringifyMembers ((k', y) :: l')).
      rewrite !length_append. change (String.length ",") with 1%nat. lia.
Qed.

(** [JSON.parse(JSON.stringify(v))] is [v] for every value whose numbers
    are JSON literals. *)
Theorem JSON_parse_stringify (v : json) :
  wellFormed v = true -> JSON_parse (JSON_stringify v) = Some v.
Proof.
  intros Hwf. unfold JSON_parse.
  set (text := JSON_stringify v).
  assert (Hfuel : (size v <= 2 + 2 * String.length text)%nat).
  { pose proof (proj1 (size_bound (size v)) v (le_n _)). subst text. lia. }
  pose proof (proj1 (parse_stringify_fuel (2 + 2 * String.length text))
                v EmptyString Hwf Hfuel eq_refl) as Hparse.
  fold text in Hparse. rewrite append_empty_r in Hparse. now rewrite Hparse.
Qed.

Ltac split_parse H :=
  repeat match type of H with
         | match ?x with _ => _ end = Some _ =>
             let E := fresh "E" in destruct x eqn:E; try discriminate H
         | (let '(_, _) := ?x in _) = Some _ =>
             let E := fresh "E" in destruct x eqn:E
         end.

Lemma parse_wellFormed_fuel (fuel : nat) :
  (forall s v r, parseValue fuel s = Some (v, r) -> wellFormed v = true)
  /\ (forall s vs r, parseElements fuel s = Some (vs, r) ->
                     forallb wellFormed vs = true)
  /\ (forall s ms r, parseMembers fuel s = Some (ms, r) ->
                     forallb (fun m => wellFormed (snd m)) ms = true).
Proof.
  induction fuel as [|fuel (IHv & IHe & IHm)];
    [split; [| split]; intros; discriminate |].
  split; [| split].
  - intros s v r H. cbn [parseValue] in H. unfold parseKeyword, parseLiteral in H.
    split_parse H; injection H as <- <-; try reflexivity.
    + cbn [wellFormed]. eapply IHe; eassumption.
    + cbn [wellFormed]. eapply IHm; eassumption.
    + assumption.
  - intros s vs r H. rewrite parseElements_step in H.
    split_parse H; injection H as <- <-; cbn [forallb].
    + erewrite IHv by eassumption. eapply IHe; eassumption.
    + erewrite IHv by eassumption. reflexivity.
  - intros s ms r H. cbn [parseMembers] in H.
    split_parse H; injection H as <- <-; cbn [forallb snd].
    + erewrite IHv by eassumption. eapply IHm; eassumption.
    + erewrite IHv by eassumption. reflexivity.
Qed.

(** Every number in a value [JSON.parse] returns is a JSON literal. *)
Lemma JSON_parse_wellFormed (s : string) (v : json) :
  JSON_parse s = Some v -> wellFormed v = true.
Proof.
  unfold JSON_parse. intros H. split_parse H. injection H as <-.
  eapply (proj1 (parse_wellFormed_fuel _)); eassumption.
Qed.

(** ** A second call is a cache hit *)

Section RetryInvariant.
Context {T S U : Type}.
Variable requestFn : S -> Outcome T * S.
Variable onRetry : option (nat -> Z -> U -> U).

Lemma outcome_later (evs : list RetryEvent) (r : Run T S U) :
  outcome (later evs r) = outcome r.
Proof. reflexivity. Qed.

Lemma final_later (evs : list RetryEvent) (r : Run T S U) :
  final (later evs r) = final r.
Proof. reflexivity. Qed.

(** When the wrapper resolves, the call that succeeded started from a state
    reached through failed calls only, and left the final state. *)
Lemma retryLoop_success (I : S -> Prop) :
  (forall s e s', I s -> requestFn s = (Rejected e, s') -> I s') ->
  forall remaining lastError s u v,
    I s ->
    outcome (retryLoop requestFn onRetry remaining lastError s u) = Fulfilled v ->
    exists s0, I s0
      /\ requestFn s0
         = (Fulfilled v, final (retryLoop requestFn onRetry remaining lastError s u)).
Proof.
  intros Hstep. induction remaining as [|n IH]; intros lastError s u v Hs Hout.
  - discriminate Hout.
  - cbn [retryLoop] in *. destruct (requestFn s) as [[v'|e] s'] eqn:Hcall.
    + injection Hout as <-. exists s. now rewrite Hcall.
    + destruct (isRetryable (toError e) && _); [| discriminate Hout].
      destruct (notify onRetry _ _ u) as [u' told].
      rewrite outcome_later in Hout. rewrite final_later.
      apply (IH _ s' u' v); [| exact Hout]. exact (Hstep s e s' Hs Hcall).
Qed.

(** Each attempt is one call of the operation. *)
Lemma retryLoop_measure (mu : S -> nat) :
  (forall s, (mu (snd (requestFn s)) <= mu s + 1)%nat) ->
  forall remaining lastError s u,
    (mu (final (retryLoop requestFn onRetry remaining lastError s u))
     <= mu s + remaining)%nat.
Proof.
  intros Hstep. induction remaining as [|n IH]; intros lastError s u.
  - simpl. lia.
  - cbn [retryLoop]. pose proof (Hstep s) as H1.
    destruct (requestFn s) as [[v'|e] s'] eqn:Hcall; simpl in H1.
    + simpl. lia.
    + destruct (isRetryable (toError e) && _); [| simpl; lia].
      destruct (notify onRetry _ _ u) as [u' told].
      rewrite final_later. pose proof (IH (Some (toError e)) s' u'). lia.
Qed.

End RetryInvariant.

Lemma cache_get_storage (key : string) (w w' : World) :
  sessionStorage w' = sessionStorage w -> cache.get key w' = cache.get key w.
Proof. intros H. unfold cache.get. now rewrite H. Qed.

(** What an accepted write stores is what the next read returns. *)
Lemma cache_get_set (key : string) (v : json) (w : World) :
  storageAccepts w (sessionStorage w) (cache.PREFIX +:+ key) (JSON_stringify v) = true ->
  wellFormed v = true ->
  cache.get key (cache.set key v w) = v.
Proof.
  intros Hacc Hwf. unfold cache.set. rewrite Hacc. unfold cache.get. simpl.
  now rewrite lookup_insert_eq, (JSON_parse_stringify v Hwf).
Qed.

Lemma startsWith_append (p s : string) : startsWith (p +:+ s) p = true.
Proof. apply startsWith_spec. now exists s. Qed.

(** After [clearAll] every read is a miss. *)
Lemma cache_get_clearAll (key : string) (w : World) :
  cache.get key (cache.clearAll w) = JNull.
Proof.
  unfold cache.get, cache.clearAll. cbn [sessionStorage withStorage].
  rewrite map_lookup_filter_None_2; [reflexivity |].
  right. intros item _ H. cbn [fst] in H.
  rewrite startsWith_append in H. discriminate H.
Qed.

Lemma artOf_object (w : World) (parsed : json) (art : option json) :
  artOf w parsed = inr art -> invalidArt art = false ->
  exists members, parsed = JObject members.
Proof.
  destruct parsed as [| b | n | s | l | ms]; simpl; intros H Hvalid;
    try discriminate H; try (injection H as <-; discriminate Hvalid).
  now exists ms.
Qed.

Lemma readJson_wellFormed (w : World) (reply : Reply) (parsed : json) :
  readJson w reply = inr parsed -> wellFormed parsed = true.
Proof.
  destruct reply as [[text|]|error]; simpl; try discriminate.
  destruct (JSON_parse (stripFence text)) as [v|] eqn:Hparse; [| discriminate].
  intros H. injection H as <-. exact (JSON_parse_wellFormed _ _ Hparse).
Qed.

Section AncillaryCall.
Variables topic modelId cacheKey : string.

Lemma ancillaryApiCall_rejected (w w' : World) (e : thrown) :
  ancillaryApiCall topic modelId cacheKey w = (Rejected e, w') ->
  sessionStorage w' = sessionStorage w
  /\ storageAccepts w' = storageAccepts w
  /\ settings w' = settings w.
Proof.
  unfold ancillaryApiCall, ancillaryTry, generateContent.
  destruct (getAiInstance w); [intros H; injection H as _ <-; auto |].
  destruct (readJson _ _) as [error|parsed];
    [intros H; injection H as _ <-; auto |].
  destruct (artOf _ parsed) as [error|art];
    [intros H; injection H as _ <-; auto |].
  destruct (invalidArt art); [intros H; injection H as _ <-; auto | discriminate].
Qed.

Lemma ancillaryApiCall_fulfilled (w w' : World) (v : json) :
  ancillaryApiCall topic modelId cacheKey w = (Fulfilled v, w') ->
  w' = cache.set cacheKey v
         (withSent w (sent w ++ [ancillaryRequest topic modelId w]))
  /\ wellFormed v = true
  /\ truthy v = true.
Proof.
  unfold ancillaryApiCall, ancillaryTry, generateContent.
  destruct (getAiInstance w); [discriminate |].
  destruct (readJson _ _) as [error|parsed] eqn:Hread; [discriminate |].
  destruct (artOf _ parsed) as [error|art] eqn:Hart; [discriminate |].
  destruct (invalidArt art) eqn:Hvalid; [discriminate |].
  intros H. injection H as <- <-. split; [reflexivity |].
  split; [exact (readJson_wellFormed _ _ _ Hread) |].
  destruct (artOf_object _ _ _ Hart Hvalid) as (ms & ->). reflexivity.
Qed.

Lemma sent_cache_set (key : string) (v : json) (w : World) :
  sent (cache.set key v w) = sent w.
Proof. unfold cache.set. now destruct (storageAccepts _ _ _ _). Qed.

Lemma ancillaryApiCall_sent (w : World) :
  (length (sent (snd (ancillaryApiCall topic modelId cacheKey w)))
   <= length (sent w) + 1)%nat.
Proof.
  unfold ancillaryApiCall, ancillaryTry, generateContent.
  destruct (getAiInstance w); [simpl; lia |].
  destruct (readJson _ _) as [error|parsed];
    [simpl; rewrite length_app; simpl; lia |].
  destruct (artOf _ parsed) as [error|art];
    [simpl; rewrite length_app; simpl; lia |].
  destruct (invalidArt art); simpl; rewrite ?sent_cache_set; simpl;
    rewrite length_app; simpl; lia.
Qed.

End AncillaryCall.

(** ** A backend that is out of quota *)

Lemma ancillaryApiCall_failure (topic modelId cacheKey : string) (w : World)
  (apiKey : string) (error : thrown) :
  settingsService.getApiKey w = Some apiKey ->
  backend w (length (sent w)) (ancillaryRequest topic modelId w) = ReplyFailure error ->
  ancillaryApiCall topic modelId cacheKey w
  = (Rejected (ThrownError (handleGeminiError error (ancillaryContext topic))),
     withSent w (sent w ++ [ancillaryRequest topic modelId w])).
Proof.
  intros Hkey Hreply. unfold ancillaryApiCall, ancillaryTry, generateContent.
  now rewrite (getAiInstance_keyed _ _ Hkey), Hreply.
Qed.

(** When the backend answers three requests in a row with an error that
    carries a rate-limit marker, [generateAncillaryData] makes its three
    attempts, tells the observer (1, 2000) and (2, 4000), and rejects with
    the fixed rate-limit message. *)
Lemma ancillary_exhausts_on_rate_limit {U : Type}
  (onRetry : option (nat -> Z -> U -> U)) (topic : string) (w : World) (u : U)
  (apiKey : string) (e1 e2 e3 : thrown) :
  let modelId := settingsService.getActiveModelId w in
  let request := ancillaryRequest topic modelId w in
  let n := length (sent w) in
  truthy (cache.get (ancillaryKey modelId topic) w) = false ->
  settingsService.getApiKey w = Some apiKey ->
  backend w n request = ReplyFailure e1 ->
  backend w (S n) request = ReplyFailure e2 ->
  backend w (S (S n)) request = ReplyFailure e3 ->
  hasRateLimitMarker (messageOf e1) = true ->
  hasRateLimitMarker (messageOf e2) = true ->
  hasRateLimitMarker (messageOf e3) = true ->
  let run := generateAncillaryData topic onRetry w u in
  outcome run = Rejected (ThrownError (mkError RATE_LIMIT_MESSAGE))
  /\ attempts (trace run) = 3%nat
  /\ notifications (trace run)
     = match onRetry with
       | Some _ => [(1%nat, 2000); (2%nat, 4000)]
       | None => []
       end
  /\ sent (final run) = sent w ++ [request; request; request]
  /\ sessionStorage (final run) = sessionStorage w.
Proof.
  intros modelId request n Hmiss Hkey H1 H2 H3 M1 M2 M3 run. subst run.
  rewrite (ancillary_miss _ _ _ _ Hmiss). fold modelId.
  set (w1 := withSent w (sent w ++ [request])).
  set (w2 := withSent w1 (sent w1 ++ [request])).
  set (w3 := withSent w2 (sent w2 ++ [request])).
  assert (L1 : length (sent w1) = S n)
    by (unfold w1; cbn [sent withSent]; rewrite length_app; cbn [length]; lia).
  assert (L2 : length (sent w2) = S (S n))
    by (unfold w2; cbn [sent withSent]; rewrite length_app, L1; cbn [length]; lia).
  rewrite (retry_three_failures _ _ w w1 w2 w3 u
             (ThrownError (handleGeminiError e1 (ancillaryContext topic)))
             (ThrownError (handleGeminiError e2 (ancillaryContext topic)))
             (ThrownError (handleGeminiError e3 (ancillaryContext topic)))).
  - cbn [outcome trace final toError]. unfold handleGeminiError at 1. rewrite M3.
    split; [reflexivity |]. unfold notify.
    split; [destruct onRetry; reflexivity |].
    split; [destruct onRetry; reflexivity |].
    split; [| reflexivity].
    unfold w3, w2, w1. cbn [sent withSent]. now rewrite <- !app_assoc.
  - exact (ancillaryApiCall_failure topic modelId _ w apiKey e1 Hkey H1).
  - exact (rate_limit_error_retryable _ _ M1).
  - apply (ancillaryApiCall_failure topic modelId _ w1 apiKey e2 Hkey).
    rewrite L1. exact H2.
  - exact (rate_limit_error_retryable _ _ M2).
  - apply (ancillaryApiCall_failure topic modelId _ w2 apiKey e3 Hkey).
    rewrite L2. exact H3.
Qed.

Lemma ancillaryKey_folds (modelId topic topic2 : string) :
  toLowerCase topic2 = toLowerCase topic ->
  ancillaryKey modelId topic2 = ancillaryKey modelId topic.
Proof. intros H. unfold ancillaryKey, cacheKeyOf. now rewrite H. Qed.

(** After a call that resolved, the cache holds under the key of the call a
    value that the guard of the next call accepts. *)
Lemma ancillary_resolved_cached {U : Type} (onRetry : option (nat -> Z -> U -> U))
  (topic : string) (w : World) (u : U) (value : json) :
  let cacheKey := ancillaryKey (settingsService.getActiveModelId w) topic in
  let run := generateAncillaryData topic onRetry w u in
  outcome run = Fulfilled value ->
  storageAccepts w (sessionStorage w) (cache.PREFIX +:+ cacheKey)
    (JSON_stringify value) = true ->
  truthy (cache.get cacheKey (final run)) = true
  /\ (length (sent (final run)) <= length (sent w) + MAX_RETRIES)%nat.
Proof.
  intros cacheKey run Hout Hacc. subst run. unfold generateAncillaryData in *.
  fold cacheKey in Hout |- *.
  destruct (truthy (cache.get cacheKey w)) eqn:Hhit.
  - simpl. split; [exact Hhit | lia].
  - unfold geminiRequestWithRetry in *. split.
    + destruct (retryLoop_success
                  (ancillaryApiCall topic (settingsService.getActiveModelId w) cacheKey)
                  onRetry
                  (fun w' => sessionStorage w' = sessionStorage w
                             /\ storageAccepts w' = storageAccepts w)
                  ltac:(intros s e s' [H1 H2] Hcall;
                        destruct (ancillaryApiCall_rejected _ _ _ _ _ _ Hcall)
                          as (H3 & H4 & _); split; congruence)
                  MAX_RETRIES None w u value (conj eq_refl eq_refl) Hout)
        as (w0 & [Hst Hac] & Hcall).
      destruct (ancillaryApiCall_fulfilled _ _ _ _ _ _ Hcall) as (-> & Hwf & Htruthy).
      rewrite cache_get_set; [exact Htruthy | | exact Hwf].
      simpl. now rewrite Hac, Hst.
    + apply (retryLoop_measure _ _ (fun w' => length (sent w'))).
      intros s. apply ancillaryApiCall_sent.
Qed.

(** ** The streaming generator under failure *)

Lemma startsWith_across (c : ascii) (n a b : string) :
  lacksChar c n = true ->
  startsWith (a +:+ String c b) n = startsWith a n.
Proof.
  unfold lacksChar. revert a. induction n as [|x n IH]; intros a Hn; [reflexivity |].
  simpl in Hn. apply andb_true_iff in Hn as [Hx Hn].
  destruct a as [|y a].
  - rewrite append_empty_l. simpl. now apply negb_true_iff in Hx as ->.
  - rewrite append_cons. simpl. destruct (Ascii.eqb x y); [now apply IH | reflexivity].
Qed.

(** A needle cannot straddle a character it does not hold. *)
Lemma includes_across (c : ascii) (n a b : string) :
  lacksChar c n = true ->
  includes (a +:+ String c b) n = includes a n || includes b n.
Proof.
  intros Hn. induction a as [|y a IH].
  - rewrite append_empty_l. cbn [includes].
    pose proof (startsWith_across c n EmptyString b Hn) as H.
    rewrite append_empty_l in H. rewrite H. now rewrite orb_false_r.
  - rewrite append_cons. cbn [includes]. rewrite IH.
    pose proof (startsWith_across c n (String y a) b Hn) as H.
    rewrite append_cons in H. rewrite H. now rewrite orb_assoc.
Qed.

(** The error the classifier builds for a failure that is no rate limit
    is not retried, as long as the caller's context does not itself spell
    the phrase the retry loops look for. *)
Lemma fatal_error_not_retryable (error : thrown) (context : string) :
  hasRateLimitMarker (messageOf error) = false ->
  includes context "API rate limit exceeded" = false ->
  isRetryable (handleGeminiError error context) = false.
Proof.
  intros Hmark Hctx. unfold handleGeminiError. rewrite Hmark.
  unfold isRetryable. cbn [message].
  assert (Hmsg : includes (messageOf error) "API rate limit exceeded" = false).
  { apply includes_false_spec. intros H.
    assert (Hrl : Contains (messageOf error) "rate limit").
    { apply (Contains_trans _ _ _ H). now exists "API ", " exceeded". }
    apply includes_spec in Hrl. unfold hasRateLimitMarker in Hmark.
    rewrite Hrl, orb_true_r in Hmark. discriminate Hmark. }
  change ("Could not " +:+ context +:+ ". " +:+ messageOf error)
    with ("Could no" +:+ String "t" (String " " (context +:+ ". " +:+ messageOf error))).
  pose proof (includes_across "." "API rate limit exceeded" context
                (String " " (messageOf error)) eq_refl) as Hdot.
  change (context +:+ String "." (String " " (messageOf error)))
    with (context +:+ ". " +:+ messageOf error) in Hdot.
  assert (Hin : includes (context +:+ ". " +:+ messageOf error)
                  "API rate limit exceeded" = false).
  { rewrite Hdot, Hctx. cbn [includes startsWith orb]. exact Hmsg. }
  assert (Hstart : startsWith (context +:+ ". " +:+ messageOf error)
                     "API rate limit exceeded"
                   = true -> False).
  { intros H. assert (includes (context +:+ ". " +:+ messageOf error)
                        "API rate limit exceeded" = true).
    { destruct (context +:+ ". " +:+ messageOf error); cbn [includes];
        now rewrite H. }
    congruence. }
  set (rest := context +:+ ". " +:+ messageOf error) in *.
  cbn [includes startsWith String.append]. simpl.
  destruct (startsWith rest "API rate limit exceeded") eqn:Hs;
    [now contradiction Hstart |].
  exact Hin.
Qed.

Lemma quoted_context_phrase (prefix topic : string) :
  includes prefix "API rate limit exceeded" = false ->
  includes topic "API rate limit exceeded" = false ->
  includes (prefix +:+ DQ +:+ topic +:+ DQ) "API rate limit exceeded" = false.
Proof.
  intros Hp Ht.
  change (prefix +:+ DQ +:+ topic +:+ DQ)
    with (prefix +:+ String "034" (topic +:+ String "034" EmptyString)).
  rewrite !includes_across by reflexivity. rewrite Hp, Ht. reflexivity.
Qed.

Lemma streamContext_phrase (query : string) :
  includes query "API rate limit exceeded" = false ->
  includes (streamContext query) "API rate limit exceeded" = false.
Proof. intros H. now apply quoted_context_phrase. Qed.

Lemma retryChunk_sentinel (delay : Z) :
  startsWith (retryChunk delay) RETRY_SENTINEL = true.
Proof. reflexivity. Qed.

Section StreamRetry.
Variables (query : string) (file : option (string * string)) (w : World).
Variable apiKey : string.
Hypothesis Hkey : settingsService.getApiKey w = Some apiKey.

Let request : Request :=
  streamRequest query file (settingsService.getActiveModelId w).
Let n : nat := length (sent w).

(** A failure that is no rate limit ends the generator with the normalised
    error and no status chunk, for every query that does not spell the
    phrase of the rate-limit message. *)
Lemma stream_raises_fatal_error (cs : list (option string)) (error : thrown) :
  backendStream w n request = mkStreamReply cs (Some error) ->
  hasRateLimitMarker (messageOf error) = false ->
  includes query "API rate limit exceeded" = false ->
  streamDefinition query file w
  = mkStream (forward cs)
      (Some (ThrownError (handleGeminiError error (streamContext query))))
      (withSent w (sent w ++ [request])).
Proof using Hkey.
  intros Hreply Hmark Hquery. unfold streamDefinition.
  rewrite (getAiInstance_keyed _ _ Hkey). fold request.
  unfold MAX_RETRIES. cbn [streamLoop]. unfold generateContentStream.
  fold n. rewrite Hreply. cbn [failure chunks].
  now rewrite (fatal_error_not_retryable _ _ Hmark (streamContext_phrase _ Hquery)).
Qed.

(** A rate-limit failure with attempts left: one status chunk that opens
    with the sentinel, then the pause, then the next attempt. *)
Lemma stream_retries_rate_limit (cs : list (option string)) (error : thrown) :
  backendStream w n request = mkStreamReply cs (Some error) ->
  hasRateLimitMarker (messageOf error) = true ->
  let next := streamLoop 2 query request (withSent w (sent w ++ [request])) in
  streamDefinition query file w
  = mkStream (forward cs ++ Yield (retryChunk 2000) :: Pause 2000 :: events next)
      (ending next) (after next).
Proof using Hkey.
  intros Hreply Hmark next. unfold streamDefinition.
  rewrite (getAiInstance_keyed _ _ Hkey). fold request.
  unfold MAX_RETRIES. cbn [streamLoop]. unfold generateContentStream at 1.
  fold n. rewrite Hreply. cbn [failure chunks].
  now rewrite (rate_limit_error_retryable _ _ Hmark).
Qed.

(** Three rate-limit failures: two status chunks, then the rate-limit
    error is raised. *)
Lemma stream_raises_when_exhausted (c1 c2 c3 : list (option string))
  (e1 e2 e3 : thrown) :
  backendStream w n request = mkStreamReply c1 (Some e1) ->
  backendStream w (S n) request = mkStreamReply c2 (Some e2) ->
  backendStream w (S (S n)) request = mkStreamReply c3 (Some e3) ->
  hasRateLimitMarker (messageOf e1) = true ->
  hasRateLimitMarker (messageOf e2) = true ->
  hasRateLimitMarker (messageOf e3) = true ->
  let st := streamDefinition query file w in
  events st
  = forward c1 ++ Yield (retryChunk 2000) :: Pause 2000
      :: forward c2 ++ Yield (retryChunk 4000) :: Pause 4000 :: forward c3
  /\ ending st = Some (ThrownError (mkError RATE_LIMIT_MESSAGE))
  /\ length (sent (after st)) = (n + 3)%nat.
Proof using Hkey.
  intros H1 H2 H3 M1 M2 M3 st. subst st.
  rewrite (stream_retries_rate_limit c1 e1 H1 M1).
  cbn [streamLoop events ending after]. unfold generateContentStream.
  cbn [sent backendStream withSent]. rewrite !length_app. cbn [length].
  fold n. replace (n + 1)%nat with (S n) by lia.
  replace (S n + 1)%nat with (S (S n)) by lia.
  rewrite H2, H3. cbn [failure chunks].
  rewrite (rate_limit_error_retryable _ _ M2), (rate_limit_error_retryable _ _ M3).
  cbn. rewrite !length_app. cbn [length]. fold n.
  unfold handleGeminiError. rewrite M3.
  repeat split; try reflexivity. lia.
Qed.

End StreamRetry.

(** C6, at the input on which the generator departs from it.  The three
    lemmas above give the behaviour C6 states for every query that does not
    spell the phrase "API rate limit exceeded".  Here the query is that
    phrase; the first stream fails with "Failed to fetch", which the
    classifier does not take for a rate limit, and the normalised error
    says so ("Could not ..."); yet the generator yields the retry chunk,
    pauses and starts a second attempt in place of raising the normalised
    error. *)
Theorem stream_retries_fatal_error_on_phrase_query :
  let error := ThrownError (mkError "Failed to fetch") in
  let query := "API rate limit exceeded" in
  let st := streamDefinition query None flakyWorld in
  hasRateLimitMarker (messageOf error) = false
  /\ message (handleGeminiError error (streamContext query))
     = "Could not generate content for " +:+ DQ +:+ query +:+ DQ +:+ ". Failed to fetch"
  /\ events st
     = [Yield "[SYSTEM:RETRY]Rate limit exceeded. Retrying in 2s...";
        Pause 2000; Yield "A quota."]
  /\ ending st = None
  /\ length (sent (after st)) = 2%nat.
Proof. vm_compute. repeat split; reflexivity. Qed.

(* ================================================================== *)
(** * Further properties of the services *)
(* ================================================================== *)

(** ** The shape of every run of the wrapper *)

Section RetryShape.
Context {T S U : Type}.
Variable requestFn : S -> Outcome T * S.
Variable onRetry : option (nat -> Z -> U -> U).

(** A run that rejects has made at least one call; the state it leaves is
    reached through failed calls only, and the reason is the error of the
    last of them. *)
Lemma retryLoop_failure (I : S -> Prop) :
  (forall s e s', I s -> requestFn s = (Rejected e, s') -> I s') ->
  forall remaining lastError s u reason,
    (1 <= remaining <= MAX_RETRIES)%nat ->
    I s ->
    outcome (retryLoop requestFn onRetry remaining lastError s u) = Rejected reason ->
    I (final (retryLoop requestFn onRetry remaining lastError s u))
    /\ exists s0 e,
         I s0
         /\ requestFn s0
            = (Rejected e, final (retryLoop requestFn onRetry remaining lastError s u))
         /\ reason = ThrownError (toError e).
Proof.
  intros Hstep. induction remaining as [|n IH]; intros lastError s u reason Hn Hs Hout.
  - lia.
  - cbn [retryLoop] in *. destruct (requestFn s) as [[v|e] s'] eqn:Hcall.
    + discriminate Hout.
    + pose proof (Hstep s e s' Hs Hcall) as Hs'.
      destruct (isRetryable (toError e)); cbn [andb] in *.
      * destruct (MAX_RETRIES - Datatypes.S n <? MAX_RETRIES - 1)%nat eqn:Hlt.
        -- destruct (notify onRetry _ _ u) as [u' told].
           rewrite outcome_later in Hout. rewrite final_later.
           apply Nat.ltb_lt in Hlt. unfold MAX_RETRIES in *.
           apply (IH (Some (toError e)) s' u' reason); [lia | exact Hs' | exact Hout].
        -- cbn [outcome final] in *. injection Hout as <-.
           split; [exact Hs' |]. exists s, e. now rewrite Hcall.
      * cbn [outcome final] in *. injection Hout as <-.
        split; [exact Hs' |]. exists s, e. now rewrite Hcall.
Qed.

(** The events of a run are one of the three schedules. *)
Lemma retry_schedule (s : S) (u : U) :
  exists k,
    (k <= 2)%nat
    /\ trace (geminiRequestWithRetry requestFn onRetry s u)
       = retrySchedule (match onRetry with Some _ => true | None => false end) k.
Proof.
  unfold geminiRequestWithRetry, MAX_RETRIES. cbn [retryLoop].
  destruct (requestFn s) as [[v1|e1] s1].
  { exists 0%nat. split; [lia | now destruct onRetry]. }
  destruct (isRetryable (toError e1)); cbn [andb Nat.sub Nat.ltb Nat.leb];
    [| exists 0%nat; split; [lia | now destruct onRetry]].
  unfold notify.
  destruct (requestFn s1) as [[v2|e2] s2].
  { exists 1%nat. split; [lia | now destruct onRetry]. }
  destruct (isRetryable (toError e2)); cbn [andb].
  - destruct (requestFn s2) as [[v3|e3] s3].
    + exists 2%nat. split; [lia | now destruct onRetry].
    + exists 2%nat. rewrite andb_false_r. split; [lia | now destruct onRetry].
  - exists 1%nat. split; [lia | now destruct onRetry].
Qed.

Lemma retry_attempts_bound (s : S) (u : U) :
  (1 <= attempts (trace (geminiRequestWithRetry requestFn onRetry s u)) <= 3)%nat.
Proof.
  destruct (retry_schedule s u) as (k & Hk & ->).
  destruct k as [|[|[|k]]]; [| | | lia]; destruct onRetry; cbn; lia.
Qed.

(** X1.  Every run of [geminiRequestWithRetry],
    whatever the operation does, is one of three schedules: the call alone,
    or one or two failed calls before the last one, each followed by the
    notification of the observer (when there is one) and the sleep.  So the
    operation is called between one and three times, the observer is told
    (1, 2000) and then (2, 4000) at most, and the run sleeps 0, 2000 or 6000
    milliseconds in all. *)
Theorem retry_run_follows_schedule (s : S) (u : U) :
  let run := geminiRequestWithRetry requestFn onRetry s u in
  let told := match onRetry with Some _ => true | None => false end in
  exists k,
    (k <= 2)%nat
    /\ trace run = retrySchedule told k
    /\ attempts (trace run) = Datatypes.S k
    /\ notifications (trace run)
       = (if told then firstn k [(1%nat, 2000); (2%nat, 4000)] else [])
    /\ slept (trace run) = match k with O => 0 | 1%nat => 2000 | _ => 6000 end.
Proof.
  intros run told. subst run told.
  destruct (retry_schedule s u) as (k & Hk & Htrace).
  exists k. rewrite Htrace. split; [exact Hk |]. split; [reflexivity |].
  destruct k as [|[|[|k]]]; [| | | lia];
    destruct onRetry; repeat split; reflexivity.
Qed.



End RetryShape.



(** ** The shape of every run of the generator *)

Lemma pauses_forward (cs : list (option string)) : pauses (forward cs) = [].
Proof.
  induction cs as [|[t|] cs IH]; simpl; [reflexivity | | exact IH].
  destruct (isEmpty t); simpl; exact IH.
Qed.

Lemma pauses_cons (e : StreamEvent) (l : list StreamEvent) :
  pauses (e :: l) = match e with Pause d => d :: pauses l | Yield _ => pauses l end.
Proof. now destruct e. Qed.

Lemma yielded_cons (e : StreamEvent) (l : list StreamEvent) :
  yielded (e :: l) = match e with Yield c => c :: yielded l | Pause _ => yielded l end.
Proof. now destruct e. Qed.

Lemma pauses_app (a b : list StreamEvent) : pauses (a ++ b) = pauses a ++ pauses b.
Proof. unfold pauses. apply flat_map_app. Qed.

Lemma yielded_app (a b : list StreamEvent) : yielded (a ++ b) = yielded a ++ yielded b.
Proof. unfold yielded. apply flat_map_app. Qed.

Lemma accumulated_app (a b : list string) :
  accumulated (a ++ b) = accumulated a +:+ accumulated b.
Proof.
  induction a as [|x a IH]; [reflexivity |].
  simpl. now rewrite IH, append_assoc.
Qed.

Lemma withSent_withSent (w : World) (l l' : list Request) :
  withSent (withSent w l) l' = withSent w l'.
Proof. reflexivity. Qed.

Lemma withSent_same (w : World) : withSent w (sent w) = w.
Proof. now destruct w. Qed.

(** The loop touches the world only by issuing the same request again,
    and pauses once between two requests, for the delay of the attempt. *)
Lemma streamLoop_shape (query : string) (request : Request) (remaining : nat)
  (w : World) :
  (remaining <= MAX_RETRIES)%nat ->
  let st := streamLoop remaining query request w in
  exists k,
    (k <= remaining)%nat
    /\ (1 <= remaining -> 1 <= k)%nat
    /\ after st = withSent w (sent w ++ repeat request k)
    /\ pauses (events st)
       = map backoffDelay (seq (MAX_RETRIES - remaining) (k - 1)).
Proof.
  revert w. induction remaining as [|n IH]; intros w Hn st; subst st.
  - exists 0%nat. cbn [streamLoop after events repeat]. rewrite app_nil_r, withSent_same.
    split; [lia |]. split; [lia |]. split; reflexivity.
  - cbn [streamLoop]. unfold generateContentStream.
    set (w1 := withSent w (sent w ++ [request])).
    destruct (failure (backendStream w (length (sent w)) request)) as [error|].
    + destruct (isRetryable _ && _) eqn:Hretry.
      * apply andb_true_iff in Hretry as [_ Hlt]. apply Nat.ltb_lt in Hlt.
        unfold MAX_RETRIES in Hlt, Hn.
        destruct (IH w1 ltac:(unfold MAX_RETRIES; lia)) as (k & Hk & Hpos & Hafter & Hpauses).
        exists (S k). cbn [after events].
        split; [lia |]. split; [lia |]. split.
        -- rewrite Hafter. unfold w1. cbn [sent withSent repeat].
           rewrite withSent_withSent, <- app_assoc. reflexivity.
        -- rewrite pauses_app, pauses_forward, !pauses_cons. cbn [app].
           rewrite Hpauses. specialize (Hpos ltac:(lia)).
           destruct k as [|k]; [lia |].
           replace (S (S k) - 1)%nat with (S k) by lia.
           replace (S k - 1)%nat with k by lia.
           cbn [seq map]. unfold MAX_RETRIES.
           replace (S (3 - S n)) with (3 - n)%nat by lia. reflexivity.
      * exists 1%nat. cbn [after events repeat]. rewrite pauses_forward.
        split; [lia |]. split; [lia |]. split; reflexivity.
    + exists 1%nat. cbn [after events repeat]. rewrite pauses_forward.
      split; [lia |]. split; [lia |]. split; reflexivity.
Qed.

(** X3.  Whatever the backend answers,
    [streamDefinition] changes nothing of the world but the log of requests:
    it never writes the cache or the settings.  It issues the same request
    between one and three times when a key is configured, pausing 2000 and
    then 4000 milliseconds between them; with no key it issues no request,
    yields nothing and raises the configuration error as it is. *)
Theorem stream_touches_only_the_request_log (query : string)
  (file : option (string * string)) (w : World) :
  let st := streamDefinition query file w in
  let request := streamRequest query file (settingsService.getActiveModelId w) in
  exists k,
    (k <= 3)%nat
    /\ after st = withSent w (sent w ++ repeat request k)
    /\ pauses (events st) = firstn (k - 1) [2000; 4000]
    /\ (k = 0%nat <-> settingsService.getApiKey w = None)
    /\ (settingsService.getApiKey w = None ->
        events st = []
        /\ ending st = Some (ThrownError (mkError MISSING_KEY_MESSAGE))).
Proof.
  intros st request. subst st. unfold streamDefinition, getAiInstance.
  destruct (settingsService.getApiKey w) as [apiKey|].
  - fold request.
    destruct (streamLoop_shape query request MAX_RETRIES w (le_n _))
      as (k & Hk & Hpos & Hafter & Hpauses).
    exists k. unfold MAX_RETRIES in *. specialize (Hpos ltac:(lia)).
    split; [exact Hk |]. split; [exact Hafter |]. split.
    + rewrite Hpauses.
      destruct k as [|[|[|[|k]]]]; try lia; reflexivity.
    + split; [split; [lia | discriminate] | discriminate].
  - exists 0%nat. cbn [after events ending repeat]. rewrite app_nil_r, withSent_same.
    split; [lia |]. repeat split; reflexivity.
Qed.

Lemma stream_touches_only_the_request_log_witness :
  settingsService.getApiKey emptyKeylessWorld = None
  /\ events (streamDefinition "Hypertext" None emptyKeylessWorld) = []
  /\ ending (streamDefinition "Hypertext" None emptyKeylessWorld)
     = Some (ThrownError (mkError MISSING_KEY_MESSAGE)).
Proof.
  destruct (stream_touches_only_the_request_log "Hypertext" None emptyKeylessWorld)
    as (k & _ & _ & _ & _ & H).
  split; [reflexivity | exact (H eq_refl)].
Defined.

(** X4.  When a stream breaks off with a
    rate-limit error and the next one is complete, the consumer is handed
    the fragments that arrived before the break, then one status chunk that
    opens with the sentinel, and, after a pause of 2000 milliseconds, the
    fragments of the second stream from its start: the text of the first
    attempt is not taken back.  Two requests have been issued and the
    generator returns. *)
Theorem stream_restarts_after_rate_limit (query : string)
  (file : option (string * string)) (w : World) (apiKey : string)
  (c1 c2 : list (option string)) (e1 : thrown) :
  let request := streamRequest query file (settingsService.getActiveModelId w) in
  let n := length (sent w) in
  settingsService.getApiKey w = Some apiKey ->
  backendStream w n request = mkStreamReply c1 (Some e1) ->
  hasRateLimitMarker (messageOf e1) = true ->
  backendStream w (S n) request = mkStreamReply c2 None ->
  let st := streamDefinition query file w in
  events st
  = map Yield (fragments c1)
      ++ Yield "[SYSTEM:RETRY]Rate limit exceeded. Retrying in 2s..."
      :: Pause 2000 :: map Yield (fragments c2)
  /\ ending st = None
  /\ sent (after st) = sent w ++ [request; request]
  /\ accumulated (yielded (events st))
     = accumulated (fragments c1)
       +:+ "[SYSTEM:RETRY]Rate limit exceeded. Retrying in 2s..."
       +:+ accumulated (fragments c2).
Proof.
  intros request n Hkey H1 M1 H2 st. subst st.
  rewrite (stream_retries_rate_limit query file w apiKey Hkey c1 e1 H1 M1).
  cbn [streamLoop events ending after]. unfold generateContentStream.
  cbn [sent backendStream withSent]. rewrite length_app. cbn [length].
  fold n. replace (n + 1)%nat with (S n) by lia. fold request.
  rewrite H2. cbn [failure chunks events ending after sent withSent].
  rewrite !forward_fragments.
  change (retryChunk 2000) with "[SYSTEM:RETRY]Rate limit exceeded. Retrying in 2s...".
  split; [reflexivity |]. split; [reflexivity |].
  split; [now rewrite <- app_assoc |].
  rewrite yielded_app, !yielded_cons, !yielded_map_Yield.
  rewrite accumulated_app. reflexivity.
Qed.

Lemma stream_restarts_after_rate_limit_witness :
  let st := streamDefinition "Hypertext" None stutterWorld in
  events st
  = [Yield "Hyper"; Yield "[SYSTEM:RETRY]Rate limit exceeded. Retrying in 2s...";
     Pause 2000; Yield "Hypertext is "; Yield "a medium."]
  /\ ending st = None
  /\ length (sent (after st)) = 2%nat.
Proof.
  destruct (stream_restarts_after_rate_limit "Hypertext" None stutterWorld "k3y"
              [Some "Hyper"] [Some "Hypertext is "; Some "a medium."]
              (ThrownError (mkError "429 RESOURCE_EXHAUSTED"))
              eq_refl eq_refl eq_refl eq_refl) as (Hev & Hend & Hsent & _).
  intros st. subst st. rewrite Hev, Hend, Hsent. repeat split; reflexivity.
Defined.

(** X5.  When three streams in a row
    break off with a rate-limit error, the generator hands on the fragments
    of each, announces a retry in 2 and then in 4 seconds, pauses for as
    long, and after the third failure raises the fixed rate-limit error
    with no further status chunk; three requests have been issued. *)
Theorem stream_gives_up_after_three_rate_limits (query : string)
  (file : option (string * string)) (w : World) (apiKey : string)
  (c1 c2 c3 : list (option string)) (e1 e2 e3 : thrown) :
  let request := streamRequest query file (settingsService.getActiveModelId w) in
  let n := length (sent w) in
  settingsService.getApiKey w = Some apiKey ->
  backendStream w n request = mkStreamReply c1 (Some e1) ->
  backendStream w (S n) request = mkStreamReply c2 (Some e2) ->
  backendStream w (S (S n)) request = mkStreamReply c3 (Some e3) ->
  hasRateLimitMarker (messageOf e1) = true ->
  hasRateLimitMarker (messageOf e2) = true ->
  hasRateLimitMarker (messageOf e3) = true ->
  let st := streamDefinition query file w in
  yielded (events st)
  = fragments c1 ++ "[SYSTEM:RETRY]Rate limit exceeded. Retrying in 2s..."
      :: fragments c2 ++ "[SYSTEM:RETRY]Rate limit exceeded. Retrying in 4s..."
      :: fragments c3
  /\ pauses (events st) = [2000; 4000]
  /\ ending st = Some (ThrownError (mkError RATE_LIMIT_MESSAGE))
  /\ sent (after st) = sent w ++ [request; request; request].
Proof.
  intros request n Hkey H1 H2 H3 M1 M2 M3 st. subst st.
  rewrite (stream_retries_rate_limit query file w apiKey Hkey c1 e1 H1 M1).
  cbn [streamLoop events ending after]. unfold generateContentStream.
  cbn [sent backendStream withSent]. rewrite !length_app. cbn [length].
  fold n. replace (n + 1)%nat with (S n) by lia.
  replace (S n + 1)%nat with (S (S n)) by lia. fold request.
  rewrite H2, H3. cbn [failure chunks].
  rewrite (rate_limit_error_retryable _ _ M2), (rate_limit_error_retryable _ _ M3).
  cbn [andb Nat.sub Nat.ltb Nat.leb MAX_RETRIES events ending after sent withSent].
  unfold handleGeminiError. rewrite M3. rewrite !forward_fragments.
  split; [| split; [| split; [reflexivity |]]].
  - rewrite yielded_app, !yielded_cons, yielded_app, !yielded_cons, !yielded_map_Yield.
    reflexivity.
  - rewrite <- !forward_fragments.
    rewrite pauses_app, !pauses_cons, pauses_app, !pauses_cons, !pauses_forward.
    reflexivity.
  - now rewrite <- !app_assoc.
Qed.

Lemma stream_gives_up_after_three_rate_limits_witness :
  let st := streamDefinition "Hypertext" None exhaustedWorld in
  yielded (events st)
  = ["[SYSTEM:RETRY]Rate limit exceeded. Retrying in 2s...";
     "[SYSTEM:RETRY]Rate limit exceeded. Retrying in 4s..."]
  /\ pauses (events st) = [2000; 4000]
  /\ ending st = Some (ThrownError (mkError RATE_LIMIT_MESSAGE))
  /\ length (sent (after st)) = 3%nat.
Proof.
  destruct (stream_gives_up_after_three_rate_limits "Hypertext" None exhaustedWorld
              "k3y" [] [] []
              (ThrownError (mkError "429 RESOURCE_EXHAUSTED"))
              (ThrownError (mkError "429 RESOURCE_EXHAUSTED"))
              (ThrownError (mkError "429 RESOURCE_EXHAUSTED"))
              eq_refl eq_refl eq_refl eq_refl eq_refl eq_refl eq_refl)
    as (Hy & Hp & Hend & Hsent).
  intros st. subst st. rewrite Hy, Hp, Hend, Hsent. repeat split; reflexivity.
Defined.

(** X6.  When the first stream fails
    for a reason that carries no rate-limit marker, and the query does not
    itself spell "API rate limit exceeded", the generator hands on the
    fragments that arrived, then raises at once the error
    [Could not generate content for "{query}". {message}]: no status chunk,
    no pause, one request. *)
Theorem stream_raises_other_failures_at_once (query : string)
  (file : option (string * string)) (w : World) (apiKey : string)
  (cs : list (option string)) (error : thrown) :
  let request := streamRequest query file (settingsService.getActiveModelId w) in
  settingsService.getApiKey w = Some apiKey ->
  backendStream w (length (sent w)) request = mkStreamReply cs (Some error) ->
  hasRateLimitMarker (messageOf error) = false ->
  includes query "API rate limit exceeded" = false ->
  let st := streamDefinition query file w in
  yielded (events st) = fragments cs
  /\ pauses (events st) = []
  /\ ending st
     = Some (ThrownError
               (mkError ("Could not generate content for " +:+ DQ +:+ query +:+ DQ
                         +:+ ". " +:+ messageOf error)))
  /\ sent (after st) = sent w ++ [request].
Proof.
  intros request Hkey Hreply Hmark Hquery st. subst st.
  rewrite (stream_raises_fatal_error query file w apiKey Hkey cs error
             Hreply Hmark Hquery).
  cbn [events ending after sent withSent].
  rewrite pauses_forward, forward_fragments, yielded_map_Yield.
  unfold handleGeminiError. rewrite Hmark. unfold streamContext.
  rewrite !append_assoc. repeat split; reflexivity.
Qed.

Lemma stream_raises_other_failures_at_once_witness :
  let st := streamDefinition "Hypertext" None offlineWorld in
  yielded (events st) = []
  /\ pauses (events st) = []
  /\ ending st
     = Some (ThrownError
               (mkError ("Could not generate content for " +:+ DQ +:+ "Hypertext" +:+ DQ
                         +:+ ". Failed to fetch")))
  /\ length (sent (after st)) = 1%nat.
Proof.
  destruct (stream_raises_other_failures_at_once "Hypertext" None offlineWorld "k3y"
              [] (ThrownError (mkError "Failed to fetch"))
              eq_refl eq_refl eq_refl eq_refl) as (Hy & Hp & Hend & Hsent).
  intros st. subst st. rewrite Hy, Hp, Hend, Hsent. repeat split; reflexivity.
Defined.

(** ** What the cache-first operations leave behind *)

Section DeepDiveCall.
Variables topic modelId cacheKey : string.

Lemma deepDiveApiCall_rejected (w w' : World) (e : thrown) :
  deepDiveApiCall topic modelId cacheKey w = (Rejected e, w') ->
  sessionStorage w' = sessionStorage w
  /\ storageAccepts w' = storageAccepts w
  /\ settings w' = settings w.
Proof.
  unfold deepDiveApiCall, deepDiveTry, generateContent.
  destruct (getAiInstance w); [intros H; injection H as _ <-; auto |].
  destruct (readJson _ _) as [error|parsed];
    [intros H; injection H as _ <-; auto | discriminate].
Qed.

Lemma deepDiveApiCall_fulfilled (w w' : World) (v : json) :
  deepDiveApiCall topic modelId cacheKey w = (Fulfilled v, w') ->
  w' = cache.set cacheKey v (withSent w (sent w ++ [deepDiveRequest topic modelId]))
  /\ wellFormed v = true.
Proof.
  unfold deepDiveApiCall, deepDiveTry, generateContent.
  destruct (getAiInstance w); [discriminate |].
  destruct (readJson _ _) as [error|parsed] eqn:Hread; [discriminate |].
  intros H. injection H as <- <-. split; [reflexivity |].
  exact (readJson_wellFormed _ _ _ Hread).
Qed.

Lemma deepDiveApiCall_sent (w : World) :
  (length (sent (snd (deepDiveApiCall topic modelId cacheKey w)))
   <= length (sent w) + 1)%nat.
Proof.
  unfold deepDiveApiCall, deepDiveTry, generateContent.
  destruct (getAiInstance w); [simpl; lia |].
  destruct (readJson _ _) as [error|parsed]; simpl; rewrite ?sent_cache_set; simpl;
    rewrite length_app; simpl; lia.
Qed.

Lemma deepDiveApiCall_message (w w' : World) (e : thrown) :
  deepDiveApiCall topic modelId cacheKey w = (Rejected e, w') ->
  exists m, e = ThrownError (mkError m) /\ ServiceMessage (deepDiveContext topic) m.
Proof.
  unfold deepDiveApiCall, deepDiveTry, generateContent.
  destruct (getAiInstance w) as [err|key] eqn:Hai.
  - intros H. injection H as <- _. unfold getAiInstance in Hai.
    destruct (settingsService.getApiKey w); [discriminate |].
    injection Hai as <-. exists MISSING_KEY_MESSAGE. split; [reflexivity | now left].
  - destruct (readJson _ _) as [error|parsed]; [| discriminate].
    intros H. injection H as <- _. unfold handleGeminiError.
    destruct (hasRateLimitMarker (messageOf error)).
    + exists RATE_LIMIT_MESSAGE. split; [reflexivity | right; now left].
    + eexists. split; [reflexivity |]. right; right. now exists (messageOf error).
Qed.

Lemma ancillaryApiCall_message (w w' : World) (e : thrown) :
  ancillaryApiCall topic modelId cacheKey w = (Rejected e, w') ->
  exists m, e = ThrownError (mkError m) /\ ServiceMessage (ancillaryContext topic) m.
Proof.
  unfold ancillaryApiCall.
  destruct (getAiInstance w) as [err|key] eqn:Hai.
  - intros H. injection H as <- _. unfold getAiInstance in Hai.
    destruct (settingsService.getApiKey w); [discriminate |].
    injection Hai as <-. exists MISSING_KEY_MESSAGE. split; [reflexivity | now left].
  - destruct (ancillaryTry topic modelId cacheKey w) as [[error|parsed] w1];
      [| discriminate].
    intros H. injection H as <- _. unfold handleGeminiError.
    destruct (hasRateLimitMarker (messageOf error)).
    + exists RATE_LIMIT_MESSAGE. split; [reflexivity | right; now left].
    + eexists. split; [reflexivity |]. right; right. now exists (messageOf error).
Qed.

End DeepDiveCall.

Lemma storage_cache_set_other (key : string) (v : json) (w : World) (k : string) :
  k <> cache.PREFIX +:+ key ->
  sessionStorage (cache.set key v w) !! k = sessionStorage w !! k.
Proof.
  intros Hk. unfold cache.set. destruct (storageAccepts _ _ _ _); [| reflexivity].
  cbn [sessionStorage withStorage]. now rewrite lookup_insert_ne.
Qed.

Lemma settings_cache_set (key : string) (v : json) (w : World) :
  settings (cache.set key v w) = settings w.
Proof. unfold cache.set. now destruct (storageAccepts _ _ _ _). Qed.

Section Footprint.
Context {U : Type}.
Variable onRetry : option (nat -> Z -> U -> U).

(** The state left by a run of the wrapper around [ancillaryApiCall]. *)
Lemma ancillary_run_footprint (topic modelId cacheKey : string) (w : World) (u : U) :
  let run := geminiRequestWithRetry (ancillaryApiCall topic modelId cacheKey)
               onRetry w u in
  settings (final run) = settings w
  /\ (forall k, k <> cache.PREFIX +:+ cacheKey ->
        sessionStorage (final run) !! k = sessionStorage w !! k)
  /\ (forall reason, outcome run = Rejected reason ->
        sessionStorage (final run) = sessionStorage w).
Proof.
  intros run. subst run. unfold geminiRequestWithRetry.
  set (I := fun w' : World => sessionStorage w' = sessionStorage w
                              /\ settings w' = settings w).
  assert (Hstep : forall s e s', I s ->
            ancillaryApiCall topic modelId cacheKey s = (Rejected e, s') -> I s').
  { intros s e s' [H1 H2] Hcall.
    destruct (ancillaryApiCall_rejected _ _ _ _ _ _ Hcall) as (H3 & _ & H4).
    split; congruence. }
  destruct (outcome (retryLoop (ancillaryApiCall topic modelId cacheKey) onRetry
                       MAX_RETRIES None w u)) as [v|reason] eqn:Hout.
  - destruct (retryLoop_success _ onRetry I Hstep MAX_RETRIES None w u v
                (conj eq_refl eq_refl) Hout) as (w0 & [Hst Hse] & Hcall).
    destruct (ancillaryApiCall_fulfilled _ _ _ _ _ _ Hcall) as (Hfinal & _).
    rewrite Hfinal. split; [| split; [| discriminate]].
    + rewrite settings_cache_set. exact Hse.
    + intros k Hk. rewrite storage_cache_set_other by exact Hk.
      cbn [sessionStorage withSent]. now rewrite Hst.
  - destruct (retryLoop_failure _ onRetry I Hstep MAX_RETRIES None w u reason
                ltac:(unfold MAX_RETRIES; lia) (conj eq_refl eq_refl) Hout)
      as ([Hst Hse] & _).
    split; [exact Hse |]. split; [intros k _; now rewrite Hst | intros _ _; exact Hst].
Qed.

Lemma deepDive_run_footprint (topic modelId cacheKey : string) (w : World) (u : U) :
  let run := geminiRequestWithRetry (deepDiveApiCall topic modelId cacheKey)
               onRetry w u in
  settings (final run) = settings w
  /\ (forall k, k <> cache.PREFIX +:+ cacheKey ->
        sessionStorage (final run) !! k = sessionStorage w !! k)
  /\ (forall reason, outcome run = Rejected reason ->
        sessionStorage (final run) = sessionStorage w).
Proof.
  intros run. subst run. unfold geminiRequestWithRetry.
  set (I := fun w' : World => sessionStorage w' = sessionStorage w
                              /\ settings w' = settings w).
  assert (Hstep : forall s e s', I s ->
            deepDiveApiCall topic modelId cacheKey s = (Rejected e, s') -> I s').
  { intros s e s' [H1 H2] Hcall.
    destruct (deepDiveApiCall_rejected _ _ _ _ _ _ Hcall) as (H3 & _ & H4).
    split; congruence. }
  destruct (outcome (retryLoop (deepDiveApiCall topic modelId cacheKey) onRetry
                       MAX_RETRIES None w u)) as [v|reason] eqn:Hout.
  - destruct (retryLoop_success _ onRetry I Hstep MAX_RETRIES None w u v
                (conj eq_refl eq_refl) Hout) as (w0 & [Hst Hse] & Hcall).
    destruct (deepDiveApiCall_fulfilled _ _ _ _ _ _ Hcall) as (Hfinal & _).
    rewrite Hfinal. split; [| split; [| discriminate]].
    + rewrite settings_cache_set. exact Hse.
    + intros k Hk. rewrite storage_cache_set_other by exact Hk.
      cbn [sessionStorage withSent]. now rewrite Hst.
  - destruct (retryLoop_failure _ onRetry I Hstep MAX_RETRIES None w u reason
                ltac:(unfold MAX_RETRIES; lia) (conj eq_refl eq_refl) Hout)
      as ([Hst Hse] & _).
    split; [exact Hse |]. split; [intros k _; now rewrite Hst | intros _ _; exact Hst].
Qed.


(** X8.  Whenever
    [generateAncillaryData] or [generateDeepDive] rejects, the reason is an
    [Error] instance whose message is one of three: the missing-key
    message, the fixed rate-limit message, or
    [Could not generate ... for "{topic}". {detail}]. *)
Theorem generate_rejects_with_service_message (topic : string) (w : World) (u : U)
  (reason : thrown) :
  (outcome (generateAncillaryData topic onRetry w u) = Rejected reason ->
   exists m, reason = ThrownError (mkError m)
             /\ ServiceMessage (ancillaryContext topic) m)
  /\ (outcome (generateDeepDive topic onRetry w u) = Rejected reason ->
      exists m, reason = ThrownError (mkError m)
                /\ ServiceMessage (deepDiveContext topic) m).
Proof.
  split.
  - unfold generateAncillaryData.
    destruct (truthy _); [discriminate |]. intros Hout.
    destruct (retryLoop_failure _ onRetry (fun _ => True) ltac:(auto) MAX_RETRIES None
                w u reason ltac:(unfold MAX_RETRIES; lia) I Hout)
      as (_ & w0 & e & _ & Hcall & ->).
    destruct (ancillaryApiCall_message _ _ _ _ _ _ Hcall) as (m & -> & Hm).
    now exists m.
  - unfold generateDeepDive.
    destruct (truthy _); [discriminate |]. intros Hout.
    destruct (retryLoop_failure _ onRetry (fun _ => True) ltac:(auto) MAX_RETRIES None
                w u reason ltac:(unfold MAX_RETRIES; lia) I Hout)
      as (_ & w0 & e & _ & Hcall & ->).
    destruct (deepDiveApiCall_message _ _ _ _ _ _ Hcall) as (m & -> & Hm).
    now exists m.
Qed.

End Footprint.


Lemma generate_rejects_with_service_message_witness :
  let reason :=
    ThrownError
      (mkError ("Could not generate deep dive for " +:+ DQ +:+ "Hypertext" +:+ DQ
                +:+ ". An unknown error occurred.")) in
  outcome (generateDeepDive "Hypertext" (Some recordRetry) brokenWorld []) = Rejected reason
  /\ exists m, reason = ThrownError (mkError m)
               /\ ServiceMessage (deepDiveContext "Hypertext") m.
Proof.
  intros reason.
  assert (Hout : outcome (generateDeepDive "Hypertext" (Some recordRetry) brokenWorld [])
                 = Rejected reason) by (vm_compute; reflexivity).
  split; [exact Hout |].
  exact (proj2 (generate_rejects_with_service_message (Some recordRetry) "Hypertext"
                  brokenWorld [] reason) Hout).
Defined.

(** ** One request per attempt *)

Section RequestLog.
Context {T S U A : Type}.
Variable requestFn : S -> Outcome T * S.
Variable onRetry : option (nat -> Z -> U -> U).
Variable log : S -> list A.
Variable a : A.
Variable P : S -> Prop.
Hypothesis Pstep : forall s, P s -> P (snd (requestFn s)).
Hypothesis Plog : forall s, P s -> log (snd (requestFn s)) = log s ++ [a].

Lemma attempts_later (evs : list RetryEvent) (r : Run T S U) :
  attempts (trace (later evs r)) = (attempts evs + attempts (trace r))%nat.
Proof. unfold attempts, later. cbn [trace]. now rewrite List.filter_app, length_app. Qed.

Lemma retryLoop_log (remaining : nat) (lastError : option Error) (s : S) (u : U) :
  P s ->
  log (final (retryLoop requestFn onRetry remaining lastError s u))
  = log s
    ++ repeat a (attempts (trace (retryLoop requestFn onRetry remaining lastError s u))).
Proof using Pstep Plog.
  revert lastError s u. induction remaining as [|n IH]; intros lastError s u Hs.
  - cbn. now rewrite app_nil_r.
  - cbn [retryLoop]. pose proof (Pstep s Hs) as Hs'. pose proof (Plog s Hs) as Hlog.
    destruct (requestFn s) as [[v|e] s']; cbn [snd] in *.
    + cbn. exact Hlog.
    + destruct (isRetryable (toError e) && _).
      * destruct (notify onRetry _ _ u) as [u' told] eqn:Hnote.
        rewrite final_later, attempts_later, (IH _ s' u' Hs'), Hlog, <- app_assoc.
        assert (Htold : attempts (Attempt :: told ++ [Sleep (backoffDelay (MAX_RETRIES - Datatypes.S n))]) = 1%nat).
        { unfold notify in Hnote. destruct onRetry; injection Hnote as _ <-; reflexivity. }
        rewrite Htold. reflexivity.
      * cbn. exact Hlog.
Qed.

End RequestLog.

Lemma getApiKey_settings (w w' : World) :
  settings w' = settings w ->
  settingsService.getApiKey w' = settingsService.getApiKey w.
Proof. intros H. unfold settingsService.getApiKey. now rewrite H. Qed.

Lemma ancillaryApiCall_logs (topic modelId cacheKey : string) (w : World)
  (apiKey : string) :
  settingsService.getApiKey w = Some apiKey ->
  settings (snd (ancillaryApiCall topic modelId cacheKey w)) = settings w
  /\ sent (snd (ancillaryApiCall topic modelId cacheKey w))
     = sent w ++ [ancillaryRequest topic modelId w].
Proof.
  intros Hkey. unfold ancillaryApiCall, ancillaryTry, generateContent.
  rewrite (getAiInstance_keyed _ _ Hkey).
  destruct (readJson _ _) as [error|parsed]; [now split |].
  destruct (artOf _ parsed) as [error|art]; [now split |].
  destruct (invalidArt art); [now split |].
  cbn [snd]. now rewrite settings_cache_set, sent_cache_set.
Qed.

Lemma deepDiveApiCall_logs (topic modelId cacheKey : string) (w : World)
  (apiKey : string) :
  settingsService.getApiKey w = Some apiKey ->
  settings (snd (deepDiveApiCall topic modelId cacheKey w)) = settings w
  /\ sent (snd (deepDiveApiCall topic modelId cacheKey w))
     = sent w ++ [deepDiveRequest topic modelId].
Proof.
  intros Hkey. unfold deepDiveApiCall, deepDiveTry, generateContent.
  rewrite (getAiInstance_keyed _ _ Hkey).
  destruct (readJson _ _) as [error|parsed]; [now split |].
  cbn [snd]. now rewrite settings_cache_set, sent_cache_set.
Qed.

Lemma ancillaryRequest_settings (topic modelId : string) (w w' : World) :
  settings w' = settings w ->
  ancillaryRequest topic modelId w' = ancillaryRequest topic modelId w.
Proof. intros H. unfold ancillaryRequest. now rewrite H. Qed.

(** X9.  With a key configured,
    [generateAncillaryData] and [generateDeepDive] issue exactly one request
    per attempt, the same request every time, and nothing else: the log of
    requests grows by as many copies of it as there were attempts, which is
    none on a cache hit and at most three otherwise. *)
Theorem generate_issues_one_request_per_attempt {U : Type}
  (onRetry : option (nat -> Z -> U -> U)) (topic : string) (w : World) (u : U)
  (apiKey : string) :
  settingsService.getApiKey w = Some apiKey ->
  let modelId := settingsService.getActiveModelId w in
  let ancillary := generateAncillaryData topic onRetry w u in
  let deepDive := generateDeepDive topic onRetry w u in
  (sent (final ancillary)
   = sent w ++ repeat (ancillaryRequest topic modelId w) (attempts (trace ancillary))
   /\ (attempts (trace ancillary) <= 3)%nat)
  /\ (sent (final deepDive)
      = sent w ++ repeat (deepDiveRequest topic modelId) (attempts (trace deepDive))
      /\ (attempts (trace deepDive) <= 3)%nat).
Proof.
  intros Hkey modelId ancillary deepDive. subst ancillary deepDive. split.
  - unfold generateAncillaryData. fold modelId.
    destruct (truthy (cache.get (ancillaryKey modelId topic) w)).
    + cbn. rewrite app_nil_r. split; [reflexivity | lia].
    + split; [| apply retry_attempts_bound].
      apply (retryLoop_log _ onRetry sent (ancillaryRequest topic modelId w)
               (fun w' => settings w' = settings w)); [| | reflexivity].
      * intros s Hs. rewrite <- Hs.
        apply (ancillaryApiCall_logs _ _ _ _ apiKey).
        now rewrite (getApiKey_settings _ _ Hs).
      * intros s Hs. rewrite <- (ancillaryRequest_settings _ _ _ _ Hs).
        apply (ancillaryApiCall_logs _ _ _ _ apiKey).
        now rewrite (getApiKey_settings _ _ Hs).
  - unfold generateDeepDive. fold modelId.
    destruct (truthy (cache.get (deepDiveKey modelId topic) w)).
    + cbn. rewrite app_nil_r. split; [reflexivity | lia].
    + split; [| apply retry_attempts_bound].
      apply (retryLoop_log _ onRetry sent (deepDiveRequest topic modelId)
               (fun w' => settings w' = settings w)); [| | reflexivity].
      * intros s Hs. rewrite <- Hs.
        apply (deepDiveApiCall_logs _ _ _ _ apiKey).
        now rewrite (getApiKey_settings _ _ Hs).
      * intros s Hs.
        apply (deepDiveApiCall_logs _ _ _ _ apiKey).
        now rewrite (getApiKey_settings _ _ Hs).
Qed.

Lemma generate_issues_one_request_per_attempt_witness :
  let run := generateAncillaryData "Hypertext" (Some recordRetry) throttledWorld [] in
  settingsService.getApiKey throttledWorld = Some "k3y"
  /\ attempts (trace run) = 2%nat
  /\ sent (final run)
     = repeat (ancillaryRequest "Hypertext" "gemini-flash-latest" throttledWorld) 2.
Proof.
  intros run.
  destruct (generate_issues_one_request_per_attempt (Some recordRetry) "Hypertext"
              throttledWorld [] "k3y" eq_refl) as ((Hsent & _) & _).
  assert (Hn : attempts (trace run) = 2%nat) by (vm_compute; reflexivity).
  split; [reflexivity |]. split; [exact Hn |].
  subst run. rewrite Hsent, Hn. reflexivity.
Defined.

(** ** The deep dive and the cache *)

Lemma deepDiveKey_folds (modelId topic topic2 : string) :
  toLowerCase topic2 = toLowerCase topic ->
  deepDiveKey modelId topic2 = deepDiveKey modelId topic.
Proof. intros H. unfold deepDiveKey, cacheKeyOf. now rewrite H. Qed.

Lemma isObject_truthy (v : json) : isObject v = true -> truthy v = true.
Proof. now destruct v. Qed.

(** What a resolved call of [generateDeepDive] leaves in the cache under
    its key reads back as the value it resolved with, provided the storage
    accepted the write. *)
Lemma deepDive_resolved_cached {U : Type} (onRetry : option (nat -> Z -> U -> U))
  (topic : string) (w : World) (u : U) (value : json) :
  let cacheKey := deepDiveKey (settingsService.getActiveModelId w) topic in
  let run := generateDeepDive topic onRetry w u in
  outcome run = Fulfilled value ->
  truthy value = true ->
  storageAccepts w (sessionStorage w) (cache.PREFIX +:+ cacheKey)
    (JSON_stringify value) = true ->
  cache.get cacheKey (final run) = value.
Proof.
  intros cacheKey run Hout Htruthy Hacc. subst run. unfold generateDeepDive in *.
  fold cacheKey in Hout |- *.
  destruct (truthy (cache.get cacheKey w)) eqn:Hhit.
  - cbn in *. now injection Hout.
  - unfold geminiRequestWithRetry in *.
    destruct (retryLoop_success
                (deepDiveApiCall topic (settingsService.getActiveModelId w) cacheKey)
                onRetry
                (fun w' => sessionStorage w' = sessionStorage w
                           /\ storageAccepts w' = storageAccepts w)
                ltac:(intros s e s' [H1 H2] Hcall;
                      destruct (deepDiveApiCall_rejected _ _ _ _ _ _ Hcall)
                        as (H3 & H4 & _); split; congruence)
                MAX_RETRIES None w u value (conj eq_refl eq_refl) Hout)
      as (w0 & [Hst Hac] & Hcall).
    destruct (deepDiveApiCall_fulfilled _ _ _ _ _ _ Hcall) as (-> & Hwf).
    rewrite cache_get_set; [reflexivity | | exact Hwf].
    simpl. now rewrite Hac, Hst.
Qed.

(** X10.  When a call to
    [generateDeepDive] resolves with an object or an array and the storage
    accepted the write, a second call for the same model and the same topic
    up to case, with the storage untouched in between, is a cache hit: it
    resolves with the cached value, an object or array again, leaves the
    world as it is and never enters the retry wrapper.  The first call
    issued at most three requests. *)
Theorem deep_dive_second_call_is_cache_hit {U U2 : Type}
  (onRetry : option (nat -> Z -> U -> U))
  (onRetry2 : option (nat -> Z -> U2 -> U2))
  (topic topic2 : string) (w w2 : World) (u : U) (u2 : U2) (value : json) :
  let cacheKey := deepDiveKey (settingsService.getActiveModelId w) topic in
  let first := generateDeepDive topic onRetry w u in
  outcome first = Fulfilled value ->
  isObject value = true ->
  storageAccepts w (sessionStorage w) (cache.PREFIX +:+ cacheKey)
    (JSON_stringify value) = true ->
  sessionStorage w2 = sessionStorage (final first) ->
  settingsService.getActiveModelId w2 = settingsService.getActiveModelId w ->
  toLowerCase topic2 = toLowerCase topic ->
  generateDeepDive topic2 onRetry2 w2 u2
  = mkRun (Fulfilled (cache.get cacheKey w2)) w2 u2 []
  /\ isObject (cache.get cacheKey w2) = true
  /\ (length (sent (final first)) <= length (sent w) + 3)%nat.
Proof.
  intros cacheKey first Hout Hobj Hacc Hstore Hmodel Htopic.
  pose proof (deepDive_resolved_cached onRetry topic w u value Hout
                (isObject_truthy _ Hobj) Hacc) as Hcached.
  fold cacheKey first in Hcached.
  rewrite <- (cache_get_storage cacheKey _ _ Hstore) in Hcached.
  assert (Hkey : deepDiveKey (settingsService.getActiveModelId w2) topic2 = cacheKey).
  { rewrite Hmodel. now apply deepDiveKey_folds. }
  split; [| split].
  - rewrite <- Hkey. apply deepDive_hit. rewrite Hkey, Hcached.
    now apply isObject_truthy.
  - now rewrite Hcached.
  - subst first. unfold generateDeepDive.
    destruct (truthy _); [cbn; lia |].
    apply (retryLoop_measure _ _ (fun w' => length (sent w'))).
    intros s. apply deepDiveApiCall_sent.
Qed.

Lemma deep_dive_second_call_is_cache_hit_witness :
  let first := generateDeepDive "Entropy" (Some recordRetry) entropyWorld [] in
  let second := generateDeepDive "ENTROPY" (Some recordRetry) (final first) [] in
  (exists value, outcome first = Fulfilled value /\ isObject value = true)
  /\ second
     = mkRun
         (Fulfilled
            (cache.get
               (deepDiveKey (settingsService.getActiveModelId entropyWorld) "Entropy")
               (final first)))
         (final first) [] []
  /\ (length (sent (final first)) <= length (sent entropyWorld) + 3)%nat.
Proof.
  intros first second.
  set (value :=
         JObject [("summary", JString "[[Entropy]] is disorder.");
                  ("resources",
                   JArray [JObject [("title", JString "X");
                                    ("url", JString "http://x");
                                    ("description", JString "y")]])]).
  assert (Hout : outcome first = Fulfilled value) by (vm_compute; reflexivity).
  split; [exists value; split; [exact Hout | reflexivity] |].
  destruct (deep_dive_second_call_is_cache_hit (Some recordRetry) (Some recordRetry)
              "Entropy" "ENTROPY" entropyWorld (final first) [] [] value
              Hout eq_refl eq_refl eq_refl eq_refl eq_refl) as (Hsecond & _ & Hsent).
  split; [exact Hsecond | exact Hsent].
Defined.

(** X11.  [generateDeepDive] checks
    no shape, so it can resolve with a value the cache guard
    [if (cachedData)] does not accept: [null], [false], zero or the empty
    string.  Such a value is never served from the cache: a second call for
    the same model and topic, with the storage untouched in between, enters
    the retry wrapper again and calls the operation at least once. *)
Theorem deep_dive_falsy_value_is_requested_again {U U2 : Type}
  (onRetry : option (nat -> Z -> U -> U))
  (onRetry2 : option (nat -> Z -> U2 -> U2))
  (topic topic2 : string) (w w2 : World) (u : U) (u2 : U2) (value : json) :
  let first := generateDeepDive topic onRetry w u in
  let second := generateDeepDive topic2 onRetry2 w2 u2 in
  outcome first = Fulfilled value ->
  truthy value = false ->
  sessionStorage w2 = sessionStorage (final first) ->
  settingsService.getActiveModelId w2 = settingsService.getActiveModelId w ->
  toLowerCase topic2 = toLowerCase topic ->
  second
  = geminiRequestWithRetry
      (deepDiveApiCall topic2 (settingsService.getActiveModelId w2)
         (deepDiveKey (settingsService.getActiveModelId w2) topic2))
      onRetry2 w2 u2
  /\ (1 <= attempts (trace second))%nat.
Proof.
  intros first second Hout Hfalsy Hstore Hmodel Htopic. subst first second.
  set (cacheKey := deepDiveKey (settingsService.getActiveModelId w) topic).
  assert (Hkey : deepDiveKey (settingsService.getActiveModelId w2) topic2 = cacheKey).
  { rewrite Hmodel. now apply deepDiveKey_folds. }
  assert (Hmiss : truthy (cache.get cacheKey w2) = false).
  { rewrite (cache_get_storage cacheKey _ _ Hstore).
    unfold generateDeepDive in *. fold cacheKey in Hout |- *.
    destruct (truthy (cache.get cacheKey w)) eqn:Hhit.
    - cbn in Hout. injection Hout as Hv. congruence.
    - unfold geminiRequestWithRetry in *.
      destruct (retryLoop_success
                  (deepDiveApiCall topic (settingsService.getActiveModelId w) cacheKey)
                  onRetry
                  (fun w' => sessionStorage w' = sessionStorage w)
                  ltac:(intros s e s' H1 Hcall;
                        destruct (deepDiveApiCall_rejected _ _ _ _ _ _ Hcall)
                          as (H3 & _); congruence)
                  MAX_RETRIES None w u value eq_refl Hout)
        as (w0 & Hst & Hcall).
      destruct (deepDiveApiCall_fulfilled _ _ _ _ _ _ Hcall) as (-> & Hwf).
      unfold cache.set.
      destruct (storageAccepts _ _ _ _) eqn:Hacc.
      + unfold cache.get. cbn [sessionStorage withStorage withSent].
        rewrite lookup_insert_eq, (JSON_parse_stringify value Hwf). exact Hfalsy.
      + rewrite (cache_get_storage cacheKey w _); [exact Hhit | exact Hst]. }
  rewrite <- Hkey in Hmiss.
  rewrite (deepDive_miss onRetry2 topic2 w2 u2 Hmiss).
  split; [reflexivity | apply retry_attempts_bound].
Qed.

Lemma deep_dive_falsy_value_is_requested_again_witness :
  let first := generateDeepDive "Hypertext" (Some recordRetry) nullWorld [] in
  let second := generateDeepDive "Hypertext" (Some recordRetry) (final first) [] in
  outcome first = Fulfilled JNull
  /\ (1 <= attempts (trace second))%nat
  /\ length (sent (final second)) = 2%nat.
Proof.
  intros first second.
  assert (Hout : outcome first = Fulfilled JNull) by (vm_compute; reflexivity).
  destruct (deep_dive_falsy_value_is_requested_again (Some recordRetry)
              (Some recordRetry) "Hypertext" "Hypertext" nullWorld (final first)
              [] [] JNull Hout eq_refl eq_refl eq_refl eq_refl) as (_ & Hattempts).
  split; [exact Hout |]. split; [exact Hattempts | vm_compute; reflexivity].
Defined.




(** ** Recovery of the ancillary call *)




(** ** A fence around nothing *)

Lemma dropPrefix_json_blank (ws : string) :
  blank ws = true ->
  dropPrefix "json" (ws +:+ "```") = None.
Proof.
  destruct ws as [|c r]; [reflexivity |]. apply blank_not_tag.
Qed.

Lemma fenceRegex_blank (tag ws : string) :
  tag = "json" \/ tag = EmptyString ->
  blank ws = true ->
  fenceRegex ("```" +:+ tag +:+ ws +:+ "```") = Some EmptyString.
Proof.
  intros Htag Hws. unfold fenceRegex. unfold reLit at 1. rewrite dropPrefix_append.
  assert (Hrest : reSpaces (reOpt (reLit LF) (reLazyAny fenceClose))
                    (ws +:+ "```") = Some EmptyString).
  { apply reSpaces_skips; [exact Hws | reflexivity]. }
  unfold reOpt at 1. destruct Htag as [-> | ->].
  - unfold reLit at 1. rewrite dropPrefix_append. now rewrite Hrest.
  - rewrite append_empty_l. unfold reLit at 1.
    pose proof (dropPrefix_json_blank ws Hws) as Hno.
    rewrite Hno. exact Hrest.
Qed.

(** X14.  The fence repair applies only when the
    fence holds something: for a response that is a fence, tagged [json] or
    bare, around white space or nothing, the captured group is empty, the
    text stays as it is, [JSON.parse] refuses it, and the deep-dive attempt
    throws the [SyntaxError] of the whole fenced text, classified under the
    context of the call. *)
Theorem empty_fence_is_not_repaired (tag ws : string) (topic modelId cacheKey : string)
  (w : World) (apiKey : string) :
  let text := "```" +:+ tag +:+ ws +:+ "```" in
  tag = "json" \/ tag = EmptyString ->
  blank ws = true ->
  settingsService.getApiKey w = Some apiKey ->
  backend w (length (sent w)) (deepDiveRequest topic modelId) = ReplyText (Some text) ->
  stripFence text = text
  /\ JSON_parse text = None
  /\ deepDiveApiCall topic modelId cacheKey w
     = (Rejected
          (ThrownError
             (handleGeminiError
                (ThrownError (mkError (syntaxErrorMessage (engine w) text)))
                (deepDiveContext topic))),
        withSent w (sent w ++ [deepDiveRequest topic modelId])).
Proof.
  intros text Htag Hws Hkey Hreply.
  assert (Hstrip : stripFence text = text).
  { unfold stripFence, text. rewrite trim_fenced.
    now rewrite (fenceRegex_blank tag ws Htag Hws). }
  assert (Hparse : JSON_parse text = None).
  { destruct (JSON_parse text) as [v|] eqn:Hv; [| reflexivity].
    destruct (JSON_parse_not_fence _ _ Hv) as [Hno _].
    unfold text in Hno. rewrite dropPrefix_append in Hno. discriminate Hno. }
  split; [exact Hstrip |]. split; [exact Hparse |].
  rewrite <- Hstrip at 1.
  apply (deepDiveApiCall_unparsable topic modelId cacheKey w apiKey text Hkey Hreply).
  now rewrite Hstrip.
Qed.

Lemma empty_fence_is_not_repaired_witness :
  let text := "```json" +:+ LF +:+ "```" in
  stripFence text = text
  /\ JSON_parse text = None
  /\ outcome (generateDeepDive "Hypertext" (Some recordRetry) emptyFenceWorld [])
     = Rejected
         (ThrownError
            (mkError ("Could not generate deep dive for " +:+ DQ +:+ "Hypertext" +:+ DQ
                      +:+ ". Unexpected token in JSON"))).
Proof.
  destruct (empty_fence_is_not_repaired "json" LF "Hypertext" "gemini-flash-latest"
              "deepdive_gemini-flash-latest_hypertext" emptyFenceWorld "k3y"
              (or_introl eq_refl) eq_refl eq_refl eq_refl) as (Hstrip & Hparse & _).
  split; [exact Hstrip |]. split; [exact Hparse |]. vm_compute. reflexivity.
Defined.

(** ** The cache service *)

Lemma append_inj_l (p a b : string) : p +:+ a = p +:+ b -> a = b.
Proof.
  induction p as [|c p IH]; [now rewrite !append_empty_l |].
  rewrite !append_cons. intros H. injection H as H. now apply IH.
Qed.

Lemma dropDigits_all (s : string) :
  allChars isDigit s = true -> dropDigits s = EmptyString.
Proof.
  induction s as [|c r IH]; [reflexivity |].
  cbn [allChars dropDigits]. intros H. apply andb_true_iff in H as [-> Hr]. now apply IH.
Qed.

Lemma safeInteger_valid (literal : string) :
  safeInteger literal = true -> validNumber literal = true.
Proof.
  unfold safeInteger, validNumber.
  set (digits := match literal with
                 | EmptyString => literal
                 | String c r => if Ascii.eqb c "-" then r else literal
                 end).
  intros H. repeat (apply andb_true_iff in H as [H ?]).
  destruct digits as [|c r]; [discriminate |].
  cbn [allChars] in H. apply andb_true_iff in H as [Hc Hr].
  destruct (Ascii.eqb_spec c "0") as [->|Hne].
  - match goal with Hz : (_ || _) = true |- _ => cbn in Hz; rename Hz into Hzero end.
    destruct r; [reflexivity | discriminate Hzero].
  - rewrite Hc, (dropDigits_all r Hr). reflexivity.
Qed.

Lemma safeNumbers_wellFormed :
  forall v : json, safeNumbers v = true -> wellFormed v = true.
Proof.
  fix IH 1. intros [| b | literal | s | items | members]; cbn [safeNumbers wellFormed];
    try reflexivity.
  - apply safeInteger_valid.
  - induction items as [|x l IHl]; [reflexivity |]. cbn [forallb].
    intros H. apply andb_true_iff in H as [Hx Hl].
    now rewrite (IH x Hx), (IHl Hl).
  - induction members as [|[k x] l IHl]; [reflexivity |]. cbn [forallb snd].
    intros H. apply andb_true_iff in H as [Hx Hl].
    now rewrite (IH x Hx), (IHl Hl).
Qed.

(** X15.  What [cacheService.set] stores
    under a key, [cacheService.get] returns for that key: for every JSON
    value whose numbers are whole numbers of at most fifteen digits, when
    [sessionStorage] accepts the write; a later accepted write under the
    same key replaces the earlier one. *)
Theorem cache_reads_back_what_it_stored (key : string) (v : json) (w : World) :
  safeNumbers v = true ->
  storageAccepts w (sessionStorage w) (cache.PREFIX +:+ key) (JSON_stringify v) = true ->
  cache.get key (cache.set key v w) = v
  /\ sessionStorage (cache.set key v w) !! (cache.PREFIX +:+ key)
     = Some (JSON_stringify v).
Proof.
  intros Hsafe Hacc. split.
  - apply cache_get_set; [exact Hacc | now apply safeNumbers_wellFormed].
  - unfold cache.set. rewrite Hacc. cbn [sessionStorage withStorage].
    apply lookup_insert_eq.
Qed.

Lemma cache_reads_back_what_it_stored_witness :
  let w := cache.set "ancillary_m_hypertext" hotspotValue
             (cache.set "ancillary_m_hypertext" (JString "old") emptyKeylessWorld) in
  cache.get "ancillary_m_hypertext" w = hotspotValue.
Proof.
  exact (proj1 (cache_reads_back_what_it_stored "ancillary_m_hypertext" hotspotValue
                  (cache.set "ancillary_m_hypertext" (JString "old") emptyKeylessWorld)
                  eq_refl eq_refl)).
Defined.

(** X16.  [cacheService.set] changes nothing but
    the entry of its key: every other key reads as before, and the
    settings and the request log stay as they are.  When [sessionStorage]
    refuses the write (the quota is exceeded), the error is swallowed and
    the world is left exactly as it was, so the key reads as before too. *)
Theorem cache_set_leaves_other_keys (key : string) (v : json) (w : World) :
  (forall other, other <> key ->
     cache.get other (cache.set key v w) = cache.get other w)
  /\ settings (cache.set key v w) = settings w
  /\ sent (cache.set key v w) = sent w
  /\ (storageAccepts w (sessionStorage w) (cache.PREFIX +:+ key) (JSON_stringify v)
      = false ->
      cache.set key v w = w).
Proof.
  split; [| split; [apply settings_cache_set | split; [apply sent_cache_set |]]].
  - intros other Hne. unfold cache.get.
    rewrite storage_cache_set_other; [reflexivity |].
    intros H. apply Hne. exact (append_inj_l _ _ _ H).
  - intros Hacc. unfold cache.set. now rewrite Hacc.
Qed.

Lemma cache_set_leaves_other_keys_witness :
  cache.set "definition_m_hypertext" (JString "A medium.") fullWorld = fullWorld
  /\ cache.get "definition_m_hypertext"
       (cache.set "definition_m_hypertext" (JString "A medium.") fullWorld)
     = JNull.
Proof.
  pose proof (proj2 (proj2 (proj2
                (cache_set_leaves_other_keys "definition_m_hypertext"
                   (JString "A medium.") fullWorld))) eq_refl) as H.
  split; [exact H |]. rewrite H. reflexivity.
Defined.

(** X17.  After [cacheService.clearAll]
    every cache read is a miss, whatever the key, while the entries of
    [sessionStorage] whose key does not open with the cache prefix are kept
    as they are; the settings and the request log are not touched. *)
Theorem clearAll_empties_the_cache_only (w : World) :
  (forall key, cache.get key (cache.clearAll w) = JNull)
  /\ (forall k, startsWith k cache.PREFIX = false ->
        sessionStorage (cache.clearAll w) !! k = sessionStorage w !! k)
  /\ settings (cache.clearAll w) = settings w
  /\ sent (cache.clearAll w) = sent w.
Proof.
  split; [intros key; apply cache_get_clearAll |].
  split; [| split; reflexivity].
  intros k Hk. unfold cache.clearAll. cbn [sessionStorage withStorage].
  destruct (sessionStorage w !! k) as [item|] eqn:Hitem.
  - apply map_lookup_filter_Some. split; [exact Hitem | exact Hk].
  - apply map_lookup_filter_None. now left.
Qed.

Lemma clearAll_empties_the_cache_only_witness :
  cache.get "definition_gemini-flash-latest_hypertext" sharedWorld = JString "A medium."
  /\ cache.get "definition_gemini-flash-latest_hypertext" (cache.clearAll sharedWorld)
     = JNull
  /\ sessionStorage (cache.clearAll sharedWorld) !! "theme" = Some "dark".
Proof.
  destruct (clearAll_empties_the_cache_only sharedWorld) as (Hget & Hkeep & _).
  split; [vm_compute; reflexivity |]. split; [apply Hget |].
  rewrite (Hkeep "theme" eq_refl). reflexivity.
Defined.

(** ** The settings service *)

Lemma trimEnd_drop (k b : string) :
  blank b = true -> trimEnd (k +:+ b) = trimEnd k.
Proof.
  intros Hb. induction k as [|c r IH].
  - rewrite append_empty_l. now apply trimEnd_allws.
  - rewrite append_cons. cbn [trimEnd]. rewrite IH.
    rewrite <- append_cons, blank_append by now apply blank_boundary.
    now rewrite Hb, andb_true_r.
Qed.

Lemma trim_padded (before key behind : string) :
  blank before = true ->
  blank behind = true ->
  trim key = key ->
  trim (before +:+ key +:+ behind) = key.
Proof.
  intros Ha Hb Hkey. unfold trim. rewrite trimStart_skips by exact Ha.
  assert (Hstart : trimStart key = key) by (rewrite <- Hkey; apply trimStart_trim).
  assert (Hend : trimEnd key = key) by (rewrite <- Hkey; apply trimEnd_trim).
  destruct key as [|c r].
  - rewrite append_empty_l. now rewrite trimStart_blank.
  - rewrite append_cons, trimStart_other.
    + rewrite <- append_cons, trimEnd_drop by exact Hb. exact Hend.
    + apply whiteSpaceAt_aligned; [now apply trimStart_fixed | now apply blank_boundary].
Qed.

(** X18.  [getApiKey] never returns an
    empty key.  A custom key that holds something besides white space is
    returned without its surrounding white space, whatever the environment
    holds; a custom key that is absent or all white space is ignored, and
    the environment key is returned when it is set and not empty. *)
Theorem getApiKey_is_trimmed_custom_key_or_env (w : World) :
  (forall k, settingsService.getApiKey w = Some k -> isEmpty k = false)
  /\ (forall before key behind,
        customApiKey (settings w) = Some (before +:+ key +:+ behind) ->
        blank before = true ->
        blank behind = true ->
        trim key = key -> isEmpty key = false ->
        settingsService.getApiKey w = Some key)
  /\ (customApiKey (settings w) = None
      \/ (exists padding, customApiKey (settings w) = Some padding
                          /\ blank padding = true) ->
      settingsService.getApiKey w
      = match env_API_KEY (settings w) with
        | Some k => if isEmpty k then None else Some k
        | None => None
        end).
Proof.
  unfold settingsService.getApiKey, settingsService.getSetting. split; [| split].
  - intros k.
    destruct (isEmpty (trim _)) eqn:Hcustom; cbn [negb].
    + destruct (env_API_KEY (settings w)) as [e|]; [| discriminate].
      destruct (isEmpty e) eqn:He; cbn [negb]; [discriminate |].
      intros H. injection H as <-. exact He.
    + intros H. injection H as <-. exact Hcustom.
  - intros before key behind -> Ha Hb Hkey Hne.
    rewrite (trim_padded before key behind Ha Hb Hkey), Hne. reflexivity.
  - intros [-> | (padding & -> & Hblank)].
    + change (trim EmptyString) with EmptyString. cbn [isEmpty negb].
      destruct (env_API_KEY (settings w)) as [e|]; [| reflexivity].
      now destruct (isEmpty e).
    + unfold trim. rewrite (trimStart_blank _ Hblank).
      change (trimEnd EmptyString) with EmptyString. cbn [isEmpty negb].
      destruct (env_API_KEY (settings w)) as [e|]; [| reflexivity].
      now destruct (isEmpty e).
Qed.

Lemma getApiKey_is_trimmed_custom_key_or_env_witness :
  settingsService.getApiKey (freshWorld paddedKeySettings noAnswer noStream) = Some "k3y".
Proof.
  exact (proj1 (proj2 (getApiKey_is_trimmed_custom_key_or_env
                         (freshWorld paddedKeySettings noAnswer noStream)))
           "  " "k3y" " " eq_refl eq_refl eq_refl eq_refl eq_refl).
Defined.

(** X19.  The default model is the first entry of
    [MODELS].  When the stored selection is absent or one of the listed
    models, [getActiveModelId] returns a model id that is not blank: the
    selection itself for a listed model, and for the custom entry the
    custom name without its surrounding white space, or the default when
    that name is blank. *)
Theorem active_model_is_never_blank (w : World) :
  let selected := settingsService.getSetting (apiModel (settings w))
                    settingsService.DEFAULT_MODEL_ID in
  let customName :=
    trim (settingsService.getSetting (customApiModel (settings w)) EmptyString) in
  settingsService.DEFAULT_MODEL_ID = models.DEFAULT_MODEL_ID
  /\ (In selected (map models.id models.MODELS) ->
      isEmpty (trim (settingsService.getActiveModelId w)) = false
      /\ (selected <> "custom-model" -> settingsService.getActiveModelId w = selected)
      /\ (selected = "custom-model" -> isEmpty customName = false ->
          settingsService.getActiveModelId w = customName)
      /\ (selected = "custom-model" -> isEmpty customName = true ->
          settingsService.getActiveModelId w = settingsService.DEFAULT_MODEL_ID)).
Proof.
  intros selected customName. split; [reflexivity |].
  intros Hin. unfold settingsService.getActiveModelId. fold selected customName.
  cbn in Hin. destruct Hin as [H | [H | [H | []]]]; rewrite <- H.
  - change (String.eqb "gemini-flash-latest" "custom-model") with false. cbv iota.
    repeat split; try reflexivity; discriminate.
  - change (String.eqb "gemini-2.5-pro" "custom-model") with false. cbv iota.
    repeat split; try reflexivity; discriminate.
  - change (String.eqb "custom-model" "custom-model") with true. cbv iota.
    destruct (isEmpty customName) eqn:Hname.
    + repeat split; try reflexivity; try discriminate. intros Hne. now contradiction Hne.
    + assert (Htrim : trim customName = customName)
        by (unfold customName; apply trim_idempotent).
      rewrite Htrim.
      repeat split; try reflexivity; try discriminate; try assumption.
      intros Hne. now contradiction Hne.
Qed.

Lemma active_model_is_never_blank_witness :
  settingsService.getActiveModelId (freshWorld customModelSettings noAnswer noStream)
  = "gemini-exp".
Proof.
  destruct (proj2 (active_model_is_never_blank
                     (freshWorld customModelSettings noAnswer noStream))
              ltac:(right; right; left; reflexivity)) as (_ & _ & H & _).
  exact (H eq_refl eq_refl).
Defined.

(* ================================================================== *)
(** * Properties of the page *)
(* ================================================================== *)

(** ** The accumulation of the stream *)

Lemma setContent_setError_absorb (c c0 : json) (e e0 : option string) (st : AppState) :
  setContent c (setError e (setContent c0 (setError e0 st)))
  = setContent c (setError e st).
Proof. reflexivity. Qed.

Lemma state_eta (st : AppState) : setContent (content st) (setError (error st) st) = st.
Proof. now destruct st. Qed.

(** The loop writes [content] and [error] and nothing else. *)
Lemma showChunks_frame (staleError : option string) (chunks : list string)
  (acc : string) (st : AppState) :
  exists c e,
    snd (fold_left (showChunk staleError) chunks (acc, st))
    = setContent c (setError e st).
Proof.
  revert acc st. induction chunks as [|chunk chunks IH]; intros acc st.
  - exists (content st), (error st). cbn. now rewrite state_eta.
  - cbn [fold_left]. unfold showChunk at 2.
    destruct (startsWith chunk "[SYSTEM:RETRY]").
    + destruct (IH acc (setError (Some (replaceFirst chunk "[SYSTEM:RETRY]" EmptyString)) st))
        as (c & e & ->).
      now exists c, e.
    + destruct staleError as [stale|]; [destruct (startsWith stale "Rate limit") |].
      * destruct (IH (acc +:+ chunk)
                    (setContent (JString (acc +:+ chunk)) (setError None st)))
          as (c & e & ->).
        now exists c, e.
      * destruct (IH (acc +:+ chunk) (setContent (JString (acc +:+ chunk)) st))
          as (c & e & ->).
        now exists c, e.
      * destruct (IH (acc +:+ chunk) (setContent (JString (acc +:+ chunk)) st))
          as (c & e & ->).
        now exists c, e.
Qed.

(** The text accumulated is the text of the chunks that are no status
    chunk; it is also the content shown, once there is such a chunk. *)
Lemma showChunks_text (staleError : option string) (chunks : list string)
  (acc : string) (st : AppState) :
  let result := fold_left (showChunk staleError) chunks (acc, st) in
  fst result = acc +:+ shownText chunks
  /\ content (snd result)
     = if existsb (fun c => negb (startsWith c "[SYSTEM:RETRY]")) chunks
       then JString (acc +:+ shownText chunks)
       else content st.
Proof.
  revert acc st. induction chunks as [|chunk chunks IH]; intros acc st; cbn zeta.
  - cbn. now rewrite append_empty_r.
  - cbn [fold_left existsb]. unfold showChunk at 2 4. unfold shownText.
    cbn [List.filter].
    destruct (startsWith chunk "[SYSTEM:RETRY]") eqn:Hs; cbn [negb orb].
    + destruct (IH acc (setError (Some (replaceFirst chunk "[SYSTEM:RETRY]" EmptyString)) st))
        as [Hfst Hcontent].
      split; [exact Hfst | now rewrite Hcontent].
    + cbn [accumulated fold_right]. rewrite <- append_assoc.
      set (st1 := match staleError with
                  | Some e => if startsWith e "Rate limit" then setError None st else st
                  | None => st
                  end).
      destruct (IH (acc +:+ chunk) (setContent (JString (acc +:+ chunk)) st1))
        as [Hfst Hcontent].
      split; [exact Hfst |]. rewrite Hcontent.
      destruct (existsb _ chunks) eqn:Hex; [reflexivity |].
      cbn [content setContent]. f_equal.
      assert (Hnone : List.filter (fun c => negb (startsWith c "[SYSTEM:RETRY]")) chunks = []).
      { clear -Hex. induction chunks as [|x l IHl]; [reflexivity |].
        cbn in *. apply orb_false_iff in Hex as [-> Hl]. now apply IHl. }
      unfold shownText. rewrite Hnone. cbn. now rewrite append_empty_r.
Qed.

Lemma shownText_nonempty (chunks : list string) :
  isEmpty (shownText chunks) = false ->
  existsb (fun c => negb (startsWith c "[SYSTEM:RETRY]")) chunks = true.
Proof.
  intros H. destruct (existsb _ chunks) eqn:Hex; [reflexivity |].
  assert (Hnone : List.filter (fun c => negb (startsWith c "[SYSTEM:RETRY]")) chunks = []).
  { clear -Hex. induction chunks as [|x l IHl]; [reflexivity |].
    cbn in *. apply orb_false_iff in Hex as [-> Hl]. now apply IHl. }
  unfold shownText in H. rewrite Hnone in H. discriminate H.
Qed.

(** ** The errors of the generator *)





Lemma stream_after (query : string) (file : option (string * string)) (w : World) :
  exists k,
    after (streamDefinition query file w)
    = withSent w
        (sent w ++ repeat (streamRequest query file (settingsService.getActiveModelId w)) k).
Proof.
  unfold streamDefinition. destruct (getAiInstance w).
  - exists 0%nat. cbn. now rewrite app_nil_r, withSent_same.
  - destruct (streamLoop_shape query
                (streamRequest query file (settingsService.getActiveModelId w))
                MAX_RETRIES w (le_n _)) as (k & _ & _ & Hafter & _).
    now exists k.
Qed.

(** ** The definition step *)



Lemma definitionKey_folds (modelId topic topic2 : string) :
  toLowerCase topic2 = toLowerCase topic ->
  definitionKey modelId topic2 = definitionKey modelId topic.
Proof. intros H. unfold definitionKey, cacheKeyOf. now rewrite H. Qed.

Lemma stream_after_storage (query : string) (file : option (string * string))
  (w : World) :
  sessionStorage (after (streamDefinition query file w)) = sessionStorage w
  /\ storageAccepts (after (streamDefinition query file w)) = storageAccepts w.
Proof. destruct (stream_after query file w) as (k & ->). now split. Qed.

(** X21.  When the definition is not in
    the cache and the stream ends without an error, the page shows the text
    of the chunks that are no status chunk and, when that text is not
    empty and the storage accepts it, stores it under the definition key.
    A later fetch for the same model and a topic that differs at most in
    the case of its letters, while that entry is in the cache, shows the
    text from the cache: it reports no error and leaves the world as it
    is, so no request is issued.  The topic is of ASCII characters. *)
Theorem fetch_caches_the_streamed_definition (staleError staleError2 : option string)
  (st st2 : AppState) (w w2 : World) :
  let modelId := settingsService.getActiveModelId w in
  let key := definitionKey modelId (currentTopic st) in
  let stream := streamDefinition (currentTopic st) None w in
  let text := shownText (yielded (events stream)) in
  let first := fetchDefinition staleError st w in
  isAscii (currentTopic st) = true ->
  truthy (cache.get key w) = false ->
  ending stream = None ->
  isEmpty text = false ->
  storageAccepts w (sessionStorage w) (cache.PREFIX +:+ key)
    (JSON_stringify (JString text)) = true ->
  sessionStorage w2 !! (cache.PREFIX +:+ key)
  = sessionStorage (snd first) !! (cache.PREFIX +:+ key) ->
  settingsService.getActiveModelId w2 = modelId ->
  SameUpToCase (currentTopic st2) (currentTopic st) ->
  (fst (fst first) = None
   /\ content (snd (fst first)) = JString text
   /\ snd first = cache.set key (JString text) (after stream)
   /\ (exists folded,
         LowerCased (currentTopic st) folded
         /\ key = "definition_" +:+ modelId +:+ "_" +:+ folded)
   /\ cache.get key (snd first) = JString text)
  /\ fetchDefinition staleError2 st2 w2 = (None, setContent (JString text) st2, w2).
Proof.
  intros modelId key stream text first _ Hmiss Hend Htext Hacc Hstore Hmodel Htopic.
  apply SameUpToCase_spec in Htopic.
  destruct (stream_after_storage (currentTopic st) None w) as [Hst Hac].
  fold stream in Hst, Hac.
  assert (Hfirst : first
                   = (None, snd (showChunks staleError (yielded (events stream)) st),
                      cache.set key (JString text) (after stream))).
  { subst first. unfold fetchDefinition. fold modelId key. rewrite Hmiss. fold stream.
    unfold showChunks.
    destruct (showChunks_text staleError (yielded (events stream)) EmptyString st)
      as [Hfst _].
    destruct (fold_left _ _ _) as [acc st1]. cbn [fst snd] in *.
    rewrite append_empty_l in Hfst. subst acc. fold text.
    now rewrite Hend, Htext. }
  assert (Hcached : cache.get key (snd first) = JString text).
  { rewrite Hfirst. cbn [snd]. apply cache_get_set; [| reflexivity].
    now rewrite Hac, Hst. }
  split.
  - rewrite Hfirst. cbn [fst snd]. split; [reflexivity |].
    split; [| split; [reflexivity | split; [| now rewrite Hfirst in Hcached]]].
    + unfold showChunks.
      destruct (showChunks_text staleError (yielded (events stream)) EmptyString st)
        as [_ Hcontent].
      rewrite Hcontent, (shownText_nonempty _ Htext). now rewrite append_empty_l.
    + exists (toLowerCase (currentTopic st)).
      split; [apply toLowerCase_LowerCased | reflexivity].
  - unfold fetchDefinition. rewrite Hmodel.
    rewrite (definitionKey_folds modelId _ _ Htopic). fold key.
    assert (Hsame : cache.get key w2 = cache.get key (snd first))
      by (unfold cache.get; now rewrite Hstore).
    rewrite Hsame, Hcached.
    cbn [truthy]. now rewrite Htext.
Qed.

Lemma fetch_caches_the_streamed_definition_witness :
  let first := fetchDefinition None (idleOn "Hypertext") hypertextWorld in
  content (snd (fst first)) = JString "Hypertext is a medium."
  /\ sessionStorage (snd first) !! "lexiconNexus_definition_gemini-flash-latest_hypertext"
     = Some (DQ +:+ "Hypertext is a medium." +:+ DQ)
  /\ fetchDefinition None (idleOn "HYPERTEXT") (snd first)
     = (None, setContent (JString "Hypertext is a medium.") (idleOn "HYPERTEXT"),
        snd first).
Proof.
  intros first.
  assert (Hcase : SameUpToCase "HYPERTEXT" "Hypertext").
  { apply SameUpToCase_spec. reflexivity. }
  destruct (fetch_caches_the_streamed_definition None None (idleOn "Hypertext")
              (idleOn "HYPERTEXT") hypertextWorld (snd first) eq_refl
              ltac:(vm_compute; reflexivity) eq_refl eq_refl eq_refl eq_refl eq_refl
              Hcase) as ((_ & Hcontent & _) & Hsecond).
  split; [exact Hcontent |]. split; [vm_compute; reflexivity | exact Hsecond].
Defined.

(** ** The end of a fetch *)

Section Observed.
Context {T S U : Type}.
Variable requestFn : S -> Outcome T * S.
Variable f : nat -> Z -> U -> U.

(** What holds of the observer's state and is kept by the observer holds
    at the end of the run. *)
Lemma retryLoop_observed (Q : U -> Prop) :
  (forall a d u, Q u -> Q (f a d u)) ->
  forall remaining lastError s u,
    Q u -> Q (observed (retryLoop requestFn (Some f) remaining lastError s u)).
Proof.
  intros Hf. induction remaining as [|n IH]; intros lastError s u Hu; [exact Hu |].
  cbn [retryLoop]. destruct (requestFn s) as [[v|e] s']; [exact Hu |].
  destruct (isRetryable (toError e) && _); [| exact Hu].
  cbn [notify]. unfold later. cbn [observed]. apply IH, Hf, Hu.
Qed.

End Observed.

Lemma generateAncillaryData_observed (topic : string) (w : World) (st : AppState) :
  exists notice,
    observed (generateAncillaryData topic (Some onAncillaryRetry) w st)
    = setAncillaryError notice st.
Proof.
  unfold generateAncillaryData. destruct (truthy _).
  - exists (ancillaryError st). cbn. now destruct st.
  - apply (retryLoop_observed _ onAncillaryRetry
             (fun u => exists notice, u = setAncillaryError notice st)).
    + intros a d u (notice & ->). now exists (Some (retryNotice d)).
    + exists (ancillaryError st). now destruct st.
Qed.

Lemma fetchDefinition_frame (staleError : option string) (st : AppState) (w : World) :
  exists c e, snd (fst (fetchDefinition staleError st w)) = setContent c (setError e st).
Proof.
  unfold fetchDefinition. destruct (truthy _).
  - exists (cache.get
              (definitionKey (settingsService.getActiveModelId w) (currentTopic st)) w),
      (error st).
    cbn. now destruct st.
  - unfold showChunks.
    destruct (showChunks_frame staleError
                (yielded (events (streamDefinition (currentTopic st) None w)))
                EmptyString st) as (c & e & Hframe).
    destruct (fold_left _ _ _) as [acc st1]. cbn [snd] in Hframe. subst st1.
    destruct (ending _); cbn [fst snd].
    + now eexists _, _.
    + now exists c, e.
Qed.

(** X22.  However the backend, the cache
    and the storage behave, a run of [fetchTopicData] that is not cancelled
    ends with both loading states off, the topic and the file unchanged and
    the deep dive of the previous topic cleared.  Whenever it leaves an
    ancillary error on the page, the art shown is the fallback box of the
    topic. *)
Theorem fetch_ends_loading_and_falls_back (elapsed : Z) (st0 : AppState) (w : World) :
  let st := fst (fetchTopicData elapsed st0 w) in
  isLoading st = false
  /\ isAncillaryLoading st = false
  /\ currentTopic st = currentTopic st0
  /\ file st = file st0
  /\ deepDiveContent st = None
  /\ deepDiveError st = None
  /\ isDeepDiveLoading st = false
  /\ (ancillaryError st <> None ->
      asciiArt st = Some (createFallbackArt (currentTopic st0))).
Proof.
  intros st. subst st. unfold fetchTopicData.
  match goal with
  | |- context [fetchDefinition ?s ?st ?w] =>
      destruct (fetchDefinition_frame s st w) as (c & e & Hframe);
      destruct (fetchDefinition s st w) as [[definitionError st1] w1]
  end.
  cbn [fst snd] in Hframe. subst st1.
  destruct (nonEmpty definitionError).
  - cbn. repeat split; try reflexivity.
    intros H. now contradiction H.
  - match goal with
    | |- context [generateAncillaryData ?t ?o ?w ?u] =>
        destruct (generateAncillaryData_observed t w u) as (notice & Hobs);
        destruct (generateAncillaryData t o w u) as [out fin obs tr]
    end.
    cbn [observed outcome final] in *. subst obs.
    destruct out as [data|err]; cbn.
    + repeat split; try reflexivity. intros H. now contradiction H.
    + repeat split; reflexivity.
Qed.

Lemma fetch_ends_loading_and_falls_back_witness :
  let st := fst (fetchTopicData 0 (idleOn "Hypertext") artlessWorld) in
  content st = JString "Hypertext is a medium."
  /\ ancillaryError st
     = Some ("Could not generate ancillary data for " +:+ DQ +:+ "Hypertext" +:+ DQ
             +:+ ". Failed to fetch")
  /\ asciiArt st = Some (createFallbackArt "Hypertext")
  /\ isAncillaryLoading st = false.
Proof.
  intros st.
  destruct (fetch_ends_loading_and_falls_back 0 (idleOn "Hypertext") artlessWorld)
    as (_ & Hanc & _ & _ & _ & _ & _ & Hart).
  assert (Herr : ancillaryError st
                 = Some ("Could not generate ancillary data for " +:+ DQ +:+ "Hypertext"
                         +:+ DQ +:+ ". Failed to fetch")) by (vm_compute; reflexivity).
  split; [vm_compute; reflexivity |]. split; [exact Herr |].
  split; [| exact Hanc]. apply Hart. fold st. rewrite Herr. discriminate.
Defined.

(** ** A definition that needed a second attempt *)





(** ** The random topic *)

Lemma UNIQUE_WORDS_all : UNIQUE_WORDS = PREDEFINED_WORDS.
Proof. vm_compute. reflexivity. Qed.

Lemma neighbours_differ :
  forallb
    (fun i =>
       negb (String.eqb
               (toLowerCase (nth i UNIQUE_WORDS EmptyString))
               (toLowerCase
                  (nth ((i + 1) mod length UNIQUE_WORDS) UNIQUE_WORDS EmptyString))))
    (seq 0 (length UNIQUE_WORDS))
  = true.
Proof. vm_compute. reflexivity. Qed.

(** X24.  The list of words holds no word
    twice, so [UNIQUE_WORDS] is the whole list.  When the page is idle in
    topic mode, [handleRandom] clears the page, turns loading on and sets
    a topic that is a word of the list and differs, whatever the case,
    from the topic shown: every index the random source can give leads to
    another word, also the last index, whose successor is the first
    word. *)
Theorem handleRandom_picks_another_word (randomIndex : nat) (st : AppState) :
  (randomIndex < length UNIQUE_WORDS)%nat ->
  isLoading st = false -> file st = None -> isApiConfigured st = true ->
  UNIQUE_WORDS = PREDEFINED_WORDS
  /\ exists st',
       handleRandom randomIndex st = Some st'
       /\ In (currentTopic st') PREDEFINED_WORDS
       /\ toLowerCase (currentTopic st') <> toLowerCase (currentTopic st)
       /\ isLoading st' = true
       /\ content st' = JString EmptyString
       /\ error st' = None
       /\ asciiArt st' = None.
Proof.
  intros Hrange Hidle Hfile Hkey. split; [exact UNIQUE_WORDS_all |].
  unfold handleRandom. rewrite Hidle, Hfile, Hkey. cbn [orb negb].
  destruct (nth_error UNIQUE_WORDS randomIndex) as [randomWord|] eqn:Hword;
    [| apply nth_error_None in Hword; lia].
  pose proof (nth_error_nth _ _ EmptyString Hword) as Hnth.
  destruct (String.eqb_spec (toLowerCase randomWord) (toLowerCase (currentTopic st)))
    as [Hsame|Hother].
  - set (nextIndex := ((randomIndex + 1) mod length UNIQUE_WORDS)%nat).
    assert (Hnext : (nextIndex < length UNIQUE_WORDS)%nat)
      by (apply Nat.mod_upper_bound; lia).
    destruct (nth_error UNIQUE_WORDS nextIndex) as [nextWord|] eqn:Hw2;
      [| apply nth_error_None in Hw2; lia].
    pose proof (nth_error_nth _ _ EmptyString Hw2) as Hnth2.
    exists (setCurrentTopic nextWord
              (setAsciiArt None
                 (setContent (JString EmptyString)
                    (setError None (setIsLoading true st))))).
    split; [reflexivity |].
    cbn [currentTopic isLoading content error asciiArt setCurrentTopic setAsciiArt
         setContent setError setIsLoading].
    split; [rewrite <- UNIQUE_WORDS_all; exact (nth_error_In _ _ Hw2) |].
    split; [| repeat split; reflexivity].
    pose proof neighbours_differ as Hall.
    rewrite forallb_forall in Hall.
    specialize (Hall randomIndex ltac:(apply in_seq; lia)).
    apply negb_true_iff in Hall. fold nextIndex in Hall.
    rewrite Hnth, Hnth2, Hsame in Hall.
    intros Heq. rewrite Heq, String.eqb_refl in Hall. discriminate Hall.
  - exists (setCurrentTopic randomWord
              (setAsciiArt None
                 (setContent (JString EmptyString)
                    (setError None (setIsLoading true st))))).
    split; [reflexivity |].
    cbn [currentTopic isLoading content error asciiArt setCurrentTopic setAsciiArt
         setContent setError setIsLoading].
    split; [rewrite <- UNIQUE_WORDS_all; exact (nth_error_In _ _ Hword) |].
    split; [exact Hother | repeat split; reflexivity].
Qed.

Lemma handleRandom_picks_another_word_witness :
  exists st',
    handleRandom 133 (idleOn "ENJAMBMENT") = Some st'
    /\ currentTopic st' = "Balance"
    /\ isLoading st' = true.
Proof.
  destruct (handleRandom_picks_another_word 133 (idleOn "ENJAMBMENT")
              ltac:(vm_compute; lia) eq_refl eq_refl eq_refl)
    as (_ & st' & Hrun & _ & _ & Hload & _).
  exists st'. split; [exact Hrun |]. split; [| exact Hload].
  assert (Hst : handleRandom 133 (idleOn "ENJAMBMENT")
                = Some (setCurrentTopic "Balance"
                          (setAsciiArt None
                             (setContent (JString EmptyString)
                                (setError None
                                   (setIsLoading true (idleOn "ENJAMBMENT")))))))
    by (vm_compute; reflexivity).
  rewrite Hst in Hrun. now injection Hrun as <-.
Defined.

(** ** The fallback box *)

Lemma length16_append (a b : string) :
  length16 (a +:+ b) = (length16 a + length16 b)%nat.
Proof.
  induction a as [|c a IH]; [reflexivity |].
  rewrite append_cons. cbn [length16]. rewrite IH.
  now destruct (isContinuation c).
Qed.

Lemma length16_repeatString (n : nat) :
  length16 (repeatString "-" n) = n.
Proof.
  induction n as [|n IH]; [reflexivity |].
  cbn [repeatString]. now rewrite length16_append, IH.
Qed.

Lemma length16_substring0 (n : nat) (s : string) :
  length16 (substring0 n s) = Nat.min n (length16 s).
Proof.
  revert n. induction s as [|c s IH]; intros n; [now destruct n |].
  cbn [substring0 length16]. destruct (isContinuation c) eqn:Hc.
  - cbn [length16]. now rewrite Hc, IH.
  - destruct n as [|n]; [reflexivity |]. cbn [length16]. now rewrite Hc, IH.
Qed.

Lemma splitLines_plain (s : string) :
  lacksChar "010" s = true -> splitLines s = [s].
Proof.
  unfold lacksChar. induction s as [|c r IH]; [reflexivity |].
  cbn [allChars splitLines]. intros H. apply andb_true_iff in H as [Hc Hr].
  apply negb_true_iff in Hc. now rewrite Hc, (IH Hr).
Qed.

Lemma splitLines_append (a b : string) :
  lacksChar "010" a = true ->
  splitLines (a +:+ LF +:+ b) = a :: splitLines b.
Proof.
  unfold lacksChar. induction a as [|c r IH].
  - intros _. reflexivity.
  - cbn [allChars]. intros H. apply andb_true_iff in H as [Hc Hr].
    apply negb_true_iff in Hc. rewrite append_cons. cbn [splitLines].
    now rewrite Hc, (IH Hr).
Qed.

Lemma lacksChar_append (c : ascii) (a b : string) :
  lacksChar c (a +:+ b) = lacksChar c a && lacksChar c b.
Proof. unfold lacksChar. apply allChars_append. Qed.

Lemma lacksChar_repeat (n : nat) : lacksChar "010" (repeatString "-" n) = true.
Proof.
  induction n as [|n IH]; [reflexivity |].
  cbn [repeatString]. now rewrite lacksChar_append, IH.
Qed.

Lemma lacksChar_substring0 (c : ascii) (n : nat) (s : string) :
  lacksChar c s = true -> lacksChar c (substring0 n s) = true.
Proof.
  unfold lacksChar. revert n. induction s as [|x s IH]; intros n; [reflexivity |].
  cbn [allChars substring0]. intros H. apply andb_true_iff in H as [Hx Hs].
  destruct (isContinuation x).
  - cbn [allChars]. now rewrite Hx, IH.
  - destruct n as [|n]; [reflexivity |]. cbn [allChars]. now rewrite Hx, IH.
Qed.

(** X25.  The box [createFallbackArt] draws
    passes the validation the service applies to the art of the backend:
    it is never blank, whatever the topic, the empty one included.  The
    topic is shown whole when it has at most twenty code units, and as its
    first seventeen followed by three dots otherwise.  For a topic without
    a line feed the box is three lines of one width, four more than the
    text shown and so at most twenty-four.  Lengths are counted as
    [length] counts them, in code units: a letter with an accent is
    one. *)
Theorem fallback_box_is_a_valid_art (topic : string) :
  let shown :=
    if (20 <? length16 topic)%nat
    then substring0 17 topic +:+ "..." else topic in
  let border := "+" +:+ repeatString "-" (length16 shown + 2) +:+ "+" in
  invalidArt (getProp (createFallbackArt topic) "art") = false
  /\ length16 shown = Nat.min (length16 topic) 20
  /\ (lacksChar "010" topic = true ->
      splitLines (fallbackBox topic) = [border; "| " +:+ shown +:+ " |"; border]
      /\ Forall (fun line => length16 line = (length16 shown + 4)%nat)
           (splitLines (fallbackBox topic))
      /\ (length16 shown + 4 <= 24)%nat).
Proof.
  intros shown border.
  assert (Hlen : length16 shown = Nat.min (length16 topic) 20).
  { subst shown. destruct (20 <? length16 topic)%nat eqn:Hlong.
    - apply Nat.ltb_lt in Hlong. rewrite length16_append, length16_substring0.
      change (length16 "...") with 3%nat. lia.
    - apply Nat.ltb_ge in Hlong. lia. }
  assert (Hpad : length16 (" " +:+ shown +:+ " ") = (length16 shown + 2)%nat).
  { rewrite !length16_append. change (length16 " ") with 1%nat. lia. }
  assert (Hbox : fallbackBox topic
                 = border +:+ LF +:+ ("| " +:+ shown +:+ " |") +:+ LF +:+ border).
  { unfold fallbackBox. fold shown. rewrite Hpad. fold border.
    rewrite !append_assoc. reflexivity. }
  split; [| split; [exact Hlen |]].
  - change (getProp (createFallbackArt topic) "art")
      with (Some (JString (fallbackBox topic))).
    cbn [invalidArt]. rewrite Hbox. unfold border. reflexivity.
  - intros Hplain.
    assert (Hshown : lacksChar "010" shown = true).
    { subst shown. destruct (20 <? length16 topic)%nat; [| exact Hplain].
      rewrite lacksChar_append, (lacksChar_substring0 _ _ _ Hplain). reflexivity. }
    assert (Hborder : lacksChar "010" border = true).
    { unfold border. rewrite !lacksChar_append, lacksChar_repeat. reflexivity. }
    assert (Hmiddle : lacksChar "010" ("| " +:+ shown +:+ " |") = true).
    { rewrite !lacksChar_append, Hshown. reflexivity. }
    assert (Hlines : splitLines (fallbackBox topic)
                     = [border; "| " +:+ shown +:+ " |"; border]).
    { rewrite Hbox, (splitLines_append _ _ Hborder), (splitLines_append _ _ Hmiddle).
      now rewrite (splitLines_plain _ Hborder). }
    split; [exact Hlines |]. split; [| lia].
    rewrite Hlines. unfold border.
    repeat constructor; rewrite !length16_append, ?length16_repeatString;
      repeat (first [ progress change (length16 "+") with 1%nat
                    | progress change (length16 "| ") with 2%nat
                    | progress change (length16 " |") with 2%nat ]);
      lia.
Qed.

Lemma fallback_box_is_a_valid_art_witness :
  splitLines (fallbackBox "Hypertext")
  = ["+-----------+"; "| Hypertext |"; "+-----------+"]
  /\ splitLines (fallbackBox "The quick brown fox jumps")
     = ["+----------------------+"; "| The quick brown f... |";
        "+----------------------+"]
  /\ splitLines (fallbackBox (utf8 0xC9 +:+ "cole"))
     = ["+-------+"; "| " +:+ utf8 0xC9 +:+ "cole |"; "+-------+"].
Proof.
  destruct (fallback_box_is_a_valid_art "Hypertext") as (_ & _ & H1).
  destruct (fallback_box_is_a_valid_art "The quick brown fox jumps") as (_ & _ & H2).
  destruct (fallback_box_is_a_valid_art (utf8 0xC9 +:+ "cole")) as (_ & _ & H3).
  split; [exact (proj1 (H1 eq_refl)) |].
  split; [exact (proj1 (H2 eq_refl)) | exact (proj1 (H3 eq_refl))].
Defined.

(** ** The three key spaces of the cache *)

Lemma split_at_char (c : ascii) (a a' b b' : string) :
  lacksChar c a = true -> lacksChar c a' = true ->
  a +:+ String c b = a' +:+ String c b' -> a = a' /\ b = b'.
Proof.
  unfold lacksChar. revert a'. induction a as [|x a IH]; intros [|x' a'] Ha Ha' H.
  - rewrite !append_empty_l in H. injection H as ->. now split.
  - rewrite append_empty_l, append_cons in H. injection H as <- _.
    cbn in Ha'. now rewrite Ascii.eqb_refl in Ha'.
  - rewrite append_empty_l, append_cons in H. injection H as -> _.
    cbn in Ha. now rewrite Ascii.eqb_refl in Ha.
  - rewrite !append_cons in H. injection H as -> H.
    cbn [allChars] in Ha, Ha'.
    apply andb_true_iff in Ha as [_ Ha]. apply andb_true_iff in Ha' as [_ Ha'].
    destruct (IH a' Ha Ha' H) as [-> ->]. now split.
Qed.

Lemma cacheKeyOf_inj (kind m m' t t' : string) :
  lacksChar "_" m = true -> lacksChar "_" m' = true ->
  cacheKeyOf kind m t = cacheKeyOf kind m' t' ->
  m = m' /\ toLowerCase t = toLowerCase t'.
Proof.
  intros Hm Hm' H. unfold cacheKeyOf in H.
  apply append_inj_l, append_inj_l in H.
  exact (split_at_char "_" m m' _ _ Hm Hm' H).
Qed.

(** X26.  The keys of the three cached kinds of
    result never coincide, whatever the models and topics.  Within a kind,
    for model ids that hold no underscore, as the listed ones, and topics
    of ASCII characters, two keys are equal exactly when the models are
    equal and the topics are equal up to the case of their letters.  A
    custom model id with an underscore can share a key with another
    model: "a_b" with topic "c" and "a" with topic "b_c". *)
Theorem cache_keys_do_not_collide (m m' t t' : string) :
  (definitionKey m t <> ancillaryKey m' t'
   /\ definitionKey m t <> deepDiveKey m' t'
   /\ ancillaryKey m t <> deepDiveKey m' t')
  /\ (lacksChar "_" m = true -> lacksChar "_" m' = true ->
      isAscii t = true -> isAscii t' = true ->
      (definitionKey m t = definitionKey m' t' <-> m = m' /\ SameUpToCase t t')
      /\ (ancillaryKey m t = ancillaryKey m' t' <-> m = m' /\ SameUpToCase t t')
      /\ (deepDiveKey m t = deepDiveKey m' t' <-> m = m' /\ SameUpToCase t t'))
  /\ Forall (fun model => lacksChar "_" (models.id model) = true) models.MODELS
  /\ ancillaryKey "a_b" "c" = ancillaryKey "a" "b_c".
Proof.
  split; [| split; [| split; [| reflexivity]]].
  - unfold definitionKey, ancillaryKey, deepDiveKey, cacheKeyOf.
    repeat split; intros H; discriminate H.
  - intros Hm Hm' _ _. unfold definitionKey, ancillaryKey, deepDiveKey.
    rewrite SameUpToCase_spec.
    split; [| split];
      (split; [now apply cacheKeyOf_inj
              | intros [-> Ht]; unfold cacheKeyOf; now rewrite Ht]).
  - repeat constructor.
Qed.

Lemma cache_keys_do_not_collide_witness :
  ancillaryKey "gemini-2.5-pro" "Hypertext" = ancillaryKey "gemini-2.5-pro" "HYPERTEXT"
  /\ (ancillaryKey "gemini-2.5-pro" "Hypertext"
      = ancillaryKey "gemini-flash-latest" "Hypertext" -> False)
  /\ (ancillaryKey "gemini-2.5-pro" "Hypertext"
      = ancillaryKey "gemini-2.5-pro" "Hypertexts" -> False).
Proof.
  destruct (cache_keys_do_not_collide "gemini-2.5-pro" "gemini-2.5-pro"
              "Hypertext" "HYPERTEXT") as (_ & H1 & _).
  destruct (cache_keys_do_not_collide "gemini-2.5-pro" "gemini-flash-latest"
              "Hypertext" "Hypertext") as (_ & H2 & _).
  destruct (cache_keys_do_not_collide "gemini-2.5-pro" "gemini-2.5-pro"
              "Hypertext" "Hypertexts") as (_ & H3 & _).
  split; [| split].
  - apply (proj1 (proj2 (H1 eq_refl eq_refl eq_refl eq_refl))). split; [reflexivity |].
    exists "hypertext". split; repeat (first [ apply LowerCased_empty
                                             | apply LowerCased_letter;
                                               [vm_compute; tauto |]
                                             | apply LowerCased_other;
                                               [vm_compute; intuition discriminate |] ]).
  - intros H. apply (proj1 (proj2 (H2 eq_refl eq_refl eq_refl eq_refl))) in H as [Hm _].
    discriminate Hm.
  - intros H. apply (proj1 (proj2 (H3 eq_refl eq_refl eq_refl eq_refl))) in H
      as [_ (folded & Ha & Hb)].
    apply LowerCased_fun in Ha, Hb. rewrite Ha in Hb. discriminate Hb.
Defined.

(** ** The art on the page *)

Section Art.
Import AsciiArtDisplay.

Lemma units_head (c : ascii) (r : string) :
  exists k rest, units (String c r) = String c k :: rest.
Proof.
  cbn [units]. destruct (units r) as [|u rest]; [now exists EmptyString, [] |].
  destruct (atBoundary u); eauto.
Qed.

(** The code units of a string, put together, are the string. *)
Lemma accumulated_units (s : string) : accumulated (units s) = s.
Proof.
  induction s as [|c s IH]; [reflexivity |]. cbn [units].
  destruct (units s) as [|u rest].
  - cbn in IH. now subst s.
  - change (accumulated (u :: rest)) with (u +:+ accumulated rest) in IH.
    destruct (atBoundary u).
    + change (String c (u +:+ accumulated rest) = String c s). now rewrite IH.
    + change (String c u +:+ accumulated rest = String c s).
      now rewrite append_cons, IH.
Qed.

Lemma units_append (a b : string) :
  atBoundary b = true -> units (a +:+ b) = units a ++ units b.
Proof.
  intros Hb. induction a as [|c a IH]; [reflexivity |].
  rewrite append_cons. cbn [units]. rewrite IH.
  destruct (units a) as [|u rest]; cbn [app].
  - destruct b as [|x b']; [reflexivity |].
    destruct (units_head x b') as (k & rest & ->).
    change (atBoundary (String x k)) with (atBoundary (String x b')).
    now rewrite Hb.
  - now destruct (atBoundary u).
Qed.

(** A byte with the continuation bytes that follow it is one code unit. *)
Lemma units_unit (c : ascii) (k : string) :
  allChars isContinuation k = true -> units (String c k) = [String c k].
Proof.
  revert c. induction k as [|x k IH]; intros c Hk; [reflexivity |].
  cbn [allChars] in Hk. apply andb_true_iff in Hk as [Hx Hk].
  change (units (String c (String x k)))
    with (match units (String x k) with
          | u :: rest =>
              if atBoundary u then String c EmptyString :: u :: rest
              else String c u :: rest
          | [] => [String c EmptyString]
          end).
  rewrite (IH x Hk). cbn [atBoundary]. now rewrite Hx.
Qed.

(** What [units] returns: code units, each but the first opening a
    character. *)
Lemma units_spec (s : string) :
  Forall (fun u => exists c k, u = String c k /\ allChars isContinuation k = true)
    (units s)
  /\ Forall (fun u => atBoundary u = true) (tail (units s)).
Proof.
  induction s as [|c s [IH1 IH2]]; [split; constructor |].
  cbn [units]. destruct (units s) as [|u rest].
  - split; [| constructor]. constructor; [| constructor].
    now exists c, EmptyString.
  - cbn [tail] in IH2. destruct (atBoundary u) eqn:Hu.
    + split; [| now constructor]. constructor; [| exact IH1].
      now exists c, EmptyString.
    + split; [| exact IH2]. inversion IH1 as [|? ? (x & k & -> & Hk) Hrest]; subst.
      constructor; [| exact Hrest]. exists c, (String x k). split; [reflexivity |].
      cbn [allChars atBoundary] in *. apply negb_false_iff in Hu. now rewrite Hu.
Qed.

Lemma isContinuation_tail (k : N) :
  (k < 64)%N -> isContinuation (ascii_of_N (128 + k)) = true.
Proof.
  intros H. unfold isContinuation. rewrite N_ascii_embedding by lia.
  apply andb_true_iff. split; apply N.leb_le; lia.
Qed.

(** The bytes written for a code unit are one code unit. *)
Lemma utf8_unit (n : N) :
  (n < 65536)%N ->
  exists c k, utf8 n = String c k
              /\ isContinuation c = false /\ allChars isContinuation k = true.
Proof.
  intros Hn. unfold utf8.
  destruct (N.ltb_spec n 128) as [H1|H1].
  - exists (ascii_of_N n), EmptyString. split; [reflexivity |]. split; [| reflexivity].
    unfold isContinuation. rewrite N_ascii_embedding by lia.
    apply andb_false_iff. left. apply N.leb_gt. lia.
  - destruct (N.ltb_spec n 2048) as [H2|H2].
    + eexists _, _. split; [reflexivity |]. split.
      * assert (n / 64 < 32)%N by (apply N.Div0.div_lt_upper_bound; lia).
        pose proof (N.le_0_l (n / 64)).
        unfold isContinuation. rewrite N_ascii_embedding by lia.
        apply andb_false_iff. right. apply N.leb_gt. lia.
      * cbn [allChars]. rewrite isContinuation_tail; [reflexivity |].
        apply N.mod_lt. lia.
    + eexists _, _. split; [reflexivity |]. split.
      * assert (n / 4096 < 16)%N by (apply N.Div0.div_lt_upper_bound; lia).
        pose proof (N.le_0_l (n / 4096)).
        unfold isContinuation. rewrite N_ascii_embedding by lia.
        apply andb_false_iff. right. apply N.leb_gt. lia.
      * cbn [allChars]. rewrite !isContinuation_tail; [reflexivity | |];
          apply N.mod_lt; lia.
Qed.

(** A string spelled code unit by code unit has these code units. *)
Lemma units_utf8 (codes : list N) :
  Forall (fun n => (n < 65536)%N) codes ->
  units (accumulated (List.map utf8 codes)) = List.map utf8 codes.
Proof.
  induction codes as [|n codes IH]; intros Hcodes; [reflexivity |].
  inversion Hcodes as [|? ? Hn Hrest]; subst.
  change (accumulated (List.map utf8 (n :: codes)))
    with (utf8 n +:+ accumulated (List.map utf8 codes)).
  destruct (utf8_unit n Hn) as (c & k & Hu & Hc & Hk).
  rewrite units_append.
  - cbn [List.map]. rewrite (IH Hrest), Hu, (units_unit c k Hk). reflexivity.
  - destruct codes as [|n' codes']; [reflexivity |].
    inversion Hrest as [|? ? Hn' _]; subst.
    change (accumulated (List.map utf8 (n' :: codes')))
      with (utf8 n' +:+ accumulated (List.map utf8 codes')).
    destruct (utf8_unit n' Hn') as (c' & k' & -> & Hc' & _).
    rewrite append_cons. cbn [atBoundary]. now rewrite Hc'.
Qed.

Lemma lineText_app (a b : list Node) : lineText (a ++ b) = lineText a +:+ lineText b.
Proof.
  induction a as [|[k t|k c concept] a IH]; cbn [app lineText].
  - reflexivity.
  - now rewrite IH, append_assoc.
  - now rewrite IH, append_assoc.
Qed.

Lemma marks_app (a b : list Node) : marks (a ++ b) = marks a ++ marks b.
Proof.
  induction a as [|[k t|k c concept] a IH]; cbn [app marks].
  - reflexivity.
  - now rewrite IH, app_assoc.
  - now rewrite IH.
Qed.

Lemma lineText_flushText (key currentText : string) :
  lineText (flushText key currentText) = currentText.
Proof.
  unfold flushText. destruct currentText; [reflexivity |].
  cbn. now rewrite append_empty_r.
Qed.

Lemma marks_flushText (key currentText : string) :
  marks (flushText key currentText)
  = List.map (fun c => (c, None)) (units currentText).
Proof.
  unfold flushText. destruct currentText as [|c r]; [reflexivity |].
  cbn [isEmpty marks]. now rewrite app_nil_r.
Qed.

Lemma lineText_renderFrom (map : gmap string string) (row : nat) (rest : list string) :
  forall column currentText,
    lineText (renderFrom map row column currentText rest)
    = currentText +:+ accumulated rest.
Proof.
  induction rest as [|c r IH]; intros column currentText; cbn [renderFrom].
  - now rewrite lineText_flushText, append_empty_r.
  - change (accumulated (c :: r)) with (c +:+ accumulated r).
    destruct (map !! _).
    + rewrite lineText_app, lineText_flushText. cbn [lineText].
      now rewrite IH, append_empty_l.
    + rewrite IH, append_assoc. reflexivity.
Qed.

Lemma marks_renderFrom (map : gmap string string) (row : nat) (rest : list string) :
  forall column currentText,
    Forall (fun u => exists c k, u = String c k /\ allChars isContinuation k = true)
      rest ->
    Forall (fun u => atBoundary u = true) (tail rest) ->
    currentText = EmptyString \/ Forall (fun u => atBoundary u = true) rest ->
    marks (renderFrom map row column currentText rest)
    = List.map (fun c => (c, None)) (units currentText)
      ++ imap (fun i c =>
                 (c, map !! spotKey (Z.of_nat row) (Z.of_nat (column + i))))
           rest.
Proof.
  induction rest as [|c r IH]; intros column currentText Hunits Htail Hhead;
    cbn [renderFrom].
  - rewrite marks_flushText. cbn [imap]. now rewrite app_nil_r.
  - cbn [tail] in Htail. inversion Hunits as [|? ? (x & k & -> & Hk) Hr]; subst.
    assert (Hnext : Forall (fun u => atBoundary u = true) (tail r))
      by (destruct r; [constructor | now inversion Htail]).
    cbn [imap]. rewrite Nat.add_0_r.
    destruct (map !! spotKey (Z.of_nat row) (Z.of_nat column)) as [concept|] eqn:Hspot.
    + rewrite marks_app, marks_flushText. cbn [marks].
      rewrite (IH _ _ Hr Hnext (or_introl eq_refl)).
      cbn [units List.map app]. do 2 f_equal.
      apply imap_ext. intros i u _. cbn. do 3 f_equal. lia.
    + rewrite (IH _ _ Hr Hnext (or_intror Htail)).
      assert (Hsnoc : units (currentText +:+ String x k)
                      = units currentText ++ [String x k]).
      { destruct Hhead as [-> | Hhead].
        - now rewrite append_empty_l, units_unit.
        - inversion Hhead as [|? ? Hb _]; subst.
          now rewrite (units_append _ _ Hb), units_unit. }
      rewrite Hsnoc, map_app, <- app_assoc.
      cbn [List.map app]. do 2 f_equal.
      apply imap_ext. intros i u _. cbn. do 3 f_equal. lia.
Qed.

Lemma splitLines_nonempty (s : string) : splitLines s <> [].
Proof.
  induction s as [|c r IH]; [discriminate |]. cbn [splitLines].
  destruct (Ascii.eqb c "010"); [discriminate |].
  destruct (splitLines r); discriminate.
Qed.

(** Joining the lines with line feeds gives the text back. *)
Lemma splitLines_join (s : string) :
  fold_right (fun line text => line +:+ LF +:+ text) EmptyString (splitLines s)
  = s +:+ LF.
Proof.
  induction s as [|c r IH]; [reflexivity |].
  cbn [splitLines]. destruct (Ascii.eqb_spec c "010") as [->|Hc].
  - cbn [fold_right]. now rewrite IH.
  - destruct (splitLines r) as [|line lines] eqn:Hlines;
      [now destruct (splitLines_nonempty r) |].
    cbn [fold_right] in IH |- *. now rewrite !append_cons, IH.
Qed.

Lemma pageText_renderLines (map : gmap string string) (lines : list string) :
  forall row,
    pageText (renderLines map row lines)
    = fold_right (fun line text => line +:+ LF +:+ text) EmptyString lines.
Proof.
  induction lines as [|line lines IH]; intros row; [reflexivity |].
  cbn [renderLines pageText fold_right].
  now rewrite lineText_renderFrom, append_empty_l, accumulated_units, IH.
Qed.

(** X27.  Whatever the hotspots,
    [renderInteractiveArt] puts every character of the art on the page
    once and in order: the text of the rendered lines, each followed by its
    line feed, is the art followed by a line feed, and there are as many
    rendered lines as the art has lines.  Without art nothing is
    rendered. *)
Theorem render_shows_the_art_unchanged (data : AsciiArtData) :
  renderInteractiveArt None = None
  /\ exists lines,
       renderInteractiveArt (Some data) = Some lines
       /\ pageText lines = art data +:+ LF
       /\ length lines = length (splitLines (art data)).
Proof.
  split; [reflexivity |].
  exists (renderLines (hotspotMap (Some data)) 0 (splitLines (art data))).
  split; [reflexivity |].
  split; [now rewrite pageText_renderLines, splitLines_join |].
  generalize 0%nat. induction (splitLines (art data)) as [|line lines IH]; intros row.
  - reflexivity.
  - cbn. now rewrite IH.
Qed.

Lemma pretty_N_go_digits (n : N) (s : string) :
  allChars isDigit s = true -> allChars isDigit (pretty_N_go n s) = true.
Proof.
  revert s. induction (N.lt_wf_0 n) as [n _ IH]; intros s Hs.
  destruct (N.eq_dec n 0%N) as [->|Hn]; [now rewrite pretty_N_go_0 |].
  rewrite pretty_N_go_step by lia. apply IH.
  - apply N.div_lt; lia.
  - cbn [allChars]. rewrite Hs, andb_true_r.
    unfold pretty_N_char. repeat case_match; reflexivity.
Qed.

Lemma pretty_N_go_nonempty (n : N) (s : string) :
  isEmpty s = false -> isEmpty (pretty_N_go n s) = false.
Proof.
  revert s. induction (N.lt_wf_0 n) as [n _ IH]; intros s Hs.
  destruct (N.eq_dec n 0%N) as [->|Hn]; [now rewrite pretty_N_go_0 |].
  rewrite pretty_N_go_step by lia. apply IH; [apply N.div_lt; lia | reflexivity].
Qed.

(** A number that is not negative is written with digits only. *)
Lemma pretty_Z_digits (z : Z) :
  0 <= z -> allChars isDigit (pretty z) = true /\ isEmpty (pretty z) = false.
Proof.
  destruct z as [|p|p]; [now split | | lia]. intros _.
  change (pretty (Z.pos p)) with (pretty_N_go (N.pos p) EmptyString).
  split; [now apply pretty_N_go_digits |].
  rewrite pretty_N_go_step by lia. now apply pretty_N_go_nonempty.
Qed.

Lemma digits_lack_dash (s : string) :
  allChars isDigit s = true -> lacksChar "-" s = true.
Proof.
  unfold lacksChar. induction s as [|c r IH]; [reflexivity |].
  cbn [allChars]. intros H. apply andb_true_iff in H as [Hc Hr].
  rewrite (IH Hr), andb_true_r.
  destruct (Ascii.eqb_spec c "-") as [->|]; [discriminate Hc | reflexivity].
Qed.

(** The key of a position on the page belongs to one pair of coordinates. *)
Lemma spotKey_inj (row column row' column' : Z) :
  0 <= row -> 0 <= column ->
  spotKey row' column' = spotKey row column -> row' = row /\ column' = column.
Proof.
  intros Hrow Hcolumn. unfold spotKey.
  destruct (pretty_Z_digits row Hrow) as [Hdigits Hne].
  destruct (Z_lt_le_dec row' 0) as [Hneg|Hpos].
  - destruct row' as [|p|p]; try lia.
    change (pretty (Z.neg p)) with ("-" +:+ pretty p).
    rewrite append_assoc, append_cons, append_empty_l.
    destruct (pretty row) as [|d r]; [discriminate Hne |].
    rewrite append_cons. intros H. injection H as <- _.
    cbn in Hdigits. discriminate Hdigits.
  - destruct (pretty_Z_digits row' Hpos) as [Hdigits' _]. intros H.
    destruct (split_at_char "-" (pretty row') (pretty row) _ _
                (digits_lack_dash _ Hdigits') (digits_lack_dash _ Hdigits) H)
      as [Hr Hc].
    split; [exact (pretty_Z_inj _ _ Hr) | exact (pretty_Z_inj _ _ Hc)].
Qed.

Lemma hotspotMap_fold (row column : Z) (spots : list Hotspot) :
  0 <= row -> 0 <= column ->
  forall start : gmap string string,
    fold_left (fun map spot => <[spotKey (y spot) (x spot) := concept spot]> map)
      spots start !! spotKey row column
    = match lastConceptAt row column spots with
      | Some c => Some c
      | None => start !! spotKey row column
      end.
Proof.
  intros Hrow Hcolumn. induction spots as [|spot rest IH]; intros start.
  - reflexivity.
  - cbn [fold_left lastConceptAt]. rewrite IH.
    destruct (lastConceptAt row column rest); [reflexivity |].
    destruct ((y spot =? row) && (x spot =? column)) eqn:Hat.
    + apply andb_true_iff in Hat as [Hy Hx].
      apply Z.eqb_eq in Hy, Hx. rewrite Hy, Hx. apply lookup_insert_eq.
    + rewrite lookup_insert_ne; [reflexivity |].
      intros Hkey. apply (spotKey_inj row column) in Hkey as [Hy Hx]; try assumption.
      rewrite Hy, Hx, !Z.eqb_refl in Hat. discriminate Hat.
Qed.

Lemma nth_error_renderLines (map : gmap string string) (lines : list string) :
  forall start row,
    nth_error (renderLines map start lines) row
    = option_map (fun line => renderFrom map (start + row) 0 EmptyString (units line))
        (nth_error lines row).
Proof.
  induction lines as [|line lines IH]; intros start [|row]; cbn; try reflexivity.
  - now rewrite Nat.add_0_r.
  - rewrite IH. now replace (S start + row)%nat with (start + S row)%nat by lia.
Qed.

Lemma imap_map {A B C : Type} (f : nat -> B -> C) (g : A -> B) (l : list A) :
  imap f (List.map g l) = imap (fun i a => f i (g a)) l.
Proof.
  revert f. induction l as [|a l IH]; intros f; [reflexivity |].
  cbn [List.map imap]. now rewrite IH.
Qed.

(** X28.  On the rendered page the character in
    row [y], column [x] of the art is interactive exactly when a hotspot
    has these coordinates, and its tooltip is the concept of the last such
    hotspot in the list; every other character is plain text.  A column is
    a position in the line as [line[x]] counts it, in code units: for the
    line spelled by the code units [codes], the marks are those of the
    code units, one by one.  Hotspots whose coordinates are negative or
    lie outside the art mark nothing. *)
Theorem render_marks_the_hotspots (data : AsciiArtData) (row : nat) (codes : list N) :
  Forall (fun n => (n < 65536)%N) codes ->
  nth_error (splitLines (art data)) row = Some (accumulated (List.map utf8 codes)) ->
  exists lines nodes,
    renderInteractiveArt (Some data) = Some lines
    /\ nth_error lines row = Some nodes
    /\ lineText nodes = accumulated (List.map utf8 codes)
    /\ marks nodes
       = imap (fun column n =>
                 (utf8 n, lastConceptAt (Z.of_nat row) (Z.of_nat column)
                            (match hotspots data with
                             | Some spots => spots
                             | None => []
                             end)))
           codes.
Proof.
  intros Hcodes Hline. set (line := accumulated (List.map utf8 codes)) in *.
  exists (renderLines (hotspotMap (Some data)) 0 (splitLines (art data))),
    (renderFrom (hotspotMap (Some data)) row 0 EmptyString (units line)).
  split; [reflexivity |].
  split; [now rewrite nth_error_renderLines, Hline |].
  split; [now rewrite lineText_renderFrom, append_empty_l, accumulated_units |].
  destruct (units_spec line) as [Hunits Htail].
  rewrite (marks_renderFrom _ _ _ _ _ Hunits Htail (or_introl eq_refl)).
  cbn [units List.map app]. unfold line. rewrite (units_utf8 codes Hcodes), imap_map.
  apply imap_ext. intros column n _. cbn [Nat.add]. f_equal.
  unfold hotspotMap. destruct (hotspots data) as [spots|]; [| reflexivity].
  rewrite hotspotMap_fold by lia.
  destruct (lastConceptAt _ _ spots); [reflexivity | apply lookup_empty].
Qed.

Lemma render_marks_the_hotspots_witness :
  (exists lines nodes,
      renderInteractiveArt (Some sampleArt) = Some lines
      /\ nth_error lines 0 = Some nodes
      /\ marks nodes = [("o", None); ("-", None); ("-", None); ("o", Some "Hyperlink")])
  /\ (exists lines nodes,
        renderInteractiveArt (Some cornerArt) = Some lines
        /\ nth_error lines 0 = Some nodes
        /\ marks nodes
           = [(utf8 0x250C, None); (utf8 0x2500, None); (utf8 0x2510, Some "Corner")]).
Proof.
  split.
  - destruct (render_marks_the_hotspots sampleArt 0 [111; 45; 45; 111]%N
                ltac:(repeat constructor) eq_refl)
      as (lines & nodes & Hrender & Hnth & _ & Hmarks).
    exists lines, nodes. split; [exact Hrender |]. split; [exact Hnth |].
    rewrite Hmarks. reflexivity.
  - destruct (render_marks_the_hotspots cornerArt 0 [0x250C; 0x2500; 0x2510]%N
                ltac:(repeat constructor) eq_refl)
      as (lines & nodes & Hrender & Hnth & _ & Hmarks).
    exists lines, nodes. split; [exact Hrender |]. split; [exact Hnth |].
    rewrite Hmarks. reflexivity.
Defined.

End Art.

(** ** The settings panel and the cache *)

Lemma sessionStorage_setSetting (accepted : bool) (entry : Entry) (w : World) :
  sessionStorage (setSetting accepted entry w) = sessionStorage w.
Proof. now destruct accepted. Qed.

(** X29.  Choosing a model, entering a key,
    entering a custom model name that is not blank, and the clear button
    each empty the cache: every read is a miss afterwards, whether or not
    [localStorage] kept the setting, so that [generateAncillaryData] asks
    the backend again for every topic.  The art-quality toggle and a blank
    custom name leave [sessionStorage] as it is: ancillary data cached
    before the toggle is still served after it, without a request, although
    a request would now carry the other thinking configuration.  A setting
    that [localStorage] kept is the one the services read next. *)
Theorem settings_changes_and_the_cache {U : Type} (accepted : bool) (value : string)
  (isChecked : bool) (st : SettingsModal.State) (w : World)
  (onRetry : option (nat -> Z -> U -> U)) (topic : string) (u : U) :
  let modelChanged := snd (SettingsModal.handleModelChange accepted value st w) in
  let keyChanged := snd (SettingsModal.handleApiKeyChange accepted value st w) in
  let nameChanged :=
    snd (SettingsModal.handleCustomModelNameChange accepted value st w) in
  let cleared := snd (SettingsModal.handleClearCache st w) in
  let toggled := snd (SettingsModal.handleToggleChange accepted isChecked st w) in
  ((forall key, cache.get key modelChanged = JNull)
   /\ (forall key, cache.get key keyChanged = JNull)
   /\ (forall key, cache.get key cleared = JNull)
   /\ (isEmpty (trim value) = false -> forall key, cache.get key nameChanged = JNull)
   /\ generateAncillaryData topic onRetry modelChanged u
      = geminiRequestWithRetry
          (ancillaryApiCall topic (settingsService.getActiveModelId modelChanged)
             (ancillaryKey (settingsService.getActiveModelId modelChanged) topic))
          onRetry modelChanged u)
  /\ (sessionStorage toggled = sessionStorage w
      /\ (isEmpty (trim value) = true -> sessionStorage nameChanged = sessionStorage w)
      /\ (truthy (cache.get (ancillaryKey (settingsService.getActiveModelId w) topic) w)
          = true ->
          generateAncillaryData topic onRetry toggled u
          = mkRun
              (Fulfilled
                 (cache.get (ancillaryKey (settingsService.getActiveModelId w) topic) w))
              toggled u []))
  /\ (accepted = true ->
      (value <> "custom-model" ->
       settingsService.getActiveModelId modelChanged = value)
      /\ (isEmpty (trim value) = false ->
          settingsService.getApiKey keyChanged = Some (trim value))
      /\ thinkingConfig
           (ancillaryRequest topic (settingsService.getActiveModelId toggled) toggled)
         = if isChecked then ThoughtTrue else ThinkingBudgetZero).
Proof.
  intros modelChanged keyChanged nameChanged cleared toggled. split; [| split].
  - assert (Hmodel : forall key, cache.get key modelChanged = JNull)
      by (intros key; apply cache_get_clearAll).
    split; [exact Hmodel |]. split; [intros key; apply cache_get_clearAll |].
    split; [intros key; apply cache_get_clearAll |]. split.
    + intros Hname key. subst nameChanged.
      unfold SettingsModal.handleCustomModelNameChange.
      cbn [snd]. rewrite Hname. apply cache_get_clearAll.
    + apply ancillary_miss. now rewrite Hmodel.
  - assert (Hstore : sessionStorage toggled = sessionStorage w)
      by apply sessionStorage_setSetting.
    split; [exact Hstore |]. split.
    + intros Hname. subst nameChanged.
      unfold SettingsModal.handleCustomModelNameChange.
      cbn [snd]. rewrite Hname. apply sessionStorage_setSetting.
    + intros Hhit.
      assert (Hactive : settingsService.getActiveModelId toggled
                        = settingsService.getActiveModelId w)
        by (subst toggled; now destruct accepted).
      rewrite <- (cache_get_storage _ _ _ Hstore), <- Hactive in Hhit |- *.
      now apply ancillary_hit.
  - intros ->. split; [| split].
    + intros Hvalue. unfold settingsService.getActiveModelId.
      subst modelChanged.
      cbn [SettingsModal.handleModelChange snd cache.clearAll withStorage settings
           setSetting withSettings writeEntry apiModel settingsService.getSetting].
      destruct (String.eqb_spec value "custom-model"); [contradiction | reflexivity].
    + intros Hkey. unfold settingsService.getApiKey. subst keyChanged.
      cbn [SettingsModal.handleApiKeyChange snd cache.clearAll withStorage settings
           setSetting withSettings writeEntry customApiKey settingsService.getSetting].
      now rewrite Hkey.
    + unfold ancillaryRequest. subst toggled.
      cbn [SettingsModal.handleToggleChange snd settings setSetting withSettings
           writeEntry highQualityArt settingsService.getSetting thinkingConfig].
      reflexivity.
Qed.

Lemma settings_changes_and_the_cache_witness :
  let w := snd (SettingsModal.handleModelChange true "gemini-2.5-pro"
                  (SettingsModal.mount sharedWorld) sharedWorld) in
  cache.get "definition_gemini-flash-latest_hypertext" sharedWorld = JString "A medium."
  /\ cache.get "definition_gemini-flash-latest_hypertext" w = JNull
  /\ settingsService.getActiveModelId w = "gemini-2.5-pro".
Proof.
  destruct (settings_changes_and_the_cache true "gemini-2.5-pro" true
              (SettingsModal.mount sharedWorld) sharedWorld (Some recordRetry)
              "Hypertext" [])
    as ((Hmodel & _) & _ & Hread).
  destruct (Hread eq_refl) as (Hactive & _).
  split; [vm_compute; reflexivity |]. split; [apply Hmodel |].
  apply Hactive. discriminate.
Defined.

(** ** Two calls and what happens between them *)

Lemma cache_get_lookup (key : string) (w w' : World) :
  sessionStorage w' !! (cache.PREFIX +:+ key) = sessionStorage w !! (cache.PREFIX +:+ key) ->
  cache.get key w' = cache.get key w.
Proof. intros H. unfold cache.get. now rewrite H. Qed.

(** After a call that resolved, with its write accepted, the cache holds
    the value of the call under its key. *)
Lemma ancillary_resolved_entry {U : Type} (onRetry : option (nat -> Z -> U -> U))
  (topic : string) (w : World) (u : U) (value : json) :
  let cacheKey := ancillaryKey (settingsService.getActiveModelId w) topic in
  let run := generateAncillaryData topic onRetry w u in
  outcome run = Fulfilled value ->
  storageAccepts w (sessionStorage w) (cache.PREFIX +:+ cacheKey)
    (JSON_stringify value) = true ->
  cache.get cacheKey (final run) = value /\ truthy value = true.
Proof.
  intros cacheKey run Hout Hacc. subst run. unfold generateAncillaryData in *.
  fold cacheKey in Hout |- *.
  destruct (truthy (cache.get cacheKey w)) eqn:Hhit.
  - cbn [outcome final] in *. injection Hout as <-. now split.
  - unfold geminiRequestWithRetry in *.
    destruct (retryLoop_success
                (ancillaryApiCall topic (settingsService.getActiveModelId w) cacheKey)
                onRetry
                (fun w' => sessionStorage w' = sessionStorage w
                           /\ storageAccepts w' = storageAccepts w)
                ltac:(intros s e s' [H1 H2] Hcall;
                      destruct (ancillaryApiCall_rejected _ _ _ _ _ _ Hcall)
                        as (H3 & H4 & _); split; congruence)
                MAX_RETRIES None w u value (conj eq_refl eq_refl) Hout)
      as (w0 & [Hst Hac] & Hcall).
    destruct (ancillaryApiCall_fulfilled _ _ _ _ _ _ Hcall) as (-> & Hwf & Htruthy).
    split; [| exact Htruthy].
    apply cache_get_set; [| exact Hwf]. simpl. now rewrite Hac, Hst.
Qed.

(** The effect of the page is made of such operations: [fetchTopicData]
    runs the stream, writes the definition and calls
    [generateAncillaryData]. *)
Lemma fetchTopicData_steps (elapsed : Z) (st : AppState) (w : World) :
  rtc Step w (snd (fetchTopicData elapsed st w)).
Proof.
  unfold fetchTopicData.
  set (st' := setAncillaryError None _).
  assert (Hfirst : rtc Step w (snd (fetchDefinition (error st) st' w))).
  { unfold fetchDefinition.
    destruct (truthy (cache.get _ w)); [apply rtc_refl |].
    destruct (showChunks _ _ _) as [accumulatedContent st1].
    destruct (ending _); cbn [snd].
    - apply rtc_once. apply StepStream.
    - destruct (isEmpty accumulatedContent); [apply rtc_once; apply StepStream |].
      eapply rtc_l; [apply StepStream |]. apply rtc_once. apply StepDefinition. }
  destruct (fetchDefinition (error st) st' w) as [[definitionError st1] w1].
  cbn [snd] in Hfirst.
  destruct (nonEmpty definitionError); cbn [snd]; [exact Hfirst |].
  eapply rtc_r; [exact Hfirst |]. apply StepAncillary.
Qed.

(** No operation but [clearAll] takes an ancillary entry away or replaces
    it: a writer to its key finds it first. *)
Lemma Step_keeps_entry (modelId topic : string) (w w' : World) :
  Step w w' ->
  truthy (cache.get (ancillaryKey modelId topic) w) = true ->
  sessionStorage w' !! (cache.PREFIX +:+ ancillaryKey modelId topic)
  = sessionStorage w !! (cache.PREFIX +:+ ancillaryKey modelId topic).
Proof.
  intros Hstep Hentry.
  destruct Hstep as [U topic' onRetry u w | U topic' onRetry u w
                     | query file w | modelId' topic' text w | accepted entry w].
  - destruct (truthy (cache.get
                        (ancillaryKey (settingsService.getActiveModelId w) topic') w))
      eqn:Hhit.
    + now rewrite (ancillary_hit _ _ _ _ Hhit).
    + rewrite (ancillary_miss _ _ _ _ Hhit).
      apply (ancillary_run_footprint onRetry). intros Hkey.
      apply append_inj_l in Hkey. rewrite Hkey, Hhit in Hentry. discriminate Hentry.
  - destruct (truthy (cache.get
                        (deepDiveKey (settingsService.getActiveModelId w) topic') w))
      eqn:Hhit.
    + now rewrite (deepDive_hit _ _ _ _ Hhit).
    + rewrite (deepDive_miss _ _ _ _ Hhit).
      apply (deepDive_run_footprint onRetry). intros Hkey.
      apply append_inj_l in Hkey. discriminate Hkey.
  - now rewrite (proj1 (stream_after_storage query file w)).
  - apply storage_cache_set_other. intros Hkey.
    apply append_inj_l in Hkey. discriminate Hkey.
  - now rewrite sessionStorage_setSetting.
Qed.

Lemma steps_keep_entry (modelId topic : string) (w w' : World) :
  rtc Step w w' ->
  truthy (cache.get (ancillaryKey modelId topic) w) = true ->
  cache.get (ancillaryKey modelId topic) w' = cache.get (ancillaryKey modelId topic) w.
Proof.
  induction 1 as [w | w w1 w' Hstep _ IH]; intros Hentry; [reflexivity |].
  pose proof (cache_get_lookup _ _ _ (Step_keeps_entry modelId topic w w1 Hstep Hentry))
    as Hsame.
  rewrite IH by now rewrite Hsame. exact Hsame.
Qed.

(** C4, as the code has it.  When a first call to [generateAncillaryData]
    resolves, having written its result to the cache, a second call for
    the same model and the same topic resolves with the cached value,
    leaves the world as it is and never enters the retry wrapper: it
    issues no request.  So it is whatever the application did in between,
    short of clearing the cache: calls of the generators for any topics
    and models, runs of the stream, writes of definitions and of settings.
    The cached value is the value of the first call; numbers, which the
    cache keeps as [JSON.stringify] writes them, are whole numbers that a
    double holds exactly.  The first call issues at most [MAX_RETRIES]
    requests, one per attempt. *)
Theorem ancillary_second_call_is_cache_hit {U U2 : Type}
  (onRetry : option (nat -> Z -> U -> U))
  (onRetry2 : option (nat -> Z -> U2 -> U2))
  (topic : string) (w w2 : World) (u : U) (u2 : U2) (value : json) :
  let cacheKey := ancillaryKey (settingsService.getActiveModelId w) topic in
  let first := generateAncillaryData topic onRetry w u in
  let second := generateAncillaryData topic onRetry2 w2 u2 in
  outcome first = Fulfilled value ->
  storageAccepts w (sessionStorage w) (cache.PREFIX +:+ cacheKey)
    (JSON_stringify value) = true ->
  rtc Step (final first) w2 ->
  settingsService.getActiveModelId w2 = settingsService.getActiveModelId w ->
  second = mkRun (Fulfilled (cache.get cacheKey w2)) w2 u2 []
  /\ (safeNumbers value = true -> outcome second = Fulfilled value)
  /\ (length (sent (final first)) <= length (sent w) + 3)%nat.
Proof.
  intros cacheKey first second Hout Hacc Hsteps Hmodel.
  destruct (ancillary_resolved_entry onRetry topic w u value Hout Hacc)
    as [Hentry Htruthy].
  destruct (ancillary_resolved_cached onRetry topic w u value Hout Hacc)
    as [Hcached Hsent].
  fold cacheKey first in Hentry, Hcached, Hsent.
  pose proof (steps_keep_entry _ topic _ _ Hsteps Hcached) as Hkept.
  fold cacheKey in Hkept.
  assert (Hsecond : second = mkRun (Fulfilled (cache.get cacheKey w2)) w2 u2 []).
  { subst second. unfold cacheKey. rewrite <- Hmodel. apply ancillary_hit.
    rewrite Hmodel. fold cacheKey. now rewrite Hkept. }
  split; [exact Hsecond |]. split; [| exact Hsent].
  intros _. now rewrite Hsecond, Hkept, Hentry.
Qed.

Lemma ancillary_second_call_is_cache_hit_witness :
  let first := generateAncillaryData "Hypertext" (Some recordRetry) throttledWorld [] in
  let between := generateDeepDive "Entropy" (Some recordRetry) (final first) [] in
  let w2 := setSetting true (HighQualityArtEntry false) (final between) in
  let second := generateAncillaryData "Hypertext" (Some recordRetry) w2 [] in
  (exists value,
      outcome first = Fulfilled value
      /\ storageAccepts throttledWorld (sessionStorage throttledWorld)
           (cache.PREFIX
            +:+ ancillaryKey (settingsService.getActiveModelId throttledWorld) "Hypertext")
           (JSON_stringify value) = true
      /\ safeNumbers value = true
      /\ outcome second = Fulfilled value)
  /\ rtc Step (final first) w2
  /\ trace second = []
  /\ final second = w2
  /\ (length (sent (final first)) <= length (sent throttledWorld) + 3)%nat.
Proof.
  intros first between w2 second.
  set (value :=
         JObject [("concepts", JArray [JString "HTML"; JString "Hyperlink"]);
                  ("artData", JObject [("art", JString "o--o")])]).
  assert (Hout : outcome first = Fulfilled value) by (vm_compute; reflexivity).
  assert (Hsteps : rtc Step (final first) w2).
  { apply (rtc_l _ _ (final between)).
    - exact (StepDeepDive "Entropy" (Some recordRetry) [] (final first)).
    - apply rtc_once.
      exact (StepSetting true (HighQualityArtEntry false) (final between)). }
  destruct (ancillary_second_call_is_cache_hit (Some recordRetry) (Some recordRetry)
              "Hypertext" throttledWorld w2 [] [] value
              Hout eq_refl Hsteps eq_refl) as (Hsecond & Hvalue & Hsent).
  fold second in Hsecond, Hvalue.
  split.
  { exists value. split; [exact Hout |]. split; [reflexivity |].
    split; [reflexivity | exact (Hvalue eq_refl)]. }
  split; [exact Hsteps |].
  split; [now rewrite Hsecond |]. split; [now rewrite Hsecond | exact Hsent].
Defined.

(** The wording of C4 fails where the first call has to retry: both calls
    resolve with the same value and the second is a pure cache hit, but two
    requests have been issued. *)
Lemma ancillary_two_calls_two_requests :
  let first := generateAncillaryData "Hypertext" (Some recordRetry) throttledWorld [] in
  let second := generateAncillaryData "Hypertext" (Some recordRetry) (final first) [] in
  (exists value, outcome first = Fulfilled value /\ outcome second = Fulfilled value)
  /\ trace first = [Attempt; Notify 1 2000; Sleep 2000; Attempt]
  /\ trace second = []
  /\ length (sent (final second)) = 2%nat
  /\ ~ (length (sent (final second)) <= length (sent throttledWorld) + 1)%nat.
Proof.
  intros first second.
  assert (Hn : length (sent (final second)) = 2%nat) by (vm_compute; reflexivity).
  split; [eexists; split; vm_compute; reflexivity |].
  split; [vm_compute; reflexivity |]. split; [vm_compute; reflexivity |].
  split; [exact Hn |]. rewrite Hn. simpl. lia.
Qed.

(** ** The parts of a summary *)

Lemma lineTerminators_spaces (x : string) :
  In x lineTerminators -> In x whiteSpaces.
Proof.
  intros H. vm_compute in H. destruct H as [<- | [<- | [<- | [<- | []]]]];
    vm_compute; repeat (first [left; reflexivity | right]).
Qed.

(** A line terminator is white space. *)
Lemma opensLine_space (s : string) :
  opensLine s = true -> exists ws, whiteSpaceAt s = Some ws.
Proof.
  unfold opensLine. intros H. apply List.existsb_exists in H as (x & Hin & Hs).
  apply startsWith_spec in Hs as (rest & ->). exists x.
  apply whiteSpaceAt_space. now apply lineTerminators_spaces.
Qed.

Lemma opensLine_prefix (b t : string) :
  opensLine b = true -> opensLine (b +:+ t) = true.
Proof.
  unfold opensLine. intros H. apply List.existsb_exists in H as (x & Hin & Hs).
  apply List.existsb_exists. exists x. split; [exact Hin |].
  apply startsWith_spec in Hs as (rest & ->).
  rewrite append_assoc. apply startsWith_append.
Qed.

Lemma opensLine_aligned (c : ascii) (x t : string) :
  opensLine (String c x) = false -> atBoundary t = true ->
  opensLine (String c (x +:+ t)) = false.
Proof.
  intros Hnone Ht.
  destruct (opensLine (String c (x +:+ t))) eqn:Hat; [| reflexivity].
  exfalso. unfold opensLine in Hat.
  apply List.existsb_exists in Hat as (lt & Hin & Hs).
  apply startsWith_spec in Hs as (rest & Heq).
  vm_compute in Hin. destruct Hin as [<- | [<- | [<- | [<- | []]]]];
    rewrite ?append_cons, ?append_empty_l in Heq;
    injection Heq as -> Heq;
    try (vm_compute in Hnone; discriminate Hnone);
    (destruct x as [|x1 x];
     [rewrite append_empty_l in Heq; subst t; discriminate Ht
     | rewrite append_cons in Heq; injection Heq as -> Heq]);
    try (vm_compute in Hnone; discriminate Hnone);
    (destruct x as [|x2 x];
     [rewrite append_empty_l in Heq; subst t; discriminate Ht
     | rewrite append_cons in Heq; injection Heq as -> Heq]);
    vm_compute in Hnone; discriminate Hnone.
Qed.

(** A string is without white space when none opens at any place in it. *)
Lemma spaceless_spec (s : string) :
  spaceless s = true <-> forall a b, s = a +:+ b -> whiteSpaceAt b = None.
Proof.
  induction s as [|c r IH].
  - split; [| reflexivity]. intros _ [|x a] b H; [| discriminate H].
    rewrite append_empty_l in H. now subst b.
  - cbn [spaceless]. destruct (whiteSpaceAt (String c r)) as [ws|] eqn:Hat.
    + split; [discriminate |]. intros H.
      specialize (H EmptyString (String c r) eq_refl). congruence.
    + rewrite IH. split.
      * intros H [|x a] b Heq.
        -- rewrite append_empty_l in Heq. now subst b.
        -- rewrite append_cons in Heq. injection Heq as _ Heq. exact (H a b Heq).
      * intros H a b Heq. apply (H (String c a) b). now rewrite Heq.
Qed.

Lemma spaceless_suffix (a b : string) :
  spaceless (a +:+ b) = true -> spaceless b = true.
Proof.
  rewrite !spaceless_spec. intros H a' b' ->.
  apply (H (a +:+ a') b'). now rewrite append_assoc.
Qed.

Lemma spaceless_prefix (a b : string) :
  spaceless (a +:+ b) = true -> spaceless a = true.
Proof.
  rewrite !spaceless_spec. intros H a1 a2 ->.
  specialize (H a1 (a2 +:+ b) (append_assoc _ _ _)).
  destruct (whiteSpaceAt a2) as [ws|] eqn:Hat; [| reflexivity].
  now rewrite (whiteSpaceAt_prefix _ b _ Hat) in H.
Qed.

Lemma spaceless_oneLine (s : string) : spaceless s = true -> oneLine s = true.
Proof.
  induction s as [|c r IH]; [reflexivity |]. cbn [spaceless oneLine].
  destruct (whiteSpaceAt (String c r)) as [ws|] eqn:Hat; [discriminate |].
  intros H. rewrite (IH H), andb_true_r.
  destruct (opensLine (String c r)) eqn:Ho; [| reflexivity].
  apply opensLine_space in Ho as (ws & Hws). congruence.
Qed.

Lemma closeMarker_spec (s inner rest : string) :
  closeMarker s = Some (inner, rest) ->
  s = inner +:+ "]]" +:+ rest /\ oneLine inner = true.
Proof.
  revert inner rest. induction s as [|c r IH]; intros inner rest.
  - cbn. discriminate.
  - cbn [closeMarker]. destruct (dropPrefix "]]" (String c r)) as [rest'|] eqn:Hdrop.
    + intros H. injection H as <- <-. apply dropPrefix_spec in Hdrop.
      now rewrite append_empty_l.
    + destruct (opensLine (String c r)) eqn:Hc; [discriminate |].
      destruct (closeMarker r) as [[inner' rest']|]; [| discriminate].
      intros H. injection H as <- <-.
      destruct (IH inner' rest' eq_refl) as [-> Hinner].
      rewrite append_cons. split; [reflexivity |].
      cbn [oneLine]. rewrite Hinner, andb_true_r.
      destruct (opensLine (String c inner')) eqn:Ho; [| reflexivity].
      apply (opensLine_prefix _ ("]]" +:+ rest')) in Ho.
      rewrite append_cons in Ho. congruence.
Qed.

Lemma closeMarker_finds (x rest : string) :
  oneLine x = true -> closeMarker (x +:+ "]]" +:+ rest) <> None.
Proof.
  induction x as [|c r IH]; intros Hx.
  - rewrite append_empty_l. cbn. discriminate.
  - cbn [oneLine] in Hx. apply andb_true_iff in Hx as [Hc Hr].
    apply negb_true_iff in Hc. rewrite append_cons. cbn [closeMarker].
    destruct (dropPrefix "]]" _); [discriminate |].
    rewrite (opensLine_aligned c r ("]]" +:+ rest) Hc eq_refl).
    specialize (IH Hr). destruct (closeMarker _) as [[a b]|]; [discriminate |].
    now contradiction IH.
Qed.

(** The lazy group stops at the first pair of closing brackets. *)
Lemma closeMarker_exact (keyword rest : string) :
  oneLine keyword = true -> lacksChar "]" keyword = true ->
  closeMarker (keyword +:+ "]]" +:+ rest) = Some (keyword, rest).
Proof.
  unfold lacksChar. induction keyword as [|c r IH]; intros Hline Hlacks.
  - reflexivity.
  - cbn [oneLine] in Hline. apply andb_true_iff in Hline as [Hc Hr].
    apply negb_true_iff in Hc.
    cbn [allChars] in Hlacks. apply andb_true_iff in Hlacks as [Hx Hlacks].
    apply negb_true_iff in Hx.
    rewrite append_cons. cbn [closeMarker dropPrefix].
    rewrite Ascii.eqb_sym, Hx.
    rewrite (opensLine_aligned c r ("]]" +:+ rest) Hc eq_refl).
    now rewrite (IH Hr Hlacks).
Qed.

Lemma endsWith_spec (s suffix : string) :
  endsWith s suffix = true <-> exists before, s = before +:+ suffix.
Proof.
  induction s as [|c r IH].
  - cbn [endsWith]. rewrite orb_false_r. split.
    + intros H. apply String.eqb_eq in H as <-. now exists EmptyString.
    + intros ([|x b] & H); [| discriminate H].
      rewrite append_empty_l in H. subst suffix. reflexivity.
  - cbn [endsWith]. rewrite orb_true_iff, IH. split.
    + intros [H | (before & ->)].
      * apply String.eqb_eq in H as <-. now exists EmptyString.
      * now exists (String c before).
    + intros ([|x b] & H).
      * left. rewrite append_empty_l in H. subst suffix. apply String.eqb_refl.
      * right. rewrite append_cons in H. injection H as -> ->. now exists b.
Qed.

Lemma substring_prefix (a b : string) :
  String.substring 0 (String.length a) (a +:+ b) = a.
Proof.
  induction a as [|c a IH]; [now destruct b |].
  rewrite append_cons. cbn. now rewrite IH.
Qed.

(** A part revealed as a keyword button is a marker. *)
Lemma marker_shaped (part : string) :
  startsWith part "[[" && endsWith part "]]" = true ->
  exists x, part = "[[" +:+ x +:+ "]]".
Proof.
  intros H. apply andb_true_iff in H as [Hstart Hend].
  apply startsWith_spec in Hstart as (behind & ->).
  apply endsWith_spec in Hend as (before & Heq).
  change ("[[" +:+ behind) with (String "[" (String "[" behind)) in Heq.
  destruct before as [|a [|b before]].
  - rewrite append_empty_l in Heq. discriminate Heq.
  - rewrite append_cons, append_empty_l in Heq. injection Heq as _ Heq.
    discriminate Heq.
  - rewrite !append_cons in Heq. injection Heq as <- <- ->. now exists before.
Qed.

Lemma partNode_marker (keyword : string) :
  partNode ("[[" +:+ keyword +:+ "]]") = KeywordButton keyword.
Proof.
  unfold partNode.
  assert (Hend : endsWith ("[[" +:+ keyword +:+ "]]") "]]" = true).
  { apply endsWith_spec. exists ("[[" +:+ keyword). now rewrite append_assoc. }
  rewrite Hend, startsWith_append. cbn [andb]. f_equal.
  rewrite !length_append. change (String.length "[[") with 2%nat.
  change (String.length "]]") with 2%nat.
  replace (2 + (String.length keyword + 2) - 4)%nat with (String.length keyword) by lia.
  change (String.substring 2 (String.length keyword) ("[[" +:+ keyword +:+ "]]"))
    with (String.substring 0 (String.length keyword) (keyword +:+ "]]")).
  apply substring_prefix.
Qed.

(** White space does not open a marker. *)
Lemma blank_not_marker (c : ascii) (r rest : string) :
  blank (String c r) = true -> dropPrefix "[[" (String c r +:+ rest) = None.
Proof.
  intros H. rewrite append_cons. cbn [dropPrefix].
  destruct (Ascii.eqb_spec "["%char c) as [<-|_]; [| reflexivity].
  rewrite blank_other in H by reflexivity. discriminate H.
Qed.

Lemma partNode_space (part : string) :
  isEmpty part = false -> blank part = true ->
  partNode part = (if includes part LF then Paragraph else TextSpan part).
Proof.
  intros Hne Hws. unfold partNode.
  destruct part as [|c r]; [discriminate Hne |].
  assert (Hstart : startsWith (String c r) "[[" = false).
  { destruct (startsWith (String c r) "[[") eqn:Hs; [| reflexivity].
    apply startsWith_spec in Hs as (rest & Heq).
    pose proof (blank_not_marker c r EmptyString Hws) as Hno.
    rewrite append_empty_r, Heq, dropPrefix_append in Hno. discriminate Hno. }
  now rewrite Hstart.
Qed.

Lemma partNode_text (piece s : string) :
  spaceless piece = true ->
  separatorAt (piece +:+ s) = None ->
  partNode piece = TextSpan piece.
Proof.
  intros Hpiece Hsep. unfold partNode.
  destruct (startsWith piece "[[" && endsWith piece "]]") eqn:Hshape.
  - destruct (marker_shaped _ Hshape) as (x & ->).
    pose proof (spaceless_oneLine _
                  (spaceless_prefix _ _ (spaceless_suffix _ _ Hpiece))) as Hx.
    pose proof (closeMarker_finds x s Hx) as Hfinds.
    unfold separatorAt in Hsep. rewrite !append_assoc, dropPrefix_append in Hsep.
    destruct (closeMarker _) as [[a b]|]; [discriminate Hsep | now contradiction Hfinds].
  - destruct (includes piece LF) eqn:Hlf; [| reflexivity].
    apply includes_spec in Hlf as (before & behind & ->).
    apply spaceless_suffix in Hpiece.
    pose proof (proj1 (spaceless_spec _) Hpiece EmptyString _ eq_refl) as Hat.
    now rewrite (whiteSpaceAt_space LF behind LF_space) in Hat.
Qed.

(** The white space a string opens with, as [\s+] takes it. *)
Lemma leadingSpace_spec (s : string) :
  exists space,
    s = space +:+ trimStart s /\ blank space = true
    /\ String.substring 0 (String.length s - String.length (trimStart s)) s = space.
Proof.
  destruct (trimStart_decompose s) as (a & Hs & Ha). exists a.
  split; [exact Hs |]. split; [exact Ha |].
  remember (trimStart s) as rest eqn:Hrest. clear Hrest. subst s.
  rewrite length_append.
  replace (String.length a + String.length rest - String.length rest)%nat
    with (String.length a) by lia.
  apply substring_prefix.
Qed.

Lemma separatorAt_spec (s separator rest : string) :
  separatorAt s = Some (separator, rest) ->
  s = separator +:+ rest
  /\ isEmpty separator = false
  /\ PartShape separator.
Proof.
  unfold separatorAt.
  destruct (leadingSpace_spec s) as (space & Hs & Hws & Hspace).
  destruct (match dropPrefix "[[" s with
            | Some r => closeMarker r
            | None => None
            end) as [[inner rest']|] eqn:Hmarker.
  - intros H. injection H as <- <-.
    destruct (dropPrefix "[[" s) as [r|] eqn:Hopen; [| discriminate Hmarker].
    apply dropPrefix_spec in Hopen.
    destruct (closeMarker_spec _ _ _ Hmarker) as [-> Hinner].
    split; [now rewrite Hopen, !append_assoc |]. split; [reflexivity |].
    exact (MarkerPart _ inner eq_refl Hinner (partNode_marker inner)).
  - cbv zeta. rewrite Hspace.
    destruct (isEmpty space) eqn:Hne; [discriminate |].
    intros H. injection H as <- <-.
    split; [exact Hs |]. split; [exact Hne |].
    exact (SpacePart _ Hne Hws (partNode_space _ Hne Hws)).
Qed.

Lemma separatorAt_none (s : string) :
  separatorAt s = None -> whiteSpaceAt s = None.
Proof.
  unfold separatorAt.
  destruct (leadingSpace_spec s) as (space & Hs & Hws & Hspace).
  destruct (match dropPrefix "[[" s with
            | Some r => closeMarker r
            | None => None
            end) as [[a b]|]; [discriminate |].
  cbv zeta. rewrite Hspace.
  destruct space as [|c r]; [| discriminate].
  intros _. rewrite append_empty_l in Hs. rewrite Hs. apply trimStart_opens.
Qed.

(** A marker whose keyword holds no closing bracket and no line
    terminator is one match. *)
Lemma separatorAt_marker (keyword rest : string) :
  oneLine keyword = true -> lacksChar "]" keyword = true ->
  separatorAt ("[[" +:+ keyword +:+ "]]" +:+ rest)
  = Some ("[[" +:+ keyword +:+ "]]", rest).
Proof.
  intros Hline Hlacks. unfold separatorAt.
  now rewrite dropPrefix_append, (closeMarker_exact keyword rest Hline Hlacks).
Qed.

(** All the white space a string opens with is one match. *)
Lemma separatorAt_space (space rest : string) :
  isEmpty space = false -> blank space = true -> whiteSpaceAt rest = None ->
  separatorAt (space +:+ rest) = Some (space, rest).
Proof.
  intros Hne Hws Hrest. unfold separatorAt.
  destruct space as [|c r]; [discriminate Hne |].
  rewrite (blank_not_marker c r rest Hws). cbv zeta.
  rewrite (trimStart_skips _ rest Hws), (trimStart_other _ Hrest).
  rewrite length_append.
  replace (String.length (String c r) + String.length rest - String.length rest)%nat
    with (String.length (String c r)) by lia.
  now rewrite substring_prefix.
Qed.

(** Where white space opens, there is a match. *)
Lemma separatorAt_opens (s ws : string) :
  whiteSpaceAt s = Some ws -> separatorAt s <> None.
Proof.
  intros Hat Hnone. apply separatorAt_none in Hnone. congruence.
Qed.

(** No match opens inside a word that holds no white space and no two
    opening brackets, when white space or nothing follows it. *)
Lemma separatorAt_word (b rest : string) :
  isEmpty b = false ->
  spaceless b = true -> includes b "[[" = false ->
  isEmpty rest = true \/ (exists ws, whiteSpaceAt rest = Some ws) ->
  separatorAt (b +:+ rest) = None.
Proof.
  intros Hne Hb Hopen Hrest.
  assert (Hbound : atBoundary rest = true).
  { destruct Hrest as [H | (ws & H)]; [now destruct rest |].
    apply whiteSpaceAt_spec in H as (Hin & r & ->). now apply space_boundary. }
  destruct b as [|c r]; [discriminate Hne |].
  assert (Hat : whiteSpaceAt (String c r +:+ rest) = None).
  { rewrite append_cons. apply whiteSpaceAt_aligned; [| exact Hbound].
    exact (proj1 (spaceless_spec _) Hb EmptyString _ eq_refl). }
  assert (Hmarker : dropPrefix "[[" (String c r +:+ rest) = None).
  { destruct (dropPrefix "[[" (String c r +:+ rest)) as [x|] eqn:Hd; [| reflexivity].
    exfalso. apply dropPrefix_spec in Hd.
    destruct r as [|c' r'].
    - rewrite append_cons, append_empty_l in Hd.
      change ("[[" +:+ x) with (String "[" (String "[" x)) in Hd.
      injection Hd as -> ->.
      destruct Hrest as [H | (ws & H)]; [discriminate H |].
      vm_compute in H. discriminate H.
    - rewrite !append_cons in Hd.
      change ("[[" +:+ x) with (String "[" (String "[" x)) in Hd.
      injection Hd as -> -> _. cbn in Hopen. discriminate Hopen. }
  unfold separatorAt. rewrite Hmarker. cbv zeta.
  rewrite (trimStart_other _ Hat), Nat.sub_diag.
  now destruct (String c r +:+ rest).
Qed.

(** The result of [split] does not depend on the bound on its steps. *)
Lemma splitFrom_fuel (fuel : nat) :
  forall fuel' piece s,
    (String.length s < fuel)%nat -> (String.length s < fuel')%nat ->
    splitFrom fuel piece s = splitFrom fuel' piece s.
Proof.
  induction fuel as [|fuel IH]; intros fuel' piece s Hfuel Hfuel'; [lia |].
  destruct fuel' as [|fuel']; [lia |].
  destruct s as [|c r]; [reflexivity |]. cbn [splitFrom].
  destruct (separatorAt (String c r)) as [[separator rest]|] eqn:Hat.
  - destruct (separatorAt_spec _ _ _ Hat) as (Heq & Hne & _).
    assert (Hlen : (String.length rest < String.length (String c r))%nat).
    { rewrite Heq, length_append. destruct separator; [discriminate Hne |].
      cbn [String.length]. lia. }
    now rewrite (IH fuel' EmptyString rest) by lia.
  - cbn [String.length] in *. now rewrite (IH fuel' _ r) by lia.
Qed.

Lemma summaryParts_split (fuel : nat) (s : string) :
  (String.length s < fuel)%nat ->
  List.filter (fun part => negb (isEmpty part)) (splitFrom fuel EmptyString s)
  = summaryParts (Some s).
Proof.
  intros Hfuel. unfold summaryParts. destruct s as [|c r].
  - destruct fuel; [lia | reflexivity].
  - cbn [isEmpty]. now rewrite (splitFrom_fuel fuel (S (String.length (String c r)))) by lia.
Qed.

(** One step of [split] at a match. *)
Lemma splitFrom_step (fuel : nat) (piece s separator rest : string) :
  separatorAt s = Some (separator, rest) ->
  (String.length s < fuel)%nat ->
  List.filter (fun part => negb (isEmpty part)) (splitFrom fuel piece s)
  = List.filter (fun part => negb (isEmpty part)) [piece]
    ++ separator :: summaryParts (Some rest).
Proof.
  intros Hat Hfuel. destruct (separatorAt_spec _ _ _ Hat) as (Heq & Hne & _).
  destruct fuel as [|fuel]; [lia |].
  destruct s as [|c r]; [discriminate Hat |].
  cbn [splitFrom]. rewrite Hat. cbn [List.filter]. rewrite Hne. cbn [negb].
  rewrite summaryParts_split.
  - now destruct (isEmpty piece).
  - apply (f_equal String.length) in Heq. rewrite length_append in Heq.
    destruct separator; [discriminate Hne |]. cbn [String.length] in *. lia.
Qed.

(** The steps of [split] through a text in which no match opens. *)
Lemma splitFrom_text (word : string) :
  forall fuel piece s,
    (String.length (word +:+ s) < fuel)%nat ->
    (forall a b, word = a +:+ b -> isEmpty b = false ->
                 separatorAt (b +:+ s) = None) ->
    splitFrom fuel piece (word +:+ s)
    = splitFrom (fuel - String.length word) (piece +:+ word) s.
Proof.
  induction word as [|c w IH]; intros fuel piece s Hfuel Hnone.
  - now rewrite append_empty_l, append_empty_r, Nat.sub_0_r.
  - destruct fuel as [|fuel]; [lia |].
    rewrite append_cons in *. cbn [splitFrom].
    rewrite <- append_cons, (Hnone EmptyString (String c w) eq_refl eq_refl).
    rewrite IH.
    + cbn [String.length]. rewrite append_assoc, append_cons, append_empty_l.
      reflexivity.
    + cbn [String.length] in Hfuel. lia.
    + intros a b -> Hb. exact (Hnone (String c a) b eq_refl Hb).
Qed.

Lemma append_snoc_split (a b p : string) (c : ascii) :
  a +:+ b = p +:+ String c EmptyString -> isEmpty b = false ->
  exists b', b = b' +:+ String c EmptyString /\ p = a +:+ b'.
Proof.
  revert p. induction a as [|x a IH]; intros p Heq Hb.
  - rewrite append_empty_l in Heq. now exists p.
  - rewrite append_cons in Heq. destruct p as [|y p].
    + rewrite append_empty_l in Heq. injection Heq as _ Heq.
      destruct a; [| discriminate Heq]. rewrite append_empty_l in Heq.
      subst b. discriminate Hb.
    + rewrite append_cons in Heq. injection Heq as -> Heq.
      destruct (IH p Heq Hb) as (b' & -> & ->). now exists b'.
Qed.

(** What [split] returns: the pieces and the separators, with nothing of
    the text lost.  [piece] is the text since the last match: no white
    space opens at any place in it. *)
Lemma splitFrom_spec (fuel : nat) :
  forall piece s,
    (String.length s < fuel)%nat ->
    (forall a b, piece = a +:+ b -> isEmpty b = false ->
                 whiteSpaceAt (b +:+ s) = None) ->
    (isEmpty piece = false -> separatorAt (piece +:+ s) = None) ->
    accumulated (splitFrom fuel piece s) = piece +:+ s
    /\ Forall (fun part => isEmpty part = true \/ PartShape part)
         (splitFrom fuel piece s).
Proof.
  induction fuel as [|fuel IH]; intros piece s Hfuel Hpiece Hsep; [lia |].
  assert (Hshape : isEmpty piece = true \/ PartShape piece).
  { destruct (isEmpty piece) eqn:Hne; [now left | right].
    assert (Hspaceless : spaceless piece = true).
    { apply spaceless_spec. intros a b Heq.
      destruct b as [|x b]; [reflexivity |].
      destruct (whiteSpaceAt (String x b)) as [ws|] eqn:Hat; [| reflexivity].
      pose proof (Hpiece a (String x b) Heq eq_refl) as Hin.
      now rewrite (whiteSpaceAt_prefix _ s _ Hat) in Hin. }
    exact (TextPart _ Hne Hspaceless (partNode_text piece s Hspaceless (Hsep eq_refl))). }
  destruct s as [|c r].
  - cbn [splitFrom accumulated fold_right].
    split; [reflexivity |]. constructor; [exact Hshape | constructor].
  - cbn [splitFrom]. destruct (separatorAt (String c r)) as [[separator rest]|] eqn:Hat.
    + destruct (separatorAt_spec _ _ _ Hat) as (Heq & Hne & Hpart).
      assert (Hlen : (String.length rest < fuel)%nat).
      { assert (String.length (String c r)
                = (String.length separator + String.length rest)%nat)
          by (rewrite Heq; apply length_append).
        destruct separator; [discriminate Hne |]. cbn [String.length] in *. lia. }
      destruct (IH EmptyString rest Hlen) as [Htext Hparts].
      { intros [|x a] b Hab Hb; [| discriminate Hab].
        rewrite append_empty_l in Hab. subst b. discriminate Hb. }
      { discriminate. }
      rewrite append_empty_l in Htext.
      split.
      * cbn [accumulated fold_right]. fold (accumulated (splitFrom fuel EmptyString rest)).
        now rewrite Htext, Heq.
      * constructor; [exact Hshape |].
        constructor; [now right | exact Hparts].
    + pose proof (separatorAt_none _ Hat) as Hc.
      destruct (IH (piece +:+ String c EmptyString) r) as [Htext Hparts].
      * cbn [String.length] in Hfuel. lia.
      * intros a b Hab Hb.
        destruct (append_snoc_split a b piece c (eq_sym Hab) Hb) as (b' & -> & ->).
        rewrite append_assoc, append_cons, append_empty_l.
        destruct b' as [|x b']; [now rewrite append_empty_l |].
        exact (Hpiece a (String x b') eq_refl eq_refl).
      * intros _. rewrite append_assoc, append_cons, append_empty_l.
        destruct (isEmpty piece) eqn:Hne; [| exact (Hsep eq_refl)].
        destruct piece; [| discriminate Hne]. now rewrite append_empty_l.
      * split; [| exact Hparts].
        now rewrite Htext, append_assoc, append_cons, append_empty_l.
Qed.

Lemma accumulated_filter (parts : list string) :
  accumulated (List.filter (fun part => negb (isEmpty part)) parts) = accumulated parts.
Proof.
  induction parts as [|p l IH]; [reflexivity |].
  cbn [List.filter]. destruct p as [|c r]; cbn [isEmpty negb].
  - cbn [accumulated fold_right]. now rewrite append_empty_l.
  - cbn [accumulated fold_right]. fold (accumulated l).
    fold (accumulated (List.filter (fun part => negb (isEmpty part)) l)).
    now rewrite IH.
Qed.

Lemma splitFrom_whole (fuel : nat) (s : string) :
  (String.length s < fuel)%nat ->
  accumulated (splitFrom fuel EmptyString s) = s
  /\ Forall (fun part => isEmpty part = true \/ PartShape part)
       (splitFrom fuel EmptyString s).
Proof.
  intros Hfuel. apply (splitFrom_spec fuel EmptyString s Hfuel); [| discriminate].
  intros [|x a] b Hab Hb; [| discriminate Hab].
  rewrite append_empty_l in Hab. subst b. discriminate Hb.
Qed.

Lemma includes_suffix (a b needle : string) :
  includes (a +:+ b) needle = false -> includes b needle = false.
Proof.
  rewrite !includes_false_spec. intros H (x & y & ->). apply H.
  exists (a +:+ x), y. now rewrite !append_assoc.
Qed.

(** X30.  [summaryParts] cuts the summary into
    parts that, put together again, are the summary: nothing is lost or
    reordered.  No part is empty, and each part is of one of three kinds: a
    marker [[[keyword]]] whose keyword holds no line terminator, revealed
    as a button that passes exactly the keyword to [onWordClick]; a run of
    white space, revealed as an empty paragraph when it holds a line feed
    and as itself otherwise; or a run of text in which no white space
    opens, revealed as itself.  White space is that of [\s]: the no-break
    space and the line separator are white space.  The cuts are these: a
    marker whose keyword holds no closing bracket and no line terminator
    is one part, whatever else the keyword holds; all the white space
    before a text that opens with none is one part; a word without white
    space and without two opening brackets in a row is one part when
    white space or nothing follows it.  A summary that is missing or empty
    has no parts. *)
Theorem summary_parts_keep_the_text (summary : string) :
  accumulated (summaryParts (Some summary)) = summary
  /\ Forall PartShape (summaryParts (Some summary))
  /\ Forall (fun part => isEmpty part = false) (summaryParts (Some summary))
  /\ (forall keyword,
        oneLine keyword = true -> lacksChar "]" keyword = true ->
        summaryParts (Some ("[[" +:+ keyword +:+ "]]" +:+ summary))
        = ("[[" +:+ keyword +:+ "]]") :: summaryParts (Some summary))
  /\ (forall space,
        isEmpty space = false -> blank space = true ->
        whiteSpaceAt summary = None ->
        summaryParts (Some (space +:+ summary))
        = space :: summaryParts (Some summary))
  /\ (forall word,
        isEmpty word = false -> spaceless word = true ->
        includes word "[[" = false ->
        isEmpty summary = true \/ (exists ws, whiteSpaceAt summary = Some ws) ->
        summaryParts (Some (word +:+ summary))
        = word :: summaryParts (Some summary))
  /\ summaryParts None = []
  /\ summaryParts (Some EmptyString) = [].
Proof.
  split; [| split; [| split; [| split; [| split; [| split; [| split; reflexivity]]]]]].
  - unfold summaryParts. destruct (isEmpty summary) eqn:Hne.
    + now destruct summary.
    + rewrite accumulated_filter.
      now destruct (splitFrom_whole (S (String.length summary)) summary ltac:(lia)).
  - unfold summaryParts. destruct (isEmpty summary); [constructor |].
    destruct (splitFrom_whole (S (String.length summary)) summary ltac:(lia))
      as [_ Hparts].
    induction Hparts as [|part parts Hpart _ IH]; [constructor |].
    cbn [List.filter]. destruct (isEmpty part) eqn:Hempty; cbn [negb]; [exact IH |].
    constructor; [| exact IH]. destruct Hpart as [H | H]; [discriminate H | exact H].
  - unfold summaryParts. destruct (isEmpty summary); [constructor |].
    induction (splitFrom _ _ _) as [|part parts IH]; [constructor |].
    cbn [List.filter]. destruct (isEmpty part) eqn:Hempty; cbn [negb]; [exact IH |].
    now constructor.
  - intros keyword Hline Hlacks.
    rewrite <- (summaryParts_split
                  (S (String.length ("[[" +:+ keyword +:+ "]]" +:+ summary)))) by lia.
    now rewrite (splitFrom_step _ EmptyString _ _ _
                   (separatorAt_marker keyword summary Hline Hlacks)) by lia.
  - intros space Hne Hws Hopen.
    rewrite <- (summaryParts_split (S (String.length (space +:+ summary)))) by lia.
    now rewrite (splitFrom_step _ EmptyString _ _ _
                   (separatorAt_space space summary Hne Hws Hopen)) by lia.
  - intros word Hne Hword Hopen Hrest.
    rewrite <- (summaryParts_split (S (String.length (word +:+ summary)))) by lia.
    rewrite splitFrom_text; [| lia |].
    2: { intros a b -> Hb. apply separatorAt_word; [exact Hb | | | exact Hrest].
         - exact (spaceless_suffix _ _ Hword).
         - exact (includes_suffix _ _ _ Hopen). }
    rewrite append_empty_l, length_append.
    replace (S (String.length word + String.length summary) - String.length word)%nat
      with (S (String.length summary)) by lia.
    destruct Hrest as [Hempty | (ws & Hws)].
    + destruct summary; [| discriminate Hempty].
      cbn [splitFrom List.filter summaryParts isEmpty]. now rewrite Hne.
    + destruct (separatorAt summary) as [[separator rest]|] eqn:Hat;
        [| now apply separatorAt_opens in Hws].
      rewrite (splitFrom_step _ word summary separator rest Hat) by lia.
      rewrite <- (summaryParts_split (S (String.length summary)) summary) by lia.
      rewrite (splitFrom_step _ EmptyString summary separator rest Hat) by lia.
      cbn [List.filter isEmpty negb app]. now rewrite Hne.
Qed.

Lemma summary_parts_keep_the_text_witness :
  summaryParts
    (Some ("[[" +:+ "Vannevar Bush" +:+ "]]" +:+ " coined" +:+ utf8 0xA0 +:+ " it."))
  = ["[[Vannevar Bush]]"; " "; "coined"; utf8 0xA0 +:+ " "; "it."].
Proof.
  rewrite (proj1 (proj2 (proj2 (proj2
             (summary_parts_keep_the_text (" coined" +:+ utf8 0xA0 +:+ " it.")))))
             "Vannevar Bush" eq_refl eq_refl).
  vm_compute. reflexivity.
Defined.
